(** * Flexible cumulative scheduling: the feasibility evaluator

    A shallow embedding of [FlexibleCumulativeProblem.evaluate_solution]
    (src/flexible_cumulative_problem.py) and of the name resolution that
    [_read_instance] depends on, together with the properties of the
    evaluator: penalty on every detected violation, makespan on feasible
    schedules, the behaviour of the capacity sweep at coinciding
    timestamps, exceptions on ill-typed candidates, and purity.  Further
    sections cover the text format [_read_instance] parses and
    [random_solution]. *)

From Stdlib Require Import ZArith Lia Permutation Sorted Ascii.
From stdpp Require Import base option list strings gmap.

Set Warnings "-register-all".
Local Open Scope Z_scope.

(** ** Python values and control flow *)

(** The values a candidate solution is built from.  Floats are left out:
    the evaluator creates only one float, the literal [1e9], which is
    [Penalty] below. *)
Inductive pyval : Type :=
  | PNone
  | PBool (b : bool)
  | PInt (z : Z)
  | PStr (s : string)
  | PList (items : list pyval)
  | PTuple (items : list pyval).

Inductive pyexn : Type :=
  | TypeError | IndexError | ValueError | NameError | FileNotFoundError.

(** What [evaluate_solution] hands back: the float [1e9] or an integer
    makespan. *)
Inductive score : Type :=
  | Penalty
  | Makespan (m : Z).

(** A statement either falls through to the next one, executes a
    [return], or raises. *)
Inductive outcome (A : Type) : Type :=
  | Next (a : A)
  | Return (s : score)
  | Raise (e : pyexn).
Arguments Next {A} a.
Arguments Return {A} s.
Arguments Raise {A} e.

Definition obind {A B : Type} (m : outcome A) (k : A → outcome B) : outcome B :=
  match m with
  | Next a => k a
  | Return s => Return s
  | Raise e => Raise e
  end.

Notation "'let!' x ':=' m 'in' k" := (obind m (λ x, k))
  (at level 10, x pattern, m at level 100, k at level 200,
   format "'[v' 'let!'  x  ':='  m  'in' '/' k ']'").

(** [for x in xs: body], threading the variables the body assigns. *)
Fixpoint for_each {A S : Type} (xs : list A) (body : A → S → outcome S) (s : S)
    : outcome S :=
  match xs with
  | [] => Next s
  | x :: xs' => let! s' := body x s in for_each xs' body s'
  end.

(** [range(n)]; empty when [n <= 0]. *)
Definition range (n : Z) : list Z := Z.of_nat <$> seq 0 (Z.to_nat n).

(** [bool] is a subclass of [int]: [True] and [False] take part in
    arithmetic, comparison and indexing as [1] and [0]. *)
Definition as_int (v : pyval) : option Z :=
  match v with
  | PInt z => Some z
  | PBool b => Some (if b then 1 else 0)
  | _ => None
  end.

(** [l[i]] on a list: negative indices count from the end, anything out
    of range raises [IndexError]. *)
Definition py_index {A : Type} (l : list A) (i : Z) : outcome A :=
  let n := Z.of_nat (length l) in
  let j := if i <? 0 then i + n else i in
  if (j <? 0) || (n <=? j) then Raise IndexError
  else match l !! Z.to_nat j with
       | Some x => Next x
       | None => Raise IndexError
       end.

(** [l[v]] where the index is a Python value. *)
Definition py_index_by {A : Type} (l : list A) (v : pyval) : outcome A :=
  match as_int v with
  | Some i => py_index l i
  | None => Raise TypeError
  end.

Definition chars (s : string) : list pyval :=
  (λ c, PStr (String c EmptyString)) <$> String.list_ascii_of_string s.

(** [v[i]] on a Python value. *)
Definition py_getitem (v : pyval) (i : Z) : outcome pyval :=
  match v with
  | PList l | PTuple l => py_index l i
  | PStr s => py_index (chars s) i
  | _ => Raise TypeError
  end.

(** [l[i] = x] on a list. *)
Definition py_setitem {A : Type} (l : list A) (i : Z) (x : A) : outcome (list A) :=
  let n := Z.of_nat (length l) in
  let j := if i <? 0 then i + n else i in
  if (j <? 0) || (n <=? j) then Raise IndexError
  else Next (<[Z.to_nat j := x]> l).

(** [len(v)] *)
Definition py_len (v : pyval) : outcome Z :=
  match v with
  | PList l | PTuple l => Next (Z.of_nat (length l))
  | PStr s => Next (Z.of_nat (String.length s))
  | _ => Raise TypeError
  end.

(** [v < n], [v >= n], [n > v], [v + n] against an integer [n]: a
    [TypeError] unless [v] is an [int] or a [bool]. *)
Definition py_lt (v : pyval) (n : Z) : outcome bool :=
  match as_int v with Some z => Next (z <? n) | None => Raise TypeError end.

Definition py_ge (v : pyval) (n : Z) : outcome bool :=
  match as_int v with Some z => Next (n <=? z) | None => Raise TypeError end.

Definition py_gt_val (n : Z) (v : pyval) : outcome bool :=
  match as_int v with Some z => Next (z <? n) | None => Raise TypeError end.

Definition py_add (v : pyval) (n : Z) : outcome Z :=
  match as_int v with Some z => Next (z + n) | None => Raise TypeError end.

(** [v == n] never raises. *)
Definition py_eq (v : pyval) (n : Z) : bool :=
  match as_int v with Some z => z =? n | None => false end.

(** [max(l)] on a list of integers: [ValueError] on the empty list. *)
Definition py_max (l : list Z) : outcome Z :=
  match l with
  | [] => Raise ValueError
  | x :: l' => Next (foldl Z.max x l')
  end.

(** ** The instance *)

Record instance : Type := {
  nb_tasks : Z;
  nb_resources : Z;
  capacity : list Z;
  task_processing_time_data : list (list Z);
  weights : list (list Z);
  nb_successors : list Z;
  successors : list (list Z);
  horizon : Z
}.

(** ** The capacity sweep's events *)

(** An event is [(time, delta)]. *)
Definition event : Type := Z * Z.

(** [events.sort(key=lambda x: x[0])]: Python's sort is stable, so events
    with equal time keep the order in which they were appended.  Stable
    insertion: a new head goes before the first event whose time is not
    smaller. *)
Fixpoint insert_event (e : event) (l : list event) : list event :=
  match l with
  | [] => [e]
  | e' :: l' => if e.1 <=? e'.1 then e :: l else e' :: insert_event e l'
  end.

Definition sort_events (l : list event) : list event :=
  foldr insert_event [] l.

(** ** evaluate_solution *)

Section evaluate.
Context (self : instance).

(** Lines 103-107: the format validation. *)
Definition check_format (solution : pyval) : outcome (pyval * pyval) :=
  match solution with
  | PList [task_resources; start_times]
  | PTuple [task_resources; start_times] =>
      let! n1 := py_len task_resources in
      if negb (n1 =? nb_tasks self) then Return Penalty
      else
        let! n2 := py_len start_times in
        if negb (n2 =? nb_tasks self) then Return Penalty
        else Next (task_resources, start_times)
  | _ => Return Penalty
  end.

(** Lines 113-123: the body of the first loop. *)
Definition finish_time_step (task_resources start_times : pyval)
    (i : Z) (finish_times : list Z) : outcome (list Z) :=
  let! r := py_getitem task_resources i in
  let! st := py_getitem start_times i in
  let! neg := py_lt r 0 in
  if neg then Return Penalty
  else
    let! big := py_ge r (nb_resources self) in
    if big then Return Penalty
    else
      let! row := py_index (task_processing_time_data self) i in
      let! proc_time := py_index_by row r in
      let! wrow := py_index_by (weights self) r in
      let! weight := py_index wrow i in
      if (proc_time =? 0) && (weight =? 0) then Return Penalty
      else
        let! ft := py_add st proc_time in
        py_setitem finish_times i ft.

(** Lines 109-123. *)
Definition compute_finish_times (task_resources start_times : pyval)
    : outcome (list Z) :=
  for_each (range (nb_tasks self))
    (finish_time_step task_resources start_times)
    (replicate (Z.to_nat (nb_tasks self)) 0).

(** Line 128. *)
Definition precedence_step (start_times : pyval) (finish_times : list Z)
    (i succ : Z) (_ : unit) : outcome unit :=
  let! ft := py_index finish_times i in
  let! st := py_getitem start_times succ in
  let! late := py_gt_val ft st in
  if late then Return Penalty else Next ().

(** Lines 126-129. *)
Definition check_precedence (start_times : pyval) (finish_times : list Z)
    : outcome unit :=
  for_each (range (nb_tasks self))
    (λ i _,
       let! succs := py_index (successors self) i in
       for_each succs (precedence_step start_times finish_times i) ())
    ().

(** Lines 136-141.  The tuples hold the start time as the candidate
    gives it; every start time has been added to an integer by the
    first loop, so it is an [int] or a [bool] here and sorts as its
    integer value. *)
Definition collect_step (task_resources start_times : pyval)
    (finish_times : list Z) (r i : Z) (events : list event)
    : outcome (list event) :=
  let! tr := py_getitem task_resources i in
  if py_eq tr r then
    let! st := py_getitem start_times i in
    let! ft := py_index finish_times i in
    let! wrow := py_index (weights self) r in
    let! w := py_index wrow i in
    match as_int st with
    | Some t => Next (events ++ [(t, w); (ft, - w)])
    | None => Raise TypeError
    end
  else Next events.

(** Lines 145-147. *)
Definition sweep_step (r : Z) (e : event) (current_usage : Z) : outcome Z :=
  let current_usage := current_usage + e.2 in
  let! cap := py_index (capacity self) r in
  if cap <? current_usage then Return Penalty else Next current_usage.

(** Lines 132-147. *)
Definition check_capacity (task_resources start_times : pyval)
    (finish_times : list Z) : outcome unit :=
  for_each (range (nb_resources self))
    (λ r _,
       let! events :=
         for_each (range (nb_tasks self))
           (collect_step task_resources start_times finish_times r) [] in
       let events := sort_events events in
       let! _ := for_each events (sweep_step r) 0 in
       Next ())
    ().

Definition evaluate_solution (solution : pyval) : outcome Empty_set :=
  let! (task_resources, start_times) := check_format solution in
  let! finish_times := compute_finish_times task_resources start_times in
  let! _ := check_precedence start_times finish_times in
  let! _ := check_capacity task_resources start_times finish_times in
  let! makespan := py_max finish_times in
  Return (Makespan makespan).
End evaluate.

(** ** Building instances and candidates *)

Definition mk_instance (cap : list Z) (proc : list (list Z)) (w : list (list Z))
    (succ : list (list Z)) : instance :=
  {| nb_tasks := Z.of_nat (length proc);
     nb_resources := Z.of_nat (length cap);
     capacity := cap;
     task_processing_time_data := proc;
     weights := w;
     nb_successors := (λ l, Z.of_nat (length l)) <$> succ;
     successors := succ;
     horizon := foldr Z.add 0 ((λ row, foldr Z.max 0 row) <$> proc) |}.

Definition candidate (res st : list Z) : pyval :=
  PTuple [PList (PInt <$> res); PList (PInt <$> st)].

(** ** Typed view of a candidate and of the checks *)

(** A sequence of integers, as the evaluator reads it: a list or tuple
    whose items are [int] or [bool]. *)
Definition as_int_seq (v : pyval) : option (list Z) :=
  match v with
  | PList l | PTuple l => mapM as_int l
  | _ => None
  end.

(** A schedule [(resource_of, start_time)] read off a candidate. *)
Definition schedule_of (solution : pyval) : option (list Z * list Z) :=
  match solution with
  | PList [task_resources; start_times]
  | PTuple [task_resources; start_times] =>
      match as_int_seq task_resources, as_int_seq start_times with
      | Some res, Some st => Some (res, st)
      | _, _ => None
      end
  | _ => None
  end.

(** The tables of a loaded instance have the shapes [_read_instance]
    builds, and successors name tasks. *)
Record wf_instance (inst : instance) : Prop := {
  wf_tasks : 0 ≤ nb_tasks inst;
  wf_resources : 0 ≤ nb_resources inst;
  wf_capacity : Z.of_nat (length (capacity inst)) = nb_resources inst;
  wf_proc_rows : Z.of_nat (length (task_processing_time_data inst)) = nb_tasks inst;
  wf_proc_cols :
    Forall (λ row : list Z, Z.of_nat (length row) = nb_resources inst)
      (task_processing_time_data inst);
  wf_weight_rows : Z.of_nat (length (weights inst)) = nb_resources inst;
  wf_weight_cols :
    Forall (λ row : list Z, Z.of_nat (length row) = nb_tasks inst) (weights inst);
  wf_succ_rows : Z.of_nat (length (successors inst)) = nb_tasks inst;
  wf_succ_range :
    Forall (Forall (λ j, 0 ≤ j < nb_tasks inst)) (successors inst)
}.

Section typed.
Context (inst : instance).

(** [processing_time[i][r]] and [weight[r][i]]. *)
Definition proc (i : nat) (r : Z) : Z :=
  default 0 (task_processing_time_data inst !! i ≫= (.!! Z.to_nat r)).

Definition weight (r : Z) (i : nat) : Z :=
  default 0 (weights inst !! Z.to_nat r ≫= (.!! i)).

(** The per-task resource validity of lines 116 and 121. *)
Definition resource_ok (i : nat) (r : Z) : bool :=
  (0 <=? r) && (r <? nb_resources inst)
  && negb ((proc i r =? 0) && (weight r i =? 0)).

Definition resources_ok (res : list Z) : bool :=
  forallb (λ i, resource_ok i (default 0 (res !! i))) (seq 0 (length res)).

(** [finish_time[i] = start_time[i] + processing_time[i][resource_of[i]]] *)
Definition finish_time (res st : list Z) (i : nat) : Z :=
  default 0 (st !! i) + proc i (default 0 (res !! i)).

Definition finish_times_of (res st : list Z) : list Z :=
  finish_time res st <$> seq 0 (length res).

(** The precedence condition of line 128 for one pair and for all. *)
Definition pair_ok (res st : list Z) (i : nat) (j : Z) : bool :=
  finish_time res st i <=? default 0 (st !! Z.to_nat j).

Definition precedence_ok (res st : list Z) : bool :=
  forallb (λ i, forallb (pair_ok res st i) (default [] (successors inst !! i)))
    (seq 0 (length res)).

(** The events of resource [r], in the order of appending. *)
Definition task_events (res st : list Z) (r : Z) (i : nat) : list event :=
  if default 0 (res !! i) =? r
  then [(default 0 (st !! i), weight r i); (finish_time res st i, - weight r i)]
  else [].

Definition events_of (res st : list Z) (r : Z) : list event :=
  seq 0 (length res) ≫= task_events res st r.

(** The running usage stays within [cap] after every single event. *)
Fixpoint sweep_ok (cap : Z) (usage : Z) (events : list event) : bool :=
  match events with
  | [] => true
  | e :: events' => (usage + e.2 <=? cap) && sweep_ok cap (usage + e.2) events'
  end.

Definition resource_sweep_ok (res st : list Z) (r : nat) : bool :=
  sweep_ok (default 0 (capacity inst !! r)) 0
    (sort_events (events_of res st (Z.of_nat r))).

Definition capacity_ok (res st : list Z) : bool :=
  forallb (resource_sweep_ok res st) (seq 0 (Z.to_nat (nb_resources inst))).

(** The largest finish time, as a specification: attained and an upper
    bound. *)
Definition is_makespan (res st : list Z) (m : Z) : Prop :=
  (∃ i, (i < length res)%nat ∧ finish_time res st i = m)
  ∧ ∀ i, (i < length res)%nat → finish_time res st i ≤ m.

(** Shape: both sequences have [nb_tasks] entries (line 106). *)
Definition well_shaped (res st : list Z) : bool :=
  (Z.of_nat (length res) =? nb_tasks inst)
  && (Z.of_nat (length st) =? nb_tasks inst).

(** All four checks of the evaluator. *)
Definition feasible (res st : list Z) : bool :=
  well_shaped res st && resources_ok res && precedence_ok res st
  && capacity_ok res st.

(** Task [i] runs on [r] at instant [t]: [t] lies in the half-open
    interval [[start, finish)]. *)
Definition active (res st : list Z) (r t : Z) (i : nat) : bool :=
  (default 0 (res !! i) =? r) && (default 0 (st !! i) <=? t)
  && (t <? finish_time res st i).

(** The summed weight of the tasks running on [r] at instant [t]. *)
Definition usage_at (res st : list Z) (r t : Z) : Z :=
  foldr Z.add 0
    ((λ i, if active res st r t i then weight r i else 0)
       <$> seq 0 (length res)).
End typed.

(** The sum of the deltas of a list of events. *)
Definition total (events : list event) : Z := foldr Z.add 0 (snd <$> events).

(** The summed positive deltas of a list of events. *)
Definition demand (events : list event) : Z :=
  foldr Z.add 0 ((λ e : event, Z.max 0 e.2) <$> events).

(** Events in ascending order of time. *)
Definition by_time : relation event := λ a b, a.1 ≤ b.1.

(** ** Violation classes *)

(** [solution] is a two-element list or tuple with these components. *)
Definition is_pair (solution task_resources start_times : pyval) : Prop :=
  solution = PList [task_resources; start_times]
  ∨ solution = PTuple [task_resources; start_times].

(** The malformations the format validation of lines 103-107 looks for. *)
Inductive malformed (inst : instance) (solution : pyval) : Prop :=
  | not_a_pair :
      (∀ tr sts, ¬ is_pair solution tr sts) → malformed inst solution
  | bad_first_length tr sts n :
      is_pair solution tr sts → py_len tr = Next n → n ≠ nb_tasks inst →
      malformed inst solution
  | bad_second_length tr sts n :
      is_pair solution tr sts → py_len tr = Next (nb_tasks inst) →
      py_len sts = Next n → n ≠ nb_tasks inst →
      malformed inst solution.

(** The five classes of violation the evaluator detects. *)
Inductive violation (inst : instance) (solution : pyval) : Prop :=
  | malformed_shape :
      malformed inst solution → violation inst solution
  | invalid_resource_index res st i r :
      schedule_of solution = Some (res, st) → res !! i = Some r →
      ¬ (0 ≤ r < nb_resources inst) →
      violation inst solution
  | incompatible_resource res st i r :
      schedule_of solution = Some (res, st) → res !! i = Some r →
      proc inst i r = 0 → weight inst r i = 0 →
      violation inst solution
  | precedence_violation res st i succs j :
      schedule_of solution = Some (res, st) → (i < length res)%nat →
      successors inst !! i = Some succs → j ∈ succs →
      default 0 (st !! Z.to_nat j) < finish_time inst res st i →
      violation inst solution
  | capacity_overflow res st r :
      schedule_of solution = Some (res, st) →
      0 ≤ Z.of_nat r < nb_resources inst →
      resource_sweep_ok inst res st r = false →
      violation inst solution.

(** ** Concrete instances *)

Definition scenario_1_instance : instance := mk_instance [5] [[3]] [[2]] [[]].
Definition scenario_2_instance : instance :=
  mk_instance [5] [[3]; [2]] [[1; 1]] [[1]; []].
Definition scenario_3_instance : instance :=
  mk_instance [4] [[3]; [3]] [[3; 3]] [[]; []].
Definition scenario_4_instance : instance :=
  mk_instance [4] [[3]; [2]] [[2; 2]] [[]; []].

(** Two tasks and two resources; task 0 has processing time 0 and weight
    0 on resource 1, and task 1 is its successor. *)
Definition two_resource_instance : instance :=
  mk_instance [4; 5] [[3; 0]; [2; 1]] [[2; 2]; [0; 1]] [[1]; []].

(** Task 0 runs over [[3, 5)] and task 1 over [[0, 3)], both of weight 2
    on the one resource of capacity 2. *)
Definition tie_instance : instance :=
  mk_instance [2] [[2]; [3]] [[2; 2]] [[]; []].

(** The same two tasks with their numbers exchanged. *)
Definition tie_instance_renumbered : instance :=
  mk_instance [2] [[3]; [2]] [[2; 2]] [[]; []].

(** ** Loading an instance: names, files and the text format *)

(** The module's top-level statements, as far as they bind names. *)
Inductive toplevel : Type :=
  | ImportFrom (module : string) (names : list string)
  | Import (module : string)
  | ClassDef (name : string).

(** Lines 1, 2 and 4 of the module. *)
Definition module_body : list toplevel :=
  [ ImportFrom "qubots.base_problem" ["BaseProblem"];
    Import "random";
    ClassDef "FlexibleCumulativeProblem" ].

Definition binds (s : toplevel) : list string :=
  match s with
  | ImportFrom _ names => names
  | Import m => [m]
  | ClassDef c => [c]
  end.

(** The names every module starts with. *)
Definition module_dunders : list string :=
  [ "__name__"; "__doc__"; "__package__"; "__loader__"; "__spec__";
    "__file__"; "__cached__"; "__builtins__" ].

(** The module's global namespace once its body has run. *)
Definition module_globals : list string :=
  module_dunders ++ (module_body ≫= binds).

(** The names of the built-in functions, types and constants. *)
Definition builtin_names : list string :=
  [ "abs"; "aiter"; "all"; "anext"; "any"; "ascii"; "bin"; "bool";
    "breakpoint"; "bytearray"; "bytes"; "callable"; "chr"; "classmethod";
    "compile"; "complex"; "delattr"; "dict"; "dir"; "divmod"; "enumerate";
    "eval"; "exec"; "filter"; "float"; "format"; "frozenset"; "getattr";
    "globals"; "hasattr"; "hash"; "help"; "hex"; "id"; "input"; "int";
    "isinstance"; "issubclass"; "iter"; "len"; "list"; "locals"; "map";
    "max"; "memoryview"; "min"; "next"; "object"; "oct"; "open"; "ord";
    "pow"; "print"; "property"; "range"; "repr"; "reversed"; "round";
    "set"; "setattr"; "slice"; "sorted"; "staticmethod"; "str"; "sum";
    "super"; "tuple"; "type"; "vars"; "zip"; "__import__";
    "True"; "False"; "None"; "Ellipsis"; "NotImplemented"; "__debug__";
    "BaseException"; "Exception"; "ArithmeticError"; "AssertionError";
    "AttributeError"; "EOFError"; "FileNotFoundError"; "ImportError";
    "IndexError"; "KeyError"; "KeyboardInterrupt"; "LookupError";
    "MemoryError"; "ModuleNotFoundError"; "NameError";
    "NotImplementedError"; "OSError"; "OverflowError"; "RecursionError";
    "RuntimeError"; "StopIteration"; "SyntaxError"; "SystemExit";
    "TypeError"; "UnboundLocalError"; "ValueError"; "ZeroDivisionError" ].

(** Reading a name that the function does not assign: the module's
    globals, then the built-ins, else [NameError]. *)
Definition load_global (globals : list string) (name : string) : outcome unit :=
  if bool_decide (name ∈ globals) || bool_decide (name ∈ builtin_names)
  then Next ()
  else Raise NameError.

(** The file system as the reader sees it: the lines of each file, the
    directory of the module, and the paths opened so far. *)
Record world : Type := {
  files : gmap string (list string);
  module_dir : string;
  opened : list string
}.

Definition is_space (c : ascii) : bool :=
  let n := nat_of_ascii c in
  ((9 <=? n)%nat && (n <=? 13)%nat) || ((28 <=? n)%nat && (n <=? 32)%nat).

(** [s.split()] *)
Fixpoint split_ws (s cur : list ascii) : list (list ascii) :=
  match s with
  | [] => match cur with [] => [] | _ => [reverse cur] end
  | c :: s' =>
      if is_space c
      then match cur with [] => split_ws s' [] | _ => reverse cur :: split_ws s' [] end
      else split_ws s' (c :: cur)
  end.

Fixpoint lstrip (s : list ascii) : list ascii :=
  match s with
  | c :: s' => if is_space c then lstrip s' else s
  | [] => []
  end.

(** [s.strip()] *)
Definition strip (s : list ascii) : list ascii :=
  reverse (lstrip (reverse (lstrip s))).

Definition digit_of (c : ascii) : option Z :=
  let n := nat_of_ascii c in
  if (48 <=? n)%nat && (n <=? 57)%nat then Some (Z.of_nat n - 48) else None.

(** The digits of an integer literal, single underscores allowed between
    them. *)
Fixpoint digits (s : list ascii) (acc : Z) (after_digit : bool) : option Z :=
  match s with
  | [] => if after_digit then Some acc else None
  | c :: s' =>
      match digit_of c with
      | Some d => digits s' (10 * acc + d) true
      | None =>
          if after_digit && bool_decide (c = "_"%char) then digits s' acc false
          else None
      end
  end.

(** [int(tok)] on a token without blanks: an optional sign and decimal
    digits (ASCII only), else [ValueError]. *)
Definition py_int (tok : list ascii) : outcome Z :=
  let signed (sign : Z) (body : list ascii) :=
    match digits body 0 false with
    | Some z => Next (sign * z)
    | None => Raise ValueError
    end in
  match tok with
  | c :: body =>
      if bool_decide (c = "-"%char) then signed (-1) body
      else if bool_decide (c = "+"%char) then signed 1 body
      else signed 1 tok
  | [] => Raise ValueError
  end.

(** [list(map(int, toks))] *)
Definition py_ints (toks : list (list ascii)) : outcome (list Z) :=
  for_each toks (λ tok acc, let! z := py_int tok in Next (acc ++ [z])) [].

(** Lines 50-86: from the lines of the file to the fields of an instance. *)
Definition parse_instance (raw : list string) : outcome instance :=
  let lines :=
    strip <$> filter (λ l, strip l ≠ []) (String.list_ascii_of_string <$> raw) in
  let! line0 := py_index lines 0 in
  let first_line := split_ws line0 [] in
  let! tok := py_index first_line 0 in
  let! nb_tasks := py_int tok in
  let! tok := py_index first_line 1 in
  let! nb_resources := py_int tok in
  let! line1 := py_index lines 1 in
  let! capacity := py_ints (split_ws line1 []) in
  let! (data, weights) :=
    for_each (range nb_tasks)
      (λ i '(data, weights),
         let! line := py_index lines (2 + i) in
         let parts := split_ws line [] in
         let! (durations, weights) :=
           for_each (range nb_resources)
             (λ r '(durations, weights),
                let! tok := py_index parts (2 * r) in
                let! duration := py_int tok in
                let! tok := py_index parts (2 * r + 1) in
                let! weight_val := py_int tok in
                let! wrow := py_index weights r in
                let! weights := py_setitem weights r (wrow ++ [weight_val]) in
                Next (durations ++ [duration], weights))
             ([], weights) in
         Next (data ++ [durations], weights))
      ([], replicate (Z.to_nat nb_resources) []) in
  let! (nb_successors, successors) :=
    for_each (range nb_tasks)
      (λ i '(nb_successors, successors),
         let! line := py_index lines (2 + nb_tasks + i) in
         let parts := split_ws line [] in
         let! tok := py_index parts 0 in
         let! num_succ := py_int tok in
         let! succ_list :=
           if 0 <? num_succ then py_ints (tail parts) else Next [] in
         Next (nb_successors ++ [num_succ], successors ++ [succ_list]))
      ([], []) in
  let! horizon :=
    for_each (range nb_tasks)
      (λ i acc,
         let! row := py_index data i in
         let! m := py_max row in
         Next (acc + m))
      0 in
  Next {| nb_tasks := nb_tasks; nb_resources := nb_resources;
          capacity := capacity; task_processing_time_data := data;
          weights := weights; nb_successors := nb_successors;
          successors := successors; horizon := horizon |}.

(** [os.path.isabs] and [os.path.join] on a POSIX system. *)
Definition posix_isabs (path : string) : bool :=
  match path with String "/" _ => true | _ => false end.

Definition posix_join (base path : string) : string :=
  if posix_isabs path then path
  else match last (String.list_ascii_of_string base) with
       | None | Some "/"%char => base +:+ path
       | Some _ => base +:+ "/" +:+ path
       end.

(** Lines 40-86.  The first thing the body evaluates is the name [os]. *)
Definition _read_instance (globals : list string) (w : world) (filename : string)
    : outcome instance * world :=
  match load_global globals "os" with
  | Raise e => (Raise e, w)
  | Return s => (Return s, w)
  | Next _ =>
      let filename :=
        if negb (posix_isabs filename) then posix_join (module_dir w) filename
        else filename in
      let w' := {| files := files w; module_dir := module_dir w;
                   opened := opened w ++ [filename] |} in
      match files w !! filename with
      | None => (Raise FileNotFoundError, w')
      | Some raw => (parse_instance raw, w')
      end
  end.

(** Lines 24-38: the constructor stores what [_read_instance] returns. *)
Definition __init__ (globals : list string) (w : world) (instance_file : string)
    : outcome instance * world :=
  _read_instance globals w instance_file.

(** A file holding [two_resource_instance], next to the module. *)
Definition sample_world : world :=
  {| files :=
       {[ "/repo/instance.txt" :=
            ["2 2"; "4 5"; ""; " 3 2 0 0 "; "2 2 1 1"; "1 1"; "0"] ]};
     module_dir := "/repo";
     opened := [] |}.

(** ** The evaluator over a store of list objects *)

(** Values as Python holds them: a list is a reference to a mutable
    object of the store, everything else is immutable. *)
Inductive hval : Type :=
  | HNone
  | HBool (b : bool)
  | HInt (z : Z)
  | HStr (s : string)
  | HTuple (items : list hval)
  | HRef (l : positive).

Abbreviation heap := (gmap positive (list hval)).

(** The items of the list object at [l]. *)
Definition contents (h : heap) (l : positive) : list hval := default [] (h !! l).

(** A value as the operators of the evaluator see it, one, two and three
    levels deep: an item of a sequence, a sequence of the candidate, the
    candidate. *)
Definition item_view (v : hval) : pyval :=
  match v with
  | HNone => PNone
  | HBool b => PBool b
  | HInt z => PInt z
  | HStr s => PStr s
  | HTuple _ => PTuple []
  | HRef _ => PList []
  end.

Definition view (h : heap) (v : hval) : pyval :=
  match v with
  | HTuple items => PTuple (item_view <$> items)
  | HRef l => PList (item_view <$> contents h l)
  | _ => item_view v
  end.

Definition candidate_view (h : heap) (v : hval) : pyval :=
  match v with
  | HTuple items => PTuple (view h <$> items)
  | HRef l => PList (view h <$> contents h l)
  | _ => item_view v
  end.

(** Statements over the store: the outcome and the store they leave. *)
Definition M (A : Type) : Type := heap → outcome A * heap.

Definition mret {A : Type} (a : A) : M A := λ h, (Next a, h).

Definition sbind {A B : Type} (m : M A) (k : A → M B) : M B :=
  λ h, match m h with
       | (Next a, h') => k a h'
       | (Return s, h') => (Return s, h')
       | (Raise e, h') => (Raise e, h')
       end.

Notation "'do!' x ':=' m 'in' k" := (sbind m (λ x, k))
  (at level 10, x pattern, m at level 100, k at level 200,
   format "'[v' 'do!'  x  ':='  m  'in' '/' k ']'").

(** An expression that only reads the store. *)
Definition reading {A : Type} (f : heap → outcome A) : M A := λ h, (f h, h).

(** A new list object. *)
Definition alloc (items : list hval) : M positive :=
  λ h, let l := fresh (dom h) in (Next l, <[l := items]> h).

(** [l[i] = x] and [l.append(x); l.append(y)] on the object at [l]. *)
Definition setitem (l : positive) (i : Z) (x : hval) : M unit :=
  λ h, match py_setitem (contents h l) i x with
       | Next items => (Next (), <[l := items]> h)
       | Return s => (Return s, h)
       | Raise e => (Raise e, h)
       end.

Definition append (l : positive) (xs : list hval) : M unit :=
  λ h, (Next (), <[l := contents h l ++ xs]> h).

Fixpoint m_for_each {A S : Type} (xs : list A) (body : A → S → M S) (s : S) : M S :=
  match xs with
  | [] => mret s
  | x :: xs' => do! s' := body x s in m_for_each xs' body s'
  end.

(** Lists of integers and of lists, as the reader builds them. *)
Definition as_hint (v : hval) : option Z :=
  match v with HInt z => Some z | _ => None end.

Definition as_href (v : hval) : option positive :=
  match v with HRef l => Some l | _ => None end.

Definition h_ints (h : heap) (l : positive) : outcome (list Z) :=
  match mapM as_hint (contents h l) with
  | Some zs => Next zs
  | None => Raise TypeError
  end.

Definition h_rows (h : heap) (l : positive) : outcome (list positive) :=
  match mapM as_href (contents h l) with
  | Some ls => Next ls
  | None => Raise TypeError
  end.

(** [table[i]] for a list of lists of integers at [l]. *)
Definition h_row (h : heap) (l : positive) (i : Z) : outcome (list Z) :=
  let! rows := h_rows h l in
  let! row := py_index rows i in
  h_ints h row.

Definition h_row_by (h : heap) (l : positive) (v : pyval) : outcome (list Z) :=
  let! rows := h_rows h l in
  let! row := py_index_by rows v in
  h_ints h row.

(** Events as tuples in the store. *)
Definition tuple_of_event (e : event) : hval := HTuple [HInt e.1; HInt e.2].

Definition event_of_tuple (v : hval) : option event :=
  match v with
  | HTuple [HInt t; HInt d] => Some (t, d)
  | _ => None
  end.

Definition h_events (h : heap) (l : positive) : outcome (list event) :=
  match mapM event_of_tuple (contents h l) with
  | Some evs => Next evs
  | None => Raise TypeError
  end.

(** [events.sort(key=lambda x: x[0])], in place. *)
Definition sort_in_place (l : positive) : M unit :=
  λ h, match h_events h l with
       | Next evs => (Next (), <[l := tuple_of_event <$> sort_events evs]> h)
       | Return s => (Return s, h)
       | Raise e => (Raise e, h)
       end.

(** The object [self]: its integer fields and the list objects its other
    fields refer to. *)
Record hinstance : Type := {
  self_nb_tasks : Z;
  self_nb_resources : Z;
  self_capacity : positive;
  self_task_processing_time_data : positive;
  self_weights : positive;
  self_nb_successors : positive;
  self_successors : positive;
  self_horizon : Z
}.

Section h_evaluate.
Context (self : hinstance).

(** Lines 103-107. *)
Definition h_check_format (solution : hval) (h : heap) : outcome (hval * hval) :=
  let items :=
    match solution with
    | HRef l => Some (contents h l)
    | HTuple items => Some items
    | _ => None
    end in
  match items with
  | Some [task_resources; start_times] =>
      let! n1 := py_len (view h task_resources) in
      if negb (n1 =? self_nb_tasks self) then Return Penalty
      else
        let! n2 := py_len (view h start_times) in
        if negb (n2 =? self_nb_tasks self) then Return Penalty
        else Next (task_resources, start_times)
  | _ => Return Penalty
  end.

(** Lines 113-123; [finish_times] is the list object of line 109. *)
Definition h_finish_time_step (task_resources start_times : hval)
    (finish_times : positive) (i : Z) (_ : unit) : M unit :=
  do! r := reading (λ h, py_getitem (view h task_resources) i) in
  do! st := reading (λ h, py_getitem (view h start_times) i) in
  do! neg := reading (λ _, py_lt r 0) in
  if neg then reading (λ _, Return Penalty)
  else
    do! big := reading (λ _, py_ge r (self_nb_resources self)) in
    if big then reading (λ _, Return Penalty)
    else
      do! row := reading (λ h, h_row h (self_task_processing_time_data self) i) in
      do! proc_time := reading (λ _, py_index_by row r) in
      do! wrow := reading (λ h, h_row_by h (self_weights self) r) in
      do! weight := reading (λ _, py_index wrow i) in
      if (proc_time =? 0) && (weight =? 0) then reading (λ _, Return Penalty)
      else
        do! ft := reading (λ _, py_add st proc_time) in
        setitem finish_times i (HInt ft).

(** Lines 109-123. *)
Definition h_compute_finish_times (task_resources start_times : hval)
    : M positive :=
  do! finish_times := alloc (replicate (Z.to_nat (self_nb_tasks self)) (HInt 0)) in
  do! _ := m_for_each (range (self_nb_tasks self))
             (h_finish_time_step task_resources start_times finish_times) () in
  mret finish_times.

(** Lines 126-129: nothing is written. *)
Definition h_precedence_step (start_times : hval) (finish_times : positive)
    (h : heap) (i succ : Z) (_ : unit) : outcome unit :=
  let! fts := h_ints h finish_times in
  let! ft := py_index fts i in
  let! st := py_getitem (view h start_times) succ in
  let! late := py_gt_val ft st in
  if late then Return Penalty else Next ().

Definition h_check_precedence (start_times : hval) (finish_times : positive)
    (h : heap) : outcome unit :=
  for_each (range (self_nb_tasks self))
    (λ i _,
       let! succs := h_row h (self_successors self) i in
       for_each succs (h_precedence_step start_times finish_times h i) ())
    ().

(** Lines 136-141; [events] is the list object of line 133. *)
Definition h_collect_step (task_resources start_times : hval)
    (finish_times events : positive) (r i : Z) (_ : unit) : M unit :=
  do! tr := reading (λ h, py_getitem (view h task_resources) i) in
  if py_eq tr r then
    do! st := reading (λ h, py_getitem (view h start_times) i) in
    do! ft := reading (λ h, let! fts := h_ints h finish_times in py_index fts i) in
    do! wrow := reading (λ h, h_row h (self_weights self) r) in
    do! w := reading (λ _, py_index wrow i) in
    match as_int st with
    | Some t => append events [tuple_of_event (t, w); tuple_of_event (ft, - w)]
    | None => reading (λ _, Raise TypeError)
    end
  else mret ().

(** Lines 145-147. *)
Definition h_sweep_step (h : heap) (r : Z) (e : event) (current_usage : Z)
    : outcome Z :=
  let current_usage := current_usage + e.2 in
  let! caps := h_ints h (self_capacity self) in
  let! cap := py_index caps r in
  if cap <? current_usage then Return Penalty else Next current_usage.

(** Lines 132-147. *)
Definition h_check_capacity (task_resources start_times : hval)
    (finish_times : positive) : M unit :=
  m_for_each (range (self_nb_resources self))
    (λ r _,
       do! events := alloc [] in
       do! _ := m_for_each (range (self_nb_tasks self))
                  (h_collect_step task_resources start_times finish_times events r)
                  () in
       do! _ := sort_in_place events in
       do! evs := reading (λ h, h_events h events) in
       do! _ := reading (λ h, for_each evs (h_sweep_step h r) 0) in
       mret ())
    ().

Definition h_evaluate_solution (solution : hval) : M Empty_set :=
  do! (task_resources, start_times) := reading (h_check_format solution) in
  do! finish_times := h_compute_finish_times task_resources start_times in
  do! _ := reading (h_check_precedence start_times finish_times) in
  do! _ := h_check_capacity task_resources start_times finish_times in
  do! fts := reading (λ h, h_ints h finish_times) in
  do! makespan := reading (λ _, py_max fts) in
  reading (λ _, Return (Makespan makespan)).
End h_evaluate.

(** The store holds the tables of [inst] behind the fields of [self]. *)
Record heap_repr (h : heap) (self : hinstance) (inst : instance) : Prop := {
  repr_nb_tasks : self_nb_tasks self = nb_tasks inst;
  repr_nb_resources : self_nb_resources self = nb_resources inst;
  repr_capacity : h !! self_capacity self = Some (HInt <$> capacity inst);
  repr_proc : ∃ rows,
    h !! self_task_processing_time_data self = Some (HRef <$> rows)
    ∧ Forall2 (λ l row, h !! l = Some (HInt <$> row)) rows
        (task_processing_time_data inst);
  repr_weights : ∃ rows,
    h !! self_weights self = Some (HRef <$> rows)
    ∧ Forall2 (λ l row, h !! l = Some (HInt <$> row)) rows (weights inst);
  repr_successors : ∃ rows,
    h !! self_successors self = Some (HRef <$> rows)
    ∧ Forall2 (λ l row, h !! l = Some (HInt <$> row)) rows (successors inst)
}.

(** A reference that points to an object of the store. *)
Definition readable (h : heap) (v : hval) : Prop :=
  match v with
  | HRef l => is_Some (h !! l)
  | _ => True
  end.

(** The candidate and its components are objects of the store. *)
Definition closed_candidate (h : heap) (solution : hval) : Prop :=
  readable h solution
  ∧ match solution with
    | HRef l => Forall (readable h) (contents h l)
    | HTuple items => Forall (readable h) items
    | _ => True
    end.

(** Scenario 4 in a store: the instance's tables at 1-7, the candidate's
    two lists at 8 and 9. *)
Definition sample_heap : heap :=
  list_to_map
    [ (1%positive, [HInt 4]);
      (2%positive, [HRef 3; HRef 4]);
      (3%positive, [HInt 3]); (4%positive, [HInt 2]);
      (5%positive, [HRef 6]);
      (6%positive, [HInt 2; HInt 2]);
      (7%positive, [HRef 10; HRef 10]);
      (8%positive, [HInt 0; HInt 0]); (9%positive, [HInt 0; HInt 3]);
      (10%positive, []); (11%positive, [HInt 0; HInt 0]) ].

Definition sample_self : hinstance :=
  {| self_nb_tasks := 2; self_nb_resources := 1;
     self_capacity := 1; self_task_processing_time_data := 2;
     self_weights := 5; self_nb_successors := 11; self_successors := 7;
     self_horizon := 5 |}.

(** A statement over the store simulates a functional one: the same
    outcome, states related by [R] when falling through, the frame
    condition [J] on the store in any case. *)
Definition sim {SP SH : Type} (R : SP → SH → heap → Prop) (J : heap → Prop)
    (po : outcome SP) (mo : outcome SH * heap) : Prop :=
  match po, mo with
  | Next sp, (Next sh, h') => R sp sh h'
  | Return s, (Return s', h') => s = s' ∧ J h'
  | Raise e, (Raise e', h') => e = e' ∧ J h'
  | _, _ => False
  end.

(** ** random_solution *)

(** The random source: the raw draw behind the [k]-th call of the
    [random] module.  [random.choice] and [random.randint] reduce it
    below the size of their range, so every value of the range is the
    result for some source. *)
Definition rng : Type := nat → nat.

Definition randbelow (src : rng) (k : nat) (n : Z) : Z := Z.of_nat (src k) `mod` n.

(** [random.choice(l)]: [IndexError] on the empty list. *)
Definition random_choice {A : Type} (src : rng) (k : nat) (l : list A) : outcome A :=
  match l with
  | [] => Raise IndexError
  | _ => py_index l (randbelow src k (Z.of_nat (length l)))
  end.

(** [random.randint(a, b)]: [ValueError] on an empty range. *)
Definition random_randint (src : rng) (k : nat) (a b : Z) : outcome Z :=
  if b <? a then Raise ValueError else Next (a + randbelow src k (b - a + 1)).

Section random_solution.
Context (self : instance).

(** Lines 168-169: one step of the comprehension; [and] reads the weight
    only when the processing time is zero. *)
Definition compatible_step (i r : Z) (compatible_resources : list Z)
    : outcome (list Z) :=
  let! row := py_index (task_processing_time_data self) i in
  let! proc_time := py_index row r in
  if proc_time =? 0 then
    let! wrow := py_index (weights self) r in
    let! w := py_index wrow i in
    if w =? 0 then Next compatible_resources
    else Next (compatible_resources ++ [r])
  else Next (compatible_resources ++ [r]).

(** Lines 165-175: the body of the loop; the state is the number of
    draws made and the two lists. *)
Definition random_solution_step (src : rng) (i : Z)
    (state : nat * list Z * list Z) : outcome (nat * list Z * list Z) :=
  let '(k, task_resources, start_times) := state in
  let! compatible_resources :=
    for_each (range (nb_resources self)) (compatible_step i) [] in
  let! (k, r) :=
    match compatible_resources with
    | [] => Next (k, 0)
    | _ => let! r := random_choice src k compatible_resources in Next (S k, r)
    end in
  let! st := random_randint src k 0 (horizon self) in
  Next (S k, task_resources ++ [r], start_times ++ [st]).

(** Lines 153-176; [Next] carries the tuple the function returns. *)
Definition random_solution (src : rng) : outcome pyval :=
  let! (_, task_resources, start_times) :=
    for_each (range (nb_tasks self)) (random_solution_step src) (0%nat, [], []) in
  Next (candidate task_resources start_times).
End random_solution.


(** One task of duration -2, as the reader builds it from "1 1", "4",
    "-2 1", "0": the horizon is negative. *)
Definition negative_horizon_instance : instance :=
  {| nb_tasks := 1; nb_resources := 1; capacity := [4];
     task_processing_time_data := [[-2]]; weights := [[1]];
     nb_successors := [0]; successors := [[]]; horizon := -2 |}.

(** ** Notions for further properties of the evaluator *)

(** Resource [r] can process task [i]. *)
Definition compatible (inst : instance) (i : nat) (r : Z) : bool :=
  negb ((proc inst i r =? 0) && (weight inst r i =? 0)).

(** The same instance with other successor lists. *)
Definition with_successors (inst : instance) (succs : list (list Z)) : instance :=
  {| nb_tasks := nb_tasks inst; nb_resources := nb_resources inst;
     capacity := capacity inst;
     task_processing_time_data := task_processing_time_data inst;
     weights := weights inst; nb_successors := nb_successors inst;
     successors := succs; horizon := horizon inst |}.

(** The same instance with other capacities. *)
Definition with_capacity (inst : instance) (caps : list Z) : instance :=
  {| nb_tasks := nb_tasks inst; nb_resources := nb_resources inst;
     capacity := caps;
     task_processing_time_data := task_processing_time_data inst;
     weights := weights inst; nb_successors := nb_successors inst;
     successors := successors inst; horizon := horizon inst |}.

(** The running usage never drops below zero, before and after every
    event. *)
Fixpoint floor_ok (usage : Z) (events : list event) : bool :=
  (0 <=? usage)
  && match events with
     | [] => true
     | e :: events' => floor_ok (usage + e.2) events'
     end.

(** The summed absolute weight of the tasks assigned to [r]. *)
Definition assigned_weight (inst : instance) (res : list Z) (r : Z) : Z :=
  foldr Z.add 0
    ((λ i, if default 0 (res !! i) =? r then Z.abs (weight inst r i) else 0)
       <$> seq 0 (length res)).

(** An outcome with its makespan moved by [c]. *)
Definition shift_outcome (c : Z) (o : outcome Empty_set) : outcome Empty_set :=
  match o with
  | Return (Makespan m) => Return (Makespan (m + c))
  | _ => o
  end.

(** The non-blank lines of a file, stripped (line 50). *)
Definition stripped_lines (raw : list string) : list (list ascii) :=
  strip <$> filter (λ l, strip l ≠ []) (String.list_ascii_of_string <$> raw).

(** ** Writing an instance file *)

(** The documented format (lines 28-34), as a printer: decimal integers
    separated by single spaces, one line per item. *)
Definition digit_char (d : Z) : ascii := ascii_of_nat (48 + Z.to_nat d).

Fixpoint render_digits (fuel : nat) (n : Z) (acc : list ascii) : list ascii :=
  match fuel with
  | O => acc
  | S fuel' =>
      let acc' := digit_char (n `mod` 10) :: acc in
      if n `div` 10 =? 0 then acc' else render_digits fuel' (n `div` 10) acc'
  end.

Definition render_int (z : Z) : list ascii :=
  if z <? 0 then "-"%char :: render_digits (S (Z.to_nat (- z))) (- z) []
  else render_digits (S (Z.to_nat z)) z [].

Fixpoint join_ws (toks : list (list ascii)) : list ascii :=
  match toks with
  | [] => []
  | [tok] => tok
  | tok :: toks' => tok ++ " "%char :: join_ws toks'
  end.

Definition render_line (zs : list Z) : string :=
  String.string_of_list_ascii (join_ws (render_int <$> zs)).

(** The line of task [i]: processing time and weight for each resource. *)
Definition task_line (inst : instance) (i : nat) : list Z :=
  seq 0 (Z.to_nat (nb_resources inst))
  ≫= (λ r, [proc inst i (Z.of_nat r); weight inst (Z.of_nat r) i]).

Definition render_instance (inst : instance) : list string :=
  [render_line [nb_tasks inst; nb_resources inst]; render_line (capacity inst)]
  ++ ((λ i, render_line (task_line inst i)) <$> seq 0 (Z.to_nat (nb_tasks inst)))
  ++ zip_with (λ k succs, render_line (k :: succs))
       (nb_successors inst) (successors inst).

(** The largest entry of a non-empty row, and the horizon of line 85. *)
Definition row_max (row : list Z) : Z :=
  match row with
  | [] => 0
  | x :: row' => foldl Z.max x row'
  end.

Definition horizon_of (data : list (list Z)) : Z :=
  foldr Z.add 0 (row_max <$> data).




(** Task [j] is listed among the successors of task [i]. *)
Definition precedes (inst : instance) (i j : nat) : Prop :=
  Z.of_nat j ∈ default [] (successors inst !! i).

(** Precedence edges from [i] through the tasks of [path] to [j]. *)
Fixpoint chain (inst : instance) (i : nat) (path : list nat) (j : nat) : Prop :=
  match path with
  | [] => precedes inst i j
  | k :: path' => precedes inst i k ∧ chain inst k path' j
  end.

(** The processing time of all tasks one after the other, each on the
    resource [res] gives it. *)
Definition serial_time (inst : instance) (res : list Z) : Z :=
  foldr Z.add 0
    ((λ i, proc inst i (default 0 (res !! i))) <$> seq 0 (length res)).

(** Whatever [o1] falls through with, [o2] falls through with too. *)
Definition carries_over {A : Type} (o1 o2 : outcome A) : Prop :=
  ∀ a, o1 = Next a → o2 = Next a.

(** ** The scenarios of the specification, evaluated *)

Example scenario_1 :
  evaluate_solution scenario_1_instance (candidate [0] [0])
  = Return (Makespan 3).
Proof. reflexivity. Qed.

Example scenario_2 :
  evaluate_solution scenario_2_instance (candidate [0; 0] [0; 2])
  = Return Penalty.
Proof. reflexivity. Qed.

Example scenario_3 :
  evaluate_solution scenario_3_instance (candidate [0; 0] [0; 1])
  = Return Penalty.
Proof. reflexivity. Qed.

Example scenario_4 :
  evaluate_solution scenario_4_instance (candidate [0; 0] [0; 3])
  = Return (Makespan 5).
Proof. reflexivity. Qed.

(** ** Basic facts about the Python operations *)

Lemma py_index_nat {A} (l : list A) (k : nat) (x : A) :
  l !! k = Some x → py_index l (Z.of_nat k) = Next x.
Proof.
  intros Hk. unfold py_index.
  pose proof (lookup_lt_Some _ _ _ Hk) as Hlt.
  destruct (Z.of_nat k <? 0) eqn:E1; [lia|].
  destruct ((Z.of_nat k <? 0) || (Z.of_nat (length l) <=? Z.of_nat k)) eqn:E2.
  - apply orb_true_iff in E2 as [?|?]; lia.
  - by rewrite Nat2Z.id, Hk.
Qed.

Lemma py_index_Z {A} (l : list A) (z : Z) (x : A) :
  0 ≤ z → l !! Z.to_nat z = Some x → py_index l z = Next x.
Proof.
  intros Hz Hx. rewrite <- (Z2Nat.id z) by done. by apply py_index_nat.
Qed.

Lemma py_setitem_nat {A} (l : list A) (k : nat) (x : A) :
  (k < length l)%nat → py_setitem l (Z.of_nat k) x = Next (<[k := x]> l).
Proof.
  intros Hlt. unfold py_setitem.
  destruct (Z.of_nat k <? 0) eqn:E1; [lia|].
  destruct ((Z.of_nat k <? 0) || (Z.of_nat (length l) <=? Z.of_nat k)) eqn:E2.
  - apply orb_true_iff in E2 as [?|?]; lia.
  - by rewrite Nat2Z.id.
Qed.

Lemma as_int_seq_items (v : pyval) (zs : list Z) :
  as_int_seq v = Some zs →
  ∃ l, (v = PList l ∨ v = PTuple l) ∧ Forall2 (λ x z, as_int x = Some z) l zs.
Proof.
  destruct v; simpl; try done; intros H%mapM_Some; eauto.
Qed.

Lemma as_int_seq_len (v : pyval) (zs : list Z) :
  as_int_seq v = Some zs → py_len v = Next (Z.of_nat (length zs)).
Proof.
  intros (l & [-> | ->] & Hl)%as_int_seq_items; simpl;
    by rewrite (Forall2_length _ _ _ Hl).
Qed.

Lemma as_int_seq_getitem (v : pyval) (zs : list Z) (k : nat) (z : Z) :
  as_int_seq v = Some zs → zs !! k = Some z →
  ∃ x, py_getitem v (Z.of_nat k) = Next x ∧ as_int x = Some z.
Proof.
  intros (l & Hv & Hl)%as_int_seq_items Hz.
  destruct (Forall2_lookup_r _ _ _ _ _ Hl Hz) as (x & Hx & Hxz).
  exists x. split; [|done].
  destruct Hv as [-> | ->]; simpl; by apply py_index_nat.
Qed.

Lemma for_each_app {A S} (xs ys : list A) (body : A → S → outcome S) (s : S) :
  for_each (xs ++ ys) body s = let! s' := for_each xs body s in for_each ys body s'.
Proof.
  revert s. induction xs as [|x xs IH]; intros s; simpl; [done|].
  destruct (body x s); simpl; auto.
Qed.

(** A loop whose body either updates the state or returns the penalty,
    as decided by a test on the loop variable alone. *)
Lemma for_each_guarded {A S} (I : S → Prop) (chk : A → bool) (upd : A → S → S)
    (xs : list A) (body : A → S → outcome S) (s : S) :
  (∀ x s, x ∈ xs → I s →
     body x s = (if chk x then Next (upd x s) else Return Penalty)
     ∧ (chk x = true → I (upd x s))) →
  I s →
  for_each xs body s
  = if forallb chk xs then Next (foldl (flip upd) s xs) else Return Penalty.
Proof.
  revert s. induction xs as [|x xs IH]; intros s Hbody Hs; simpl; [done|].
  destruct (Hbody x s) as [-> Hnext]; [left | done |].
  destruct (chk x); simpl; [|done].
  apply IH; [|auto]. intros y s' Hy. apply Hbody. by right.
Qed.

Lemma forallb_fmap {A B} (f : B → bool) (g : A → B) (l : list A) :
  forallb f (g <$> l) = forallb (f ∘ g) l.
Proof. induction l as [|x l IH]; csimpl; [done|]. by rewrite IH. Qed.

Lemma foldl_fmap_list {A B S} (f : S → B → S) (g : A → B) (s : S) (l : list A) :
  foldl f s (g <$> l) = foldl (λ s x, f s (g x)) s l.
Proof. revert s. induction l as [|x l IH]; intros s; csimpl; [done|]. by rewrite IH. Qed.

Lemma forallb_ext_in {A} (f g : A → bool) (l : list A) :
  (∀ x, x ∈ l → f x = g x) → forallb f l = forallb g l.
Proof.
  induction l as [|x l IH]; intros H; simpl; [done|].
  rewrite (H x) by left. rewrite IH; [done|]. intros y Hy. apply H. by right.
Qed.

Lemma elem_of_range (n z : Z) :
  z ∈ range n ↔ 0 ≤ z < n.
Proof.
  unfold range. rewrite list_elem_of_fmap. split.
  - intros (k & -> & Hk). apply elem_of_seq in Hk. lia.
  - intros Hz. exists (Z.to_nat z). split; [lia|]. apply elem_of_seq. lia.
Qed.

(** Filling a list slot by slot, as the first loop does. *)
Lemma fill_slots_lookup (f : nat → Z) (m : nat) (l : list Z) (i : nat) :
  (m ≤ length l)%nat →
  foldl (λ acc k, <[k := f k]> acc) l (seq 0 m) !! i
  = if decide (i < m)%nat then Some (f i) else l !! i.
Proof.
  induction m as [|m IH]; intros Hm.
  - destruct (decide (i < 0)%nat); [lia|done].
  - rewrite seq_S, foldl_app. simpl.
    destruct (decide (i = m)) as [->|Hne].
    + clear IH. rewrite list_lookup_insert_eq.
      * case_decide; [done|lia].
      * assert (Hlen : ∀ (n : nat) (acc : list Z),
          length (foldl (λ acc k, <[k := f k]> acc) acc (seq 0 n)) = length acc).
        { intros n. induction n as [|n IHn]; intros acc; [done|].
          rewrite seq_S, foldl_app. simpl. by rewrite length_insert. }
        rewrite Hlen. lia.
    + rewrite list_lookup_insert_ne by done. rewrite IH by lia.
      repeat case_decide; try lia; done.
Qed.

Lemma fill_slots (f : nat → Z) (n : nat) :
  foldl (λ acc k, <[k := f k]> acc) (replicate n 0) (seq 0 n) = f <$> seq 0 n.
Proof.
  apply list_eq. intros i.
  rewrite fill_slots_lookup by (rewrite length_replicate; lia).
  rewrite list_lookup_fmap. case_decide.
  - by rewrite lookup_seq_lt.
  - rewrite lookup_seq_ge by lia. simpl. apply lookup_replicate_None. lia.
Qed.

(** ** The first loop: resource validity and finish times *)

Lemma proc_lookup (inst : instance) (k : nat) (r : Z) :
  wf_instance inst →
  Z.of_nat k < nb_tasks inst → 0 ≤ r < nb_resources inst →
  ∃ row, task_processing_time_data inst !! k = Some row
         ∧ row !! Z.to_nat r = Some (proc inst k r).
Proof.
  intros [] Hk Hr.
  destruct (lookup_lt_is_Some_2 (task_processing_time_data inst) k) as [row Hrow];
    [lia|].
  pose proof (Forall_lookup_1 _ _ _ _ wf_proc_cols0 Hrow) as Hcols. simpl in Hcols.
  destruct (lookup_lt_is_Some_2 row (Z.to_nat r)) as [p Hp]; [lia|].
  exists row. split; [done|]. unfold proc. rewrite Hrow. simpl. by rewrite Hp.
Qed.

Lemma weight_lookup (inst : instance) (k : nat) (r : Z) :
  wf_instance inst →
  Z.of_nat k < nb_tasks inst → 0 ≤ r < nb_resources inst →
  ∃ row, weights inst !! Z.to_nat r = Some row
         ∧ row !! k = Some (weight inst r k).
Proof.
  intros [] Hk Hr.
  destruct (lookup_lt_is_Some_2 (weights inst) (Z.to_nat r)) as [row Hrow];
    [lia|].
  pose proof (Forall_lookup_1 _ _ _ _ wf_weight_cols0 Hrow) as Hcols. simpl in Hcols.
  destruct (lookup_lt_is_Some_2 row k) as [p Hp]; [lia|].
  exists row. split; [done|]. unfold weight. rewrite Hrow. simpl. by rewrite Hp.
Qed.

Lemma sweep_spec (inst : instance) (r : nat) (cap : Z) (events : list event) (usage : Z) :
  capacity inst !! r = Some cap →
  for_each events (sweep_step inst (Z.of_nat r)) usage
  = if sweep_ok cap usage events
    then Next (foldl (λ u e, u + e.2) usage events)
    else Return Penalty.
Proof.
  intros Hcap. revert usage.
  induction events as [|e events IH]; intros usage; simpl; [done|].
  unfold sweep_step at 1. rewrite (py_index_nat _ _ _ Hcap). simpl.
  destruct (cap <? usage + e.2) eqn:E.
  - by replace (usage + e.2 <=? cap) with false by lia.
  - replace (usage + e.2 <=? cap) with true by lia. simpl. apply IH.
Qed.

Section checks.
Context (inst : instance) (Hwf : wf_instance inst).
Context (task_resources start_times : pyval) (res st : list Z).
Context (Hres : as_int_seq task_resources = Some res).
Context (Hst : as_int_seq start_times = Some st).
Context (Hlen_res : Z.of_nat (length res) = nb_tasks inst).
Context (Hlen_st : Z.of_nat (length st) = nb_tasks inst).

Lemma finish_time_step_spec (k : nat) (fts : list Z) :
  (k < length res)%nat → length fts = length res →
  finish_time_step inst task_resources start_times (Z.of_nat k) fts
  = if resource_ok inst k (default 0 (res !! k))
    then Next (<[k := finish_time inst res st k]> fts)
    else Return Penalty.
Proof using All.
  intros Hk Hfts.
  destruct (lookup_lt_is_Some_2 res k) as [r Hr]; [done|].
  destruct (lookup_lt_is_Some_2 st k) as [s Hs]; [lia|].
  destruct (as_int_seq_getitem _ _ _ _ Hres Hr) as (xr & Hxr & Hxr').
  destruct (as_int_seq_getitem _ _ _ _ Hst Hs) as (xs & Hxs & Hxs').
  unfold finish_time_step, resource_ok, finish_time.
  rewrite Hxr, Hxs, Hr, Hs. simpl.
  unfold py_lt, py_ge. rewrite Hxr'. simpl.
  destruct (r <? 0) eqn:Eneg.
  { replace (0 <=? r) with false by lia. done. }
  replace (0 <=? r) with true by lia. simpl.
  destruct (nb_resources inst <=? r) eqn:Ebig.
  { replace (r <? nb_resources inst) with false by lia. done. }
  replace (r <? nb_resources inst) with true by lia. simpl.
  destruct (proc_lookup inst k r) as (prow & Hprow & Hp); [done|lia|lia|].
  destruct (weight_lookup inst k r) as (wrow & Hwrow & Hw); [done|lia|lia|].
  rewrite (py_index_nat _ _ _ Hprow). simpl.
  unfold py_index_by. rewrite Hxr'.
  assert (0 ≤ r) as Hr0 by lia.
  rewrite (py_index_Z _ _ _ Hr0 Hp). simpl.
  rewrite (py_index_Z _ _ _ Hr0 Hwrow). simpl.
  rewrite (py_index_nat _ _ _ Hw). simpl.
  destruct ((proc inst k r =? 0) && (weight inst r k =? 0)); simpl; [done|].
  unfold py_add. rewrite Hxs'. simpl.
  apply py_setitem_nat. lia.
Qed.

Lemma compute_finish_times_spec :
  compute_finish_times inst task_resources start_times
  = if resources_ok inst res then Next (finish_times_of inst res st)
    else Return Penalty.
Proof using All.
  unfold compute_finish_times.
  rewrite (for_each_guarded (λ fts, length fts = length res)
    (λ z, resource_ok inst (Z.to_nat z) (default 0 (res !! Z.to_nat z)))
    (λ z fts, <[Z.to_nat z := finish_time inst res st (Z.to_nat z)]> fts)).
  - unfold range. rewrite forallb_fmap, foldl_fmap_list.
    unfold resources_ok, finish_times_of.
    replace (Z.to_nat (nb_tasks inst)) with (length res) by lia.
    erewrite forallb_ext_in; [|intros x _; simpl; by rewrite Nat2Z.id].
    destruct (forallb _ _); [|done]. f_equal.
    rewrite <- fill_slots. generalize (replicate (length res) 0).
    generalize (seq 0 (length res)). intros ks. induction ks as [|k ks IH];
      intros l; simpl; [done|]. rewrite Nat2Z.id. apply IH.
  - intros z fts Hz%elem_of_range Hfts.
    rewrite <- (Z2Nat.id z) at 1 by lia.
    rewrite finish_time_step_spec by lia. split; [done|].
    intros _. by rewrite length_insert.
  - rewrite length_replicate. lia.
Qed.

(** *** The precedence loop *)

Lemma finish_times_of_lookup (k : nat) :
  (k < length res)%nat →
  finish_times_of inst res st !! k = Some (finish_time inst res st k).
Proof using Type.
  intros Hk. unfold finish_times_of.
  by rewrite list_lookup_fmap, lookup_seq_lt.
Qed.

Lemma precedence_step_spec (k : nat) (j : Z) :
  (k < length res)%nat → 0 ≤ j < nb_tasks inst →
  precedence_step start_times (finish_times_of inst res st) (Z.of_nat k) j ()
  = if pair_ok inst res st k j then Next () else Return Penalty.
Proof using Hst Hlen_st Hlen_res.
  intros Hk Hj. unfold precedence_step, pair_ok.
  rewrite (py_index_nat _ _ _ (finish_times_of_lookup k Hk)). simpl.
  destruct (lookup_lt_is_Some_2 st (Z.to_nat j)) as [s Hs]; [lia|].
  destruct (as_int_seq_getitem _ _ _ _ Hst Hs) as (x & Hx & Hx').
  rewrite Z2Nat.id in Hx by lia. rewrite Hx, Hs. simpl.
  unfold py_gt_val. rewrite Hx'. simpl.
  destruct (s <? finish_time inst res st k) eqn:E.
  - by replace (finish_time inst res st k <=? s) with false by lia.
  - by replace (finish_time inst res st k <=? s) with true by lia.
Qed.

Lemma check_precedence_spec :
  check_precedence inst start_times (finish_times_of inst res st)
  = if precedence_ok inst res st then Next () else Return Penalty.
Proof using Hwf Hst Hlen_st Hlen_res.
  unfold check_precedence.
  rewrite (for_each_guarded (λ _, True)
    (λ z, forallb (pair_ok inst res st (Z.to_nat z))
            (default [] (successors inst !! Z.to_nat z)))
    (λ _ u, u)).
  - unfold range, precedence_ok. rewrite forallb_fmap.
    replace (Z.to_nat (nb_tasks inst)) with (length res) by lia.
    erewrite forallb_ext_in; [|intros x _; simpl; by rewrite Nat2Z.id].
    destruct (forallb _ _); [|done]. by destruct (foldl _ _ _).
  - intros z [] Hz%elem_of_range _. split; [|done].
    destruct (lookup_lt_is_Some_2 (successors inst) (Z.to_nat z)) as [succs Hsuccs].
    { destruct Hwf. lia. }
    rewrite (py_index_Z _ _ _ (proj1 Hz) Hsuccs), Hsuccs. simpl.
    rewrite (for_each_guarded (λ _, True) (pair_ok inst res st (Z.to_nat z))
      (λ _ u, u)).
    + destruct (forallb _ _); [|done]. by destruct (foldl _ _ _).
    + intros j [] Hj _. split; [|done].
      rewrite <- (Z2Nat.id z) at 1 by lia.
      apply precedence_step_spec; [lia|].
      destruct Hwf.
      pose proof (Forall_lookup_1 _ _ _ _ wf_succ_range0 Hsuccs) as Hrange.
      by apply (proj1 (Forall_forall _ _) Hrange).
    + done.
  - done.
Qed.

(** *** The capacity loop *)

Lemma collect_step_spec (r : Z) (k : nat) (events : list event) :
  (k < length res)%nat → 0 ≤ r < nb_resources inst →
  collect_step inst task_resources start_times (finish_times_of inst res st)
    r (Z.of_nat k) events
  = Next (events ++ task_events inst res st r k).
Proof using All.
  intros Hk Hrange.
  destruct (lookup_lt_is_Some_2 res k) as [rk Hrk]; [done|].
  destruct (lookup_lt_is_Some_2 st k) as [s Hs]; [lia|].
  destruct (as_int_seq_getitem _ _ _ _ Hres Hrk) as (xr & Hxr & Hxr').
  destruct (as_int_seq_getitem _ _ _ _ Hst Hs) as (xs & Hxs & Hxs').
  unfold collect_step, task_events. rewrite Hxr, Hrk, Hs. simpl.
  unfold py_eq. rewrite Hxr'.
  destruct (rk =? r); [|by rewrite app_nil_r].
  rewrite Hxs. simpl.
  rewrite (py_index_nat _ _ _ (finish_times_of_lookup k Hk)). simpl.
  destruct (weight_lookup inst k r) as (wrow & Hwrow & Hw); [done|lia|lia|].
  rewrite (py_index_Z _ _ _ (proj1 Hrange) Hwrow). simpl.
  rewrite (py_index_nat _ _ _ Hw). simpl.
  by rewrite Hxs'.
Qed.

Lemma collect_events_spec (r : Z) :
  0 ≤ r < nb_resources inst →
  for_each (range (nb_tasks inst))
    (collect_step inst task_resources start_times
       (finish_times_of inst res st) r) []
  = Next (events_of inst res st r).
Proof using All.
  intros Hrange.
  rewrite (for_each_guarded (λ _, True) (λ _, true)
    (λ z events, events ++ task_events inst res st r (Z.to_nat z))).
  - replace (forallb _ _) with true.
    2:{ symmetry. apply forallb_forall. done. }
    f_equal. unfold range, events_of.
    replace (Z.to_nat (nb_tasks inst)) with (length res) by lia.
    rewrite foldl_fmap_list.
    change (seq 0 (length res) ≫= task_events inst res st r)
      with ([] ++ (seq 0 (length res) ≫= task_events inst res st r)).
    generalize (@nil event). generalize (seq 0 (length res)).
    intros ks. induction ks as [|k ks IH]; intros acc; csimpl.
    + by rewrite app_nil_r.
    + rewrite IH, Nat2Z.id. by rewrite app_assoc.
  - intros z events Hz%elem_of_range _. split; [|done].
    rewrite <- (Z2Nat.id z) at 1 by lia.
    apply collect_step_spec; [lia|done].
  - done.
Qed.

Lemma check_capacity_spec :
  check_capacity inst task_resources start_times (finish_times_of inst res st)
  = if capacity_ok inst res st then Next () else Return Penalty.
Proof using All.
  unfold check_capacity.
  rewrite (for_each_guarded (λ _, True)
    (λ z, resource_sweep_ok inst res st (Z.to_nat z)) (λ _ u, u)).
  - unfold range, capacity_ok. rewrite forallb_fmap.
    erewrite forallb_ext_in; [|intros x _; simpl; by rewrite Nat2Z.id].
    destruct (forallb _ _); [|done]. by destruct (foldl _ _ _).
  - intros z [] Hz%elem_of_range _. split; [|done].
    rewrite collect_events_spec by done. simpl.
    destruct (lookup_lt_is_Some_2 (capacity inst) (Z.to_nat z)) as [cap Hcap].
    { destruct Hwf. lia. }
    rewrite <- (Z2Nat.id z) at 1 2 by lia.
    rewrite (sweep_spec _ _ _ _ _ Hcap).
    unfold resource_sweep_ok. rewrite Hcap. simpl.
    rewrite Z2Nat.id by lia. by destruct (sweep_ok _ _ _).
  - done.
Qed.

(** *** The whole evaluator on an integer schedule of the right shape *)

Lemma evaluate_solution_typed (solution : pyval) :
  solution = PList [task_resources; start_times]
  ∨ solution = PTuple [task_resources; start_times] →
  evaluate_solution inst solution
  = if resources_ok inst res && precedence_ok inst res st
       && capacity_ok inst res st
    then let! makespan := py_max (finish_times_of inst res st) in
         Return (Makespan makespan)
    else Return Penalty.
Proof using All.
  intros Hsol. unfold evaluate_solution.
  assert (check_format inst solution = Next (task_resources, start_times)) as ->.
  { destruct Hsol as [-> | ->]; simpl;
      rewrite (as_int_seq_len _ _ Hres), (as_int_seq_len _ _ Hst); simpl;
      rewrite Hlen_res, Hlen_st, Z.eqb_refl; done. }
  simpl. rewrite compute_finish_times_spec.
  destruct (resources_ok inst res); simpl; [|done].
  rewrite check_precedence_spec.
  destruct (precedence_ok inst res st); simpl; [|done].
  rewrite check_capacity_spec.
  by destruct (capacity_ok inst res st).
Qed.
End checks.

(** ** The stable sort *)

Lemma insert_event_perm (e : event) (l : list event) :
  insert_event e l ≡ₚ e :: l.
Proof.
  induction l as [|e' l IH]; simpl; [done|].
  destruct (e.1 <=? e'.1); [done|]. rewrite IH. apply Permutation_swap.
Qed.

Lemma sort_events_perm (l : list event) : sort_events l ≡ₚ l.
Proof.
  induction l as [|e l IH]; simpl; [done|].
  by rewrite insert_event_perm, IH.
Qed.

Lemma insert_event_sorted (e : event) (l : list event) :
  StronglySorted by_time l → StronglySorted by_time (insert_event e l).
Proof.
  induction 1 as [|e' l Hl IH Hall]; simpl.
  - repeat constructor.
  - destruct (e.1 <=? e'.1) eqn:E.
    + constructor; [by constructor|]. constructor; [unfold by_time; lia|].
      eapply Forall_impl; [done|]. unfold by_time. intros; simpl in *. lia.
    + constructor; [done|]. rewrite insert_event_perm.
      constructor; [unfold by_time; lia | done].
Qed.

Lemma sort_events_sorted (l : list event) : StronglySorted by_time (sort_events l).
Proof.
  induction l as [|e l IH]; simpl; [constructor|]. by apply insert_event_sorted.
Qed.

(** Stability: events of one timestamp keep the order of appending. *)
Lemma insert_event_stable (t : Z) (e : event) (l : list event) :
  filter (λ x : event, x.1 = t) (insert_event e l)
  = filter (λ x : event, x.1 = t) (e :: l).
Proof.
  induction l as [|e' l IH]; cbn [insert_event]; [done|].
  destruct (e.1 <=? e'.1) eqn:E; [done|].
  rewrite (filter_cons _ e'), IH, !filter_cons.
  repeat case_decide; try done. lia.
Qed.

Lemma sort_events_stable (t : Z) (l : list event) :
  filter (λ x : event, x.1 = t) (sort_events l) = filter (λ x : event, x.1 = t) l.
Proof.
  induction l as [|e l IH]; cbn [sort_events foldr]; [done|].
  fold (sort_events l). by rewrite insert_event_stable, !filter_cons, IH.
Qed.

Lemma filter_all {A} (P : A → Prop) `{!∀ x, Decision (P x)} (l : list A) :
  Forall P l → filter P l = l.
Proof.
  induction 1 as [|x l Hx Hl IH]; [done|]. by rewrite filter_cons_True, IH.
Qed.

Lemma filter_none {A} (P : A → Prop) `{!∀ x, Decision (P x)} (l : list A) :
  Forall (λ x, ¬ P x) l → filter P l = [].
Proof.
  induction 1 as [|x l Hx Hl IH]; [done|]. by rewrite filter_cons_False.
Qed.

(** A sorted list splits at any instant into what came up to it and what
    comes later. *)
Lemma sorted_split (t : Z) (l : list event) :
  StronglySorted by_time l →
  l = filter (λ e : event, e.1 ≤ t) l ++ filter (λ e : event, t < e.1) l.
Proof.
  induction 1 as [|e l Hl IH Hall]; [done|].
  destruct (decide (e.1 ≤ t)) as [Hle|Hgt].
  - rewrite filter_cons_True, filter_cons_False by lia. simpl. by rewrite <- IH.
  - assert (Forall (λ x : event, t < x.1) l) as Hlater.
    { eapply Forall_impl; [done|]. unfold by_time. intros; simpl in *. lia. }
    rewrite filter_cons_False, filter_cons_True by lia.
    rewrite filter_none, filter_all; [done..|].
    eapply Forall_impl; [done|]. intros; simpl in *. lia.
Qed.

(** ** Running usage *)

Lemma total_app (l1 l2 : list event) : total (l1 ++ l2) = total l1 + total l2.
Proof.
  unfold total. induction l1 as [|e l1 IH]; csimpl; [done|]. rewrite IH. lia.
Qed.

Lemma total_perm (l1 l2 : list event) : l1 ≡ₚ l2 → total l1 = total l2.
Proof.
  unfold total. induction 1; csimpl; lia.
Qed.

(** What the sweep has accumulated after a non-empty prefix was within
    the capacity when the sweep passes. *)
Lemma sweep_ok_prefix (cap usage : Z) (p q : list event) :
  sweep_ok cap usage (p ++ q) = true → p ≠ [] → usage + total p ≤ cap.
Proof.
  revert usage. induction p as [|e p IH]; intros usage Hok Hne; [done|].
  simpl in Hok. apply andb_true_iff in Hok as [Hhd Htl].
  unfold total. csimpl. fold (total p).
  destruct p as [|e' p'].
  - unfold total. simpl. lia.
  - specialize (IH _ Htl ltac:(done)). lia.
Qed.

Section usage.
Context (inst : instance) (res st : list Z) (r t : Z).
Context (Hdur : Forall (Forall (λ p, 0 ≤ p)) (task_processing_time_data inst)).

Lemma proc_nonneg (i : nat) (r' : Z) : 0 ≤ proc inst i r'.
Proof using Hdur.
  unfold proc. destruct (task_processing_time_data inst !! i) as [row|] eqn:Hrow;
    simpl; [|done].
  destruct (row !! Z.to_nat r') as [p|] eqn:Hp; simpl; [|done].
  pose proof (Forall_lookup_1 _ _ _ _ Hdur Hrow) as Hrow'.
  apply (Forall_lookup_1 _ _ _ _ Hrow' Hp).
Qed.

(** Up to instant [t] a task has contributed its weight exactly when
    it is running at [t]. *)
Lemma task_events_total (i : nat) :
  total (filter (λ e : event, e.1 ≤ t) (task_events inst res st r i))
  = if active inst res st r t i then weight inst r i else 0.
Proof using Hdur.
  unfold task_events, active, finish_time.
  pose proof (proc_nonneg i (default 0 (res !! i))) as Hp.
  destruct (default 0 (res !! i) =? r); simpl; [|done].
  rewrite !filter_cons, filter_nil. simpl.
  repeat case_decide;
    destruct (default 0 (st !! i) <=? t) eqn:E1;
    destruct (t <? default 0 (st !! i) + proc inst i (default 0 (res !! i))) eqn:E2;
    unfold total; simpl; lia.
Qed.

Lemma events_total :
  total (filter (λ e : event, e.1 ≤ t) (events_of inst res st r))
  = usage_at inst res st r t.
Proof using Hdur.
  unfold events_of, usage_at. induction (seq 0 (length res)) as [|i ks IH];
    csimpl; [done|].
  by rewrite filter_app, total_app, task_events_total, IH.
Qed.

(** An overload at some instant makes the sweep of that resource fail. *)
Lemma overload_detected (cap : Z) :
  0 ≤ cap → cap < usage_at inst res st r t →
  sweep_ok cap 0 (sort_events (events_of inst res st r)) = false.
Proof using Hdur.
  intros Hcap Hover. apply not_true_is_false. intros Hok.
  pose proof (sorted_split t _ (sort_events_sorted (events_of inst res st r)))
    as Hsplit.
  rewrite Hsplit in Hok.
  assert (total (filter (λ e : event, e.1 ≤ t) (sort_events (events_of inst res st r)))
          = usage_at inst res st r t) as Htot.
  { rewrite <- events_total. apply total_perm.
    by rewrite sort_events_perm. }
  destruct (filter (λ e : event, e.1 ≤ t) (sort_events (events_of inst res st r)))
    as [|e p] eqn:Hp.
  - unfold total in Htot. simpl in Htot. lia.
  - apply sweep_ok_prefix in Hok; [|done]. lia.
Qed.
End usage.

(** ** The evaluator on integer schedules *)

Lemma schedule_of_inv (solution : pyval) (res st : list Z) :
  schedule_of solution = Some (res, st) →
  ∃ tr sts, is_pair solution tr sts
            ∧ as_int_seq tr = Some res ∧ as_int_seq sts = Some st.
Proof.
  unfold schedule_of, is_pair. intros H.
  destruct solution as [| | | |l|l]; try done;
    destruct l as [|tr [|sts [|]]]; try done;
    destruct (as_int_seq tr) eqn:E1; try done;
    destruct (as_int_seq sts) eqn:E2; try done;
    inversion H; subst; exists tr, sts; auto.
Qed.

Lemma evaluate_solution_schedule (inst : instance) (solution : pyval)
    (res st : list Z) :
  wf_instance inst → schedule_of solution = Some (res, st) →
  evaluate_solution inst solution
  = if feasible inst res st
    then let! makespan := py_max (finish_times_of inst res st) in
         Return (Makespan makespan)
    else Return Penalty.
Proof.
  intros Hwf (tr & sts & Hpair & Hres & Hst)%schedule_of_inv.
  unfold feasible, well_shaped.
  destruct (Z.of_nat (length res) =? nb_tasks inst) eqn:E1;
    [destruct (Z.of_nat (length st) =? nb_tasks inst) eqn:E2|].
  - simpl. rewrite (evaluate_solution_typed inst Hwf tr sts res st) by (done || lia).
    by rewrite <- !andb_assoc.
  - simpl. unfold evaluate_solution.
    destruct Hpair as [-> | ->]; simpl;
      rewrite (as_int_seq_len _ _ Hres), (as_int_seq_len _ _ Hst); simpl;
      rewrite E1, E2; done.
  - simpl. unfold evaluate_solution.
    destruct Hpair as [-> | ->]; simpl;
      rewrite (as_int_seq_len _ _ Hres); simpl; rewrite E1; done.
Qed.

Lemma forallb_false_elem {A} (f : A → bool) (l : list A) (x : A) :
  x ∈ l → f x = false → forallb f l = false.
Proof.
  intros Hx Hf. apply not_true_is_false. intros Hall.
  rewrite forallb_forall in Hall. rewrite (Hall x) in Hf; [done|].
  by apply list_elem_of_In.
Qed.

Lemma infeasible_penalty (inst : instance) (solution : pyval) (res st : list Z) :
  wf_instance inst → schedule_of solution = Some (res, st) →
  feasible inst res st = false →
  evaluate_solution inst solution = Return Penalty.
Proof.
  intros Hwf Hsched Hinf.
  by rewrite (evaluate_solution_schedule _ _ _ _ Hwf Hsched), Hinf.
Qed.

Lemma malformed_penalty (inst : instance) (solution : pyval) :
  malformed inst solution → evaluate_solution inst solution = Return Penalty.
Proof.
  unfold evaluate_solution.
  intros [Hno | tr sts n Hpair Hlen Hn | tr sts n Hpair Hlen1 Hlen2 Hn].
  - assert (check_format inst solution = Return Penalty) as ->; [|done].
    unfold is_pair in Hno.
    destruct solution as [| | | |l|l]; try done;
      destruct l as [|tr [|sts [|]]]; try done;
      exfalso; eapply Hno; eauto.
  - destruct Hpair as [-> | ->]; simpl; rewrite Hlen; simpl;
      by replace (n =? nb_tasks inst) with false by lia.
  - destruct Hpair as [-> | ->]; simpl; rewrite Hlen1; simpl;
      rewrite Z.eqb_refl; simpl; rewrite Hlen2; simpl;
      by replace (n =? nb_tasks inst) with false by lia.
Qed.

Lemma bad_resource_infeasible (inst : instance) (res st : list Z) (i : nat) (r : Z) :
  res !! i = Some r → resource_ok inst i r = false → feasible inst res st = false.
Proof.
  intros Hr Hbad. unfold feasible.
  assert (resources_ok inst res = false) as ->.
  { unfold resources_ok. apply (forallb_false_elem _ _ i).
    - apply elem_of_seq. apply lookup_lt_Some in Hr. lia.
    - by rewrite Hr. }
  by destruct (well_shaped inst res st).
Qed.

Lemma late_pair_infeasible (inst : instance) (res st : list Z) (i : nat)
    (succs : list Z) (j : Z) :
  (i < length res)%nat → successors inst !! i = Some succs → j ∈ succs →
  default 0 (st !! Z.to_nat j) < finish_time inst res st i →
  feasible inst res st = false.
Proof.
  intros Hi Hsuccs Hj Hlate. unfold feasible.
  assert (precedence_ok inst res st = false) as ->.
  { unfold precedence_ok. apply (forallb_false_elem _ _ i).
    - apply elem_of_seq. lia.
    - rewrite Hsuccs. simpl. apply (forallb_false_elem _ _ j); [done|].
      unfold pair_ok. lia. }
  by destruct (well_shaped inst res st), (resources_ok inst res).
Qed.

Lemma failed_sweep_infeasible (inst : instance) (res st : list Z) (r : nat) :
  0 ≤ Z.of_nat r < nb_resources inst →
  resource_sweep_ok inst res st r = false →
  feasible inst res st = false.
Proof.
  intros Hr Hbad. unfold feasible.
  assert (capacity_ok inst res st = false) as ->.
  { unfold capacity_ok. apply (forallb_false_elem _ _ r); [|done].
    apply elem_of_seq. lia. }
  by destruct (well_shaped inst res st), (resources_ok inst res),
    (precedence_ok inst res st).
Qed.

Lemma foldl_max_spec (l : list Z) (a : Z) :
  let m := foldl Z.max a l in
  m ∈ a :: l ∧ a ≤ m ∧ Forall (λ x, x ≤ m) l.
Proof.
  revert a. induction l as [|x l IH]; intros a; simpl.
  - split; [left|]. split; [lia|constructor].
  - destruct (IH (Z.max a x)) as (Hin & Hle & Hall).
    split; [|split; [lia|constructor; [lia|done]]].
    apply elem_of_cons in Hin as [Heq | Hin].
    + rewrite Heq. destruct (Z.max_spec a x) as [[_ ->] | [_ ->]].
      * right. left.
      * left.
    + right. by right.
Qed.

Lemma py_max_spec (l : list Z) :
  l ≠ [] → ∃ m, py_max l = Next m ∧ m ∈ l ∧ Forall (λ x, x ≤ m) l.
Proof.
  destruct l as [|a l]; [done|]. intros _.
  destruct (foldl_max_spec l a) as (Hin & Hle & Hall).
  exists (foldl Z.max a l). simpl. split; [done|]. split; [done|].
  by constructor.
Qed.

Lemma makespan_spec (inst : instance) (res st : list Z) :
  (0 < length res)%nat →
  ∃ m, py_max (finish_times_of inst res st) = Next m ∧ is_makespan inst res st m.
Proof.
  intros Hlen.
  destruct (py_max_spec (finish_times_of inst res st)) as (m & Hm & Hin & Hall).
  { unfold finish_times_of. destruct res; simpl in *; [lia|done]. }
  exists m. split; [done|]. unfold finish_times_of in *. split.
  - apply list_elem_of_fmap in Hin as (i & -> & Hi). apply elem_of_seq in Hi.
    exists i. split; [lia|done].
  - intros i Hi. rewrite Forall_fmap, Forall_forall in Hall.
    apply Hall. apply elem_of_seq. lia.
Qed.

(** ** Bounding the sweep by the total demand *)

Lemma demand_perm (l1 l2 : list event) : l1 ≡ₚ l2 → demand l1 = demand l2.
Proof. unfold demand. induction 1; csimpl; lia. Qed.

Lemma demand_nonneg (events : list event) : 0 ≤ demand events.
Proof. unfold demand. induction events; csimpl; lia. Qed.

Lemma sweep_ok_demand (cap usage : Z) (events : list event) :
  usage + demand events ≤ cap → sweep_ok cap usage events = true.
Proof.
  revert usage.
  induction events as [|e events IH]; intros usage Hcap; [done|].
  pose proof (demand_nonneg events) as Hnn.
  unfold demand in Hcap, Hnn. csimpl in Hcap. simpl.
  apply andb_true_iff. split; [lia|]. apply IH. unfold demand. lia.
Qed.

(** ** Well-formedness of the concrete instances *)

Ltac solve_wf :=
  split; simpl; repeat first [done | lia | constructor].

Lemma scenario_1_wf : wf_instance scenario_1_instance.
Proof. solve_wf. Qed.

Lemma scenario_2_wf : wf_instance scenario_2_instance.
Proof. solve_wf. Qed.

Lemma scenario_3_wf : wf_instance scenario_3_instance.
Proof. solve_wf. Qed.

Lemma scenario_4_wf : wf_instance scenario_4_instance.
Proof. solve_wf. Qed.

Lemma two_resource_wf : wf_instance two_resource_instance.
Proof. solve_wf. Qed.

(** ** Makespan of a feasible schedule *)

(** C3: on a well-formed instance with at least one task, a schedule of
    integers that passes the shape, resource-validity, precedence and
    capacity checks is scored with the largest finish time
    [start_time[i] + processing_time[i][resource_of[i]]]: the returned
    makespan is attained by some task and bounds every task's finish
    time. *)
Theorem makespan_of_feasible_schedule (inst : instance) (solution : pyval)
    (res st : list Z) :
  wf_instance inst → 0 < nb_tasks inst →
  schedule_of solution = Some (res, st) →
  well_shaped inst res st = true →
  resources_ok inst res = true →
  precedence_ok inst res st = true →
  capacity_ok inst res st = true →
  ∃ m, evaluate_solution inst solution = Return (Makespan m)
       ∧ is_makespan inst res st m.
Proof.
  intros Hwf Hpos Hsched Hshape Hres Hprec Hcap.
  rewrite (evaluate_solution_schedule _ _ _ _ Hwf Hsched).
  unfold feasible. rewrite Hshape, Hres, Hprec, Hcap. simpl.
  destruct (makespan_spec inst res st) as (m & -> & Hm).
  - unfold well_shaped in Hshape. apply andb_true_iff in Hshape as [H1 _]. lia.
  - by exists m.
Qed.

Lemma makespan_of_feasible_schedule_witness :
  ∃ m, evaluate_solution scenario_4_instance (candidate [0; 0] [0; 3])
       = Return (Makespan m)
       ∧ is_makespan scenario_4_instance [0; 0] [0; 3] m.
Proof.
  apply (makespan_of_feasible_schedule scenario_4_instance
           (candidate [0; 0] [0; 3]) [0; 0] [0; 3]);
    [apply scenario_4_wf | reflexivity..].
Defined.

(** ** Capacity *)

(** C4: on a well-formed instance with non-negative processing times, if
    at some instant [t] the summed weight of the tasks assigned to
    resource [r] whose interval [[start, finish)] contains [t] exceeds the
    (non-negative) capacity of [r], the evaluator returns the penalty. *)
Theorem overload_is_penalised (inst : instance) (solution : pyval)
    (res st : list Z) (r : nat) (cap t : Z) :
  wf_instance inst →
  Forall (Forall (λ p, 0 ≤ p)) (task_processing_time_data inst) →
  schedule_of solution = Some (res, st) →
  capacity inst !! r = Some cap → 0 ≤ cap →
  cap < usage_at inst res st (Z.of_nat r) t →
  evaluate_solution inst solution = Return Penalty.
Proof.
  intros Hwf Hdur Hsched Hcap Hcap0 Hover.
  apply (infeasible_penalty _ _ _ _ Hwf Hsched).
  apply (failed_sweep_infeasible _ _ _ r).
  - apply lookup_lt_Some in Hcap. destruct Hwf. lia.
  - unfold resource_sweep_ok. rewrite Hcap. simpl.
    by apply (overload_detected inst res st (Z.of_nat r) t Hdur).
Qed.

Lemma overload_is_penalised_witness :
  evaluate_solution scenario_3_instance (candidate [0; 0] [0; 1]) = Return Penalty.
Proof.
  apply (overload_is_penalised scenario_3_instance (candidate [0; 0] [0; 1])
           [0; 0] [0; 1] 0%nat 4 1).
  - apply scenario_3_wf.
  - simpl. repeat constructor; lia.
  - reflexivity.
  - reflexivity.
  - lia.
  - vm_compute. reflexivity.
Defined.

(** ** Precedence *)

(** C5: for a schedule of integers on a well-formed instance, a task [i]
    with a successor [j] that starts before [i] finishes makes the
    evaluator return the penalty; and when every successor starts at or
    after its predecessor's finish, equality included, the precedence
    loop falls through without returning. *)
Theorem precedence_is_strict (inst : instance) (solution tr sts : pyval)
    (res st : list Z) :
  wf_instance inst →
  is_pair solution tr sts →
  schedule_of solution = Some (res, st) →
  (∀ i succs j,
     (i < length res)%nat → successors inst !! i = Some succs → j ∈ succs →
     default 0 (st !! Z.to_nat j) < finish_time inst res st i →
     evaluate_solution inst solution = Return Penalty)
  ∧ (well_shaped inst res st = true →
     (∀ i succs j,
        (i < length res)%nat → successors inst !! i = Some succs → j ∈ succs →
        finish_time inst res st i ≤ default 0 (st !! Z.to_nat j)) →
     check_precedence inst sts (finish_times_of inst res st) = Next ()).
Proof.
  intros Hwf Hpair Hsched. split.
  - intros i succs j Hi Hsuccs Hj Hlate.
    apply (infeasible_penalty _ _ _ _ Hwf Hsched).
    by apply (late_pair_infeasible _ _ _ i succs j).
  - intros Hshape Hall.
    apply schedule_of_inv in Hsched as (tr' & sts' & Hpair' & Hres & Hst).
    assert (sts' = sts) as ->.
    { destruct Hpair as [-> | ->], Hpair' as [H | H]; congruence. }
    unfold well_shaped in Hshape. apply andb_true_iff in Hshape as [H1 H2].
    rewrite (check_precedence_spec inst Hwf sts res st) by (done || lia).
    assert (precedence_ok inst res st = true) as ->; [|done].
    unfold precedence_ok. apply forallb_forall. intros i Hi%list_elem_of_In.
    apply elem_of_seq in Hi.
    destruct (successors inst !! i) as [succs|] eqn:Hsuccs; simpl; [|done].
    apply forallb_forall. intros j Hj%list_elem_of_In.
    unfold pair_ok. specialize (Hall i succs j ltac:(lia) Hsuccs Hj). lia.
Qed.

Lemma precedence_is_strict_witness :
  evaluate_solution scenario_2_instance (candidate [0; 0] [0; 2]) = Return Penalty
  ∧ check_precedence scenario_2_instance (PList (PInt <$> [0; 3]))
      (finish_times_of scenario_2_instance [0; 0] [0; 3]) = Next ().
Proof.
  split.
  - apply (precedence_is_strict scenario_2_instance (candidate [0; 0] [0; 2])
             (PList (PInt <$> [0; 0])) (PList (PInt <$> [0; 2])) [0; 0] [0; 2]
             scenario_2_wf (or_intror eq_refl) eq_refl)
      with (i := 0%nat) (succs := [1]) (j := 1).
    + simpl. lia.
    + reflexivity.
    + left.
    + vm_compute. reflexivity.
  - apply (precedence_is_strict scenario_2_instance (candidate [0; 0] [0; 3])
             (PList (PInt <$> [0; 0])) (PList (PInt <$> [0; 3])) [0; 0] [0; 3]
             scenario_2_wf (or_intror eq_refl) eq_refl).
    + reflexivity.
    + intros [|[|i]] succs j Hi Hsuccs Hj; simpl in *; try lia.
      * injection Hsuccs as <-. apply list_elem_of_singleton in Hj as ->.
        vm_compute. discriminate.
      * injection Hsuccs as <-. by apply not_elem_of_nil in Hj.
Defined.

(** ** Resource validity *)

(** C6: for a schedule of integers on a well-formed instance and a task
    [i] assigned to [r]: the evaluator returns the penalty when [r] is
    outside [[0, nb_resources)], and when both [processing_time[i][r]]
    and [weight[r][i]] are zero; with [r] in range and any other pair of
    values the body of the first loop passes task [i], recording its
    finish time. *)
Theorem resource_validity (inst : instance) (solution tr sts : pyval)
    (res st : list Z) (i : nat) (r : Z) :
  wf_instance inst →
  is_pair solution tr sts →
  schedule_of solution = Some (res, st) →
  res !! i = Some r →
  (¬ (0 ≤ r < nb_resources inst) →
   evaluate_solution inst solution = Return Penalty)
  ∧ (proc inst i r = 0 → weight inst r i = 0 →
     evaluate_solution inst solution = Return Penalty)
  ∧ (∀ fts,
       well_shaped inst res st = true → length fts = length res →
       0 ≤ r < nb_resources inst →
       ¬ (proc inst i r = 0 ∧ weight inst r i = 0) →
       finish_time_step inst tr sts (Z.of_nat i) fts
       = Next (<[i := finish_time inst res st i]> fts)).
Proof.
  intros Hwf Hpair Hsched Hr. split; [|split].
  - intros Hout. apply (infeasible_penalty _ _ _ _ Hwf Hsched).
    apply (bad_resource_infeasible _ _ _ i r Hr). unfold resource_ok.
    destruct (0 <=? r) eqn:E1; [|done].
    destruct (r <? nb_resources inst) eqn:E2; [|done]. lia.
  - intros Hp Hw. apply (infeasible_penalty _ _ _ _ Hwf Hsched).
    apply (bad_resource_infeasible _ _ _ i r Hr). unfold resource_ok.
    rewrite Hp, Hw. simpl. by rewrite andb_false_r.
  - intros fts Hshape Hfts Hin Hcompat.
    apply schedule_of_inv in Hsched as (tr' & sts' & Hpair' & Hres & Hst).
    assert (tr' = tr ∧ sts' = sts) as [-> ->].
    { destruct Hpair as [-> | ->], Hpair' as [H | H]; split; congruence. }
    unfold well_shaped in Hshape. apply andb_true_iff in Hshape as [H1 H2].
    rewrite (finish_time_step_spec inst Hwf tr sts res st) by
      (done || lia || by eapply lookup_lt_Some).
    rewrite Hr. simpl. unfold resource_ok.
    replace (0 <=? r) with true by lia.
    replace (r <? nb_resources inst) with true by lia. simpl.
    destruct (proc inst i r =? 0) eqn:E1; [|done].
    destruct (weight inst r i =? 0) eqn:E2; [|done]. lia.
Qed.

Lemma resource_validity_witness :
  evaluate_solution two_resource_instance (candidate [0; 2] [0; 3]) = Return Penalty
  ∧ evaluate_solution two_resource_instance (candidate [1; 0] [0; 3])
    = Return Penalty
  ∧ finish_time_step two_resource_instance (PList (PInt <$> [0; 1]))
      (PList (PInt <$> [0; 3])) (Z.of_nat 1) [3; 0]
    = Next (<[1%nat := finish_time two_resource_instance [0; 1] [0; 3] 1]> [3; 0]).
Proof.
  split; [|split].
  - apply (proj1 (resource_validity two_resource_instance
             (candidate [0; 2] [0; 3])
             (PList (PInt <$> [0; 2])) (PList (PInt <$> [0; 3])) [0; 2] [0; 3]
             1%nat 2 two_resource_wf (or_intror eq_refl) eq_refl eq_refl)).
    simpl. lia.
  - apply (proj1 (proj2 (resource_validity two_resource_instance
             (candidate [1; 0] [0; 3])
             (PList (PInt <$> [1; 0])) (PList (PInt <$> [0; 3])) [1; 0] [0; 3]
             0%nat 1 two_resource_wf (or_intror eq_refl) eq_refl eq_refl)));
      reflexivity.
  - apply (proj2 (proj2 (resource_validity two_resource_instance
             (candidate [0; 1] [0; 3])
             (PList (PInt <$> [0; 1])) (PList (PInt <$> [0; 3])) [0; 1] [0; 3]
             1%nat 1 two_resource_wf (or_intror eq_refl) eq_refl eq_refl))).
    + reflexivity.
    + reflexivity.
    + simpl. lia.
    + vm_compute. intros [H _]. discriminate H.
Defined.

(** ** The tie at a shared timestamp, with room to spare *)

Lemma events_of_other_resource (inst : instance) (res st : list Z) (r r' : Z) :
  Forall (λ x, x = r) res → r' ≠ r → events_of inst res st r' = [].
Proof.
  intros Hall Hne. unfold events_of.
  assert (∀ ks, Forall (λ k, (k < length res)%nat) ks →
            ks ≫= task_events inst res st r' = []) as Hnil.
  { induction 1 as [|k ks Hk Hks IH]; csimpl; [done|]. rewrite IH.
    unfold task_events.
    destruct (lookup_lt_is_Some_2 res k Hk) as [x Hx].
    rewrite Hx. simpl. rewrite (Forall_lookup_1 _ _ _ _ Hall Hx).
    by replace (r =? r') with false by lia. }
  apply Hnil. apply Forall_forall. intros k Hk%elem_of_seq. lia.
Qed.

(** C7: two tasks on the same resource [r] of capacity 4, each of weight
    2, the second starting exactly when the first finishes, precedence
    respected: the evaluator returns the larger finish time, not the
    penalty. *)
Theorem tie_within_capacity (inst : instance) (solution : pyval) (r s0 s1 : Z) :
  wf_instance inst → nb_tasks inst = 2 →
  0 ≤ r < nb_resources inst →
  capacity inst !! Z.to_nat r = Some 4 →
  weight inst r 0 = 2 → weight inst r 1 = 2 →
  schedule_of solution = Some ([r; r], [s0; s1]) →
  s0 + proc inst 0 r = s1 →
  precedence_ok inst [r; r] [s0; s1] = true →
  evaluate_solution inst solution
  = Return (Makespan (Z.max (s0 + proc inst 0 r) (s1 + proc inst 1 r))).
Proof.
  intros Hwf Hn Hr Hcap Hw0 Hw1 Hsched Htie Hprec.
  rewrite (evaluate_solution_schedule _ _ _ _ Hwf Hsched).
  assert (feasible inst [r; r] [s0; s1] = true) as ->; [|done].
  unfold feasible. rewrite Hprec.
  assert (well_shaped inst [r; r] [s0; s1] = true) as ->.
  { unfold well_shaped. simpl. rewrite Hn. done. }
  assert (resources_ok inst [r; r] = true) as ->.
  { unfold resources_ok, resource_ok. simpl. rewrite Hw0, Hw1.
    replace (0 <=? r) with true by lia.
    replace (r <? nb_resources inst) with true by lia.
    simpl. by rewrite !andb_false_r. }
  simpl. unfold capacity_ok. apply forallb_forall.
  intros r' Hr'%list_elem_of_In. apply elem_of_seq in Hr'.
  unfold resource_sweep_ok.
  destruct (decide (Z.of_nat r' = r)) as [<- | Hne].
  - rewrite Nat2Z.id in Hcap. rewrite Hcap. simpl.
    apply sweep_ok_demand. rewrite (demand_perm _ _ (sort_events_perm _)).
    unfold events_of, task_events, demand. simpl.
    rewrite Z.eqb_refl, Hw0, Hw1. simpl. lia.
  - rewrite (events_of_other_resource inst _ _ r); [done| |done].
    by repeat constructor.
Qed.

Lemma tie_within_capacity_witness :
  evaluate_solution scenario_4_instance (candidate [0; 0] [0; 3])
  = Return (Makespan (Z.max (0 + proc scenario_4_instance 0 0)
                            (3 + proc scenario_4_instance 1 0))).
Proof.
  apply (tie_within_capacity scenario_4_instance (candidate [0; 0] [0; 3]) 0 0 3);
    [apply scenario_4_wf | reflexivity | simpl; lia | reflexivity..].
Defined.

(** ** One penalty for every violation *)

(** C8: on a well-formed instance every detected violation, whatever its
    class (malformed shape, invalid resource index, incompatible
    resource, precedence violation, capacity overflow), makes the
    evaluator return the same value, [Penalty] (the float [1e9]). *)
Theorem violations_share_penalty (inst : instance) (solution : pyval) :
  wf_instance inst → violation inst solution →
  evaluate_solution inst solution = Return Penalty.
Proof.
  intros Hwf [Hbad | res st i r Hsched Hr Hout | res st i r Hsched Hr Hp Hw
              | res st i succs j Hsched Hi Hsuccs Hj Hlate
              | res st r Hsched Hr Hsweep].
  - by apply malformed_penalty.
  - apply (infeasible_penalty _ _ _ _ Hwf Hsched).
    apply (bad_resource_infeasible _ _ _ i r Hr). unfold resource_ok.
    destruct (0 <=? r) eqn:E1; [|done].
    destruct (r <? nb_resources inst) eqn:E2; [|done]. lia.
  - apply (infeasible_penalty _ _ _ _ Hwf Hsched).
    apply (bad_resource_infeasible _ _ _ i r Hr). unfold resource_ok.
    rewrite Hp, Hw. simpl. by rewrite andb_false_r.
  - apply (infeasible_penalty _ _ _ _ Hwf Hsched).
    by apply (late_pair_infeasible _ _ _ i succs j).
  - apply (infeasible_penalty _ _ _ _ Hwf Hsched).
    by apply (failed_sweep_infeasible _ _ _ r).
Qed.

Lemma violations_share_penalty_witness :
  evaluate_solution scenario_3_instance (PList [PNone]) = Return Penalty
  ∧ evaluate_solution scenario_3_instance (candidate [0; 7] [0; 1]) = Return Penalty
  ∧ evaluate_solution two_resource_instance (candidate [1; 0] [0; 3])
    = Return Penalty
  ∧ evaluate_solution scenario_2_instance (candidate [0; 0] [0; 2]) = Return Penalty
  ∧ evaluate_solution scenario_3_instance (candidate [0; 0] [0; 1]) = Return Penalty.
Proof.
  split; [|split; [|split; [|split]]].
  - apply (violations_share_penalty _ _ scenario_3_wf).
    apply malformed_shape, not_a_pair. intros tr sts [H | H]; discriminate.
  - apply (violations_share_penalty _ _ scenario_3_wf).
    apply (invalid_resource_index _ _ [0; 7] [0; 1] 1%nat 7); [reflexivity..|].
    simpl. lia.
  - apply (violations_share_penalty _ _ two_resource_wf).
    apply (incompatible_resource _ _ [1; 0] [0; 3] 0%nat 1); reflexivity.
  - apply (violations_share_penalty _ _ scenario_2_wf).
    apply (precedence_violation _ _ [0; 0] [0; 2] 0%nat [1] 1);
      [reflexivity | simpl; lia | reflexivity | left | vm_compute; reflexivity].
  - apply (violations_share_penalty _ _ scenario_3_wf).
    apply (capacity_overflow _ _ [0; 0] [0; 1] 0%nat);
      [reflexivity | simpl; lia | reflexivity].
Defined.

(** ** Coinciding timestamps in the capacity sweep *)

(** C1: the sweep compares the usage with the capacity after each single
    delta, in the order of appending among equal timestamps.  With the
    later task numbered first its start is applied before the earlier
    task's finish at instant 3 and the evaluator returns the penalty,
    although no instant carries more than the capacity; with the task
    numbers exchanged the same schedule is scored with its makespan. *)
Theorem tie_depends_on_task_numbering :
  sort_events (events_of tie_instance [0; 0] [3; 0] 0)
  = [(0, 2); (3, 2); (3, -2); (5, -2)]
  ∧ evaluate_solution tie_instance (candidate [0; 0] [3; 0]) = Return Penalty
  ∧ (∀ t, usage_at tie_instance [0; 0] [3; 0] 0 t ≤ 2)
  ∧ evaluate_solution tie_instance_renumbered (candidate [0; 0] [0; 3])
    = Return (Makespan 5).
Proof.
  split; [reflexivity|]. split; [reflexivity|]. split; [|reflexivity].
  intros t. unfold usage_at, active, finish_time, proc, weight. simpl.
  destruct (3 <=? t) eqn:E1, (t <? 3 + 2) eqn:E2, (0 <=? t) eqn:E3,
    (t <? 0 + 3) eqn:E4; simpl; lia.
Qed.

(** ** Exceptions on candidates the validation does not cover *)

(** A candidate of two integers raises at [len]; one with a string for a
    resource raises at [r < 0]; one with [None] for a start time raises
    at [st + proc_time]; and with no task at all [max] raises on the
    empty list of finish times. *)
Lemma evaluate_solution_raises :
  evaluate_solution scenario_1_instance (PTuple [PInt 5; PInt 6]) = Raise TypeError
  ∧ evaluate_solution scenario_1_instance
      (PTuple [PList [PStr "a"]; PList [PInt 0]]) = Raise TypeError
  ∧ evaluate_solution scenario_1_instance
      (PTuple [PList [PInt 0]; PList [PNone]]) = Raise TypeError
  ∧ evaluate_solution (mk_instance [5] [] [[]] []) (candidate [] [])
    = Raise ValueError.
Proof. split; [|split; [|split]]; reflexivity. Qed.

(** C2, amended: on a well-formed instance with at least one task, a
    candidate that the format validation rejects (not a two-element list
    or tuple, or a component whose length is not [nb_tasks]) and a
    candidate made of two sequences of integers are both scored without
    an exception, the former with the penalty. *)
Theorem no_exception_on_checked_candidates (inst : instance) (solution : pyval) :
  wf_instance inst → 0 < nb_tasks inst →
  malformed inst solution ∨ is_Some (schedule_of solution) →
  ∃ s, evaluate_solution inst solution = Return s
       ∧ (malformed inst solution → s = Penalty).
Proof.
  intros Hwf Hpos [Hbad | [[res st] Hsched]].
  - exists Penalty. split; [by apply malformed_penalty | done].
  - rewrite (evaluate_solution_schedule _ _ _ _ Hwf Hsched).
    destruct (feasible inst res st) eqn:Hfeas.
    + destruct (makespan_spec inst res st) as (m & Hm & _).
      { unfold feasible, well_shaped in Hfeas.
        repeat (apply andb_true_iff in Hfeas as [Hfeas ?]). lia. }
      rewrite Hm. simpl. exists (Makespan m). split; [done|].
      intros Hbad. exfalso.
      pose proof (evaluate_solution_schedule _ _ _ _ Hwf Hsched) as Heval.
      rewrite (malformed_penalty _ _ Hbad), Hfeas, Hm in Heval. done.
    + by exists Penalty.
Qed.

Lemma no_exception_on_checked_candidates_witness :
  (∃ s, evaluate_solution scenario_3_instance (PList [PNone]) = Return s
        ∧ (malformed scenario_3_instance (PList [PNone]) → s = Penalty))
  ∧ (∃ s, evaluate_solution scenario_3_instance (candidate [0; 0] [0; 1])
          = Return s
          ∧ (malformed scenario_3_instance (candidate [0; 0] [0; 1])
             → s = Penalty)).
Proof.
  split.
  - apply (no_exception_on_checked_candidates scenario_3_instance (PList [PNone])).
    + apply scenario_3_wf.
    + simpl. lia.
    + left. apply not_a_pair. intros tr sts [H | H]; discriminate.
  - apply (no_exception_on_checked_candidates scenario_3_instance
             (candidate [0; 0] [0; 1])).
    + apply scenario_3_wf.
    + simpl. lia.
    + right. by eexists.
Defined.

(** ** The reader stops at its first name *)

(** With [os] among the module's globals the reader gets to the file and
    parses it. *)
Example read_instance_with_os_bound :
  _read_instance ("os" :: module_globals) sample_world "instance.txt"
  = (Next two_resource_instance,
     {| files := files sample_world; module_dir := "/repo";
        opened := ["/repo/instance.txt"] |}).
Proof. vm_compute. reflexivity. Qed.

(** C10: the module never binds [os], so whatever the file system and the
    file name, [_read_instance] raises [NameError] at its first
    expression, before any file is opened, and so does the constructor:
    no instance is ever built. *)
Theorem read_instance_raises_NameError (w : world) (filename : string) :
  _read_instance module_globals w filename = (Raise NameError, w)
  ∧ __init__ module_globals w filename = (Raise NameError, w)
  ∧ ∀ inst w', __init__ module_globals w filename ≠ (Next inst, w').
Proof.
  assert (_read_instance module_globals w filename = (Raise NameError, w)) as H.
  { unfold _read_instance.
    assert (load_global module_globals "os" = Raise NameError) as ->; [|done].
    vm_compute. reflexivity. }
  unfold __init__. rewrite H. by repeat split.
Qed.

(** ** The evaluator over the store, on scenario 4 *)

Example h_scenario_4 :
  (h_evaluate_solution sample_self (HTuple [HRef 8; HRef 9]) sample_heap).1
  = Return (Makespan 5).
Proof. vm_compute. reflexivity. Qed.

(** ** The store model against the functional one *)

Lemma sim_bind {SP SH SP' SH' : Type} (R : SP → SH → heap → Prop)
    (R' : SP' → SH' → heap → Prop) (J : heap → Prop)
    (po : outcome SP) (k : SP → outcome SP') (m : M SH) (mk : SH → M SH')
    (h : heap) :
  sim R J po (m h) →
  (∀ sp sh h', R sp sh h' → sim R' J (k sp) (mk sh h')) →
  sim R' J (let! x := po in k x) (sbind m mk h).
Proof.
  unfold sim at 1, sbind. intros Hm Hk.
  destruct po as [sp|s|e], (m h) as [[sh|s'|e'] h']; simpl; try done.
  by apply Hk.
Qed.

Lemma m_for_each_sim {A SP SH : Type} (R : SP → SH → heap → Prop)
    (J : heap → Prop) (xs : list A) (body : A → SP → outcome SP)
    (mbody : A → SH → M SH) :
  (∀ x sp sh h, x ∈ xs → R sp sh h → sim R J (body x sp) (mbody x sh h)) →
  ∀ sp sh h, R sp sh h →
  sim R J (for_each xs body sp) (m_for_each xs mbody sh h).
Proof.
  induction xs as [|x xs IH]; intros Hbody sp sh h HR; simpl; [done|].
  apply (sim_bind R R J).
  - apply Hbody; [left | done].
  - intros sp' sh' h' HR'. apply IH; [|done].
    intros y sp0 sh0 h0 Hy. apply Hbody. by right.
Qed.

Lemma for_each_ext {A S : Type} (xs : list A) (body1 body2 : A → S → outcome S)
    (s : S) :
  (∀ x s, x ∈ xs → body1 x s = body2 x s) →
  for_each xs body1 s = for_each xs body2 s.
Proof.
  revert s. induction xs as [|x xs IH]; intros s Hext; simpl; [done|].
  rewrite (Hext x s) by left. destruct (body2 x s); simpl; try done.
  apply IH. intros y s' Hy. apply Hext. by right.
Qed.

Lemma mapM_fmap_cancel {A B : Type} (f : A → B) (g : B → option A) (l : list A) :
  (∀ x, g (f x) = Some x) → mapM g (f <$> l) = Some l.
Proof.
  intros Hgf. apply mapM_Some.
  induction l as [|x l IH]; csimpl; constructor; auto.
Qed.

Lemma h_ints_lookup (h : heap) (l : positive) (zs : list Z) :
  h !! l = Some (HInt <$> zs) → h_ints h l = Next zs.
Proof.
  intros Hl. unfold h_ints, contents. rewrite Hl. simpl.
  by rewrite (mapM_fmap_cancel HInt as_hint).
Qed.

Lemma h_rows_lookup (h : heap) (l : positive) (ls : list positive) :
  h !! l = Some (HRef <$> ls) → h_rows h l = Next ls.
Proof.
  intros Hl. unfold h_rows, contents. rewrite Hl. simpl.
  by rewrite (mapM_fmap_cancel HRef as_href).
Qed.

Lemma h_events_lookup (h : heap) (l : positive) (evs : list event) :
  h !! l = Some (tuple_of_event <$> evs) → h_events h l = Next evs.
Proof.
  intros Hl. unfold h_events, contents. rewrite Hl. simpl.
  rewrite (mapM_fmap_cancel tuple_of_event event_of_tuple); [done|].
  by intros [t d].
Qed.

(** Indexing two lists of the same length fails or succeeds together. *)
Lemma py_index_Forall2 {A B : Type} (R : A → B → Prop) (xs : list A)
    (ys : list B) (i : Z) :
  Forall2 R xs ys →
  match py_index xs i, py_index ys i with
  | Next x, Next y => R x y
  | Raise e, Raise e' => e = e'
  | _, _ => False
  end.
Proof.
  intros HR. unfold py_index. rewrite (Forall2_length _ _ _ HR).
  set (j := if i <? 0 then i + Z.of_nat (length ys) else i).
  destruct ((j <? 0) || (Z.of_nat (length ys) <=? j)); [done|].
  destruct (xs !! Z.to_nat j) as [x|] eqn:Hx.
  - destruct (Forall2_lookup_l _ _ _ _ _ HR Hx) as (y & -> & Hxy). done.
  - destruct (ys !! Z.to_nat j) as [y|] eqn:Hy; [|done].
    destruct (Forall2_lookup_r _ _ _ _ _ HR Hy) as (x & Hx' & _). congruence.
Qed.

Lemma h_row_lookup (h : heap) (l : positive) (rows : list positive)
    (table : list (list Z)) (i : Z) :
  h !! l = Some (HRef <$> rows) →
  Forall2 (λ l row, h !! l = Some (HInt <$> row)) rows table →
  h_row h l i = py_index table i.
Proof.
  intros Hl Hrows. unfold h_row. rewrite (h_rows_lookup _ _ _ Hl). simpl.
  pose proof (py_index_Forall2 _ _ _ i Hrows) as Hi.
  destruct (py_index rows i), (py_index table i); simpl; try done.
  - by apply h_ints_lookup.
  - by subst.
Qed.

Lemma h_row_by_lookup (h : heap) (l : positive) (rows : list positive)
    (table : list (list Z)) (v : pyval) :
  h !! l = Some (HRef <$> rows) →
  Forall2 (λ l row, h !! l = Some (HInt <$> row)) rows table →
  h_row_by h l v = py_index_by table v.
Proof.
  intros Hl Hrows. unfold h_row_by, py_index_by.
  rewrite (h_rows_lookup _ _ _ Hl). simpl.
  destruct (as_int v) as [i|]; [|done].
  pose proof (py_index_Forall2 _ _ _ i Hrows) as Hi.
  destruct (py_index rows i), (py_index table i); simpl; try done.
  - by apply h_ints_lookup.
  - by subst.
Qed.

Lemma py_setitem_fmap {A B : Type} (f : A → B) (l : list A) (i : Z) (x : A) :
  py_setitem (f <$> l) i (f x)
  = match py_setitem l i x with
    | Next l' => Next (f <$> l')
    | Return s => Return s
    | Raise e => Raise e
    end.
Proof.
  unfold py_setitem. rewrite length_fmap.
  destruct ((_ <? 0) || _); [done|]. by rewrite list_fmap_insert.
Qed.

Lemma rows_weaken (h h' : heap) (rows : list positive) (table : list (list Z)) :
  h ⊆ h' →
  Forall2 (λ l row, h !! l = Some (HInt <$> row)) rows table →
  Forall2 (λ l row, h' !! l = Some (HInt <$> row)) rows table.
Proof.
  intros Hsub. induction 1; constructor; [|done]. by eapply lookup_weaken.
Qed.

Lemma heap_repr_weaken (h h' : heap) (self : hinstance) (inst : instance) :
  heap_repr h self inst → h ⊆ h' → heap_repr h' self inst.
Proof.
  intros [Hn Hr Hcap (p & Hp & Hprows) (w & Hw & Hwrows) (s & Hs & Hsrows)] Hsub.
  split; try done.
  - by eapply lookup_weaken.
  - exists p. split; [by eapply lookup_weaken | by eapply rows_weaken].
  - exists w. split; [by eapply lookup_weaken | by eapply rows_weaken].
  - exists s. split; [by eapply lookup_weaken | by eapply rows_weaken].
Qed.

Lemma view_weaken (h h' : heap) (v : hval) :
  readable h v → h ⊆ h' → view h' v = view h v.
Proof.
  intros Hv Hsub. destruct v; simpl; try done.
  destruct Hv as [items Hitems]. unfold contents.
  by rewrite Hitems, (lookup_weaken _ _ _ _ Hitems Hsub).
Qed.

Lemma candidate_view_weaken (h h' : heap) (v : hval) :
  closed_candidate h v → h ⊆ h' → candidate_view h' v = candidate_view h v.
Proof.
  intros [Hv Hitems] Hsub. destruct v; simpl; try done.
  - f_equal. apply list_fmap_ext. intros i x Hx.
    apply view_weaken; [|done]. by apply (Forall_lookup_1 _ _ _ _ Hitems Hx).
  - destruct Hv as [items Hl]. unfold contents in *.
    rewrite Hl, (lookup_weaken _ _ _ _ Hl Hsub) in *. simpl in *.
    f_equal. apply list_fmap_ext. intros i x Hx.
    apply view_weaken; [|done]. by apply (Forall_lookup_1 _ _ _ _ Hitems Hx).
Qed.

Section refinement.
Context (self : hinstance) (inst : instance) (h0 : heap).
Context (Hrepr : heap_repr h0 self inst).

Lemma capacity_read (h : heap) :
  h0 ⊆ h → h_ints h (self_capacity self) = Next (capacity inst).
Proof using Hrepr.
  intros Hsub. apply h_ints_lookup.
  destruct Hrepr. by eapply lookup_weaken.
Qed.

Lemma proc_row_read (h : heap) (i : Z) :
  h0 ⊆ h →
  h_row h (self_task_processing_time_data self) i
  = py_index (task_processing_time_data inst) i.
Proof using Hrepr.
  intros Hsub. destruct (heap_repr_weaken _ _ _ _ Hrepr Hsub).
  destruct repr_proc0 as (rows & Hrows & Hall). by eapply h_row_lookup.
Qed.

Lemma weight_row_read (h : heap) (i : Z) :
  h0 ⊆ h → h_row h (self_weights self) i = py_index (weights inst) i.
Proof using Hrepr.
  intros Hsub. destruct (heap_repr_weaken _ _ _ _ Hrepr Hsub).
  destruct repr_weights0 as (rows & Hrows & Hall). by eapply h_row_lookup.
Qed.

Lemma weight_row_read_by (h : heap) (v : pyval) :
  h0 ⊆ h → h_row_by h (self_weights self) v = py_index_by (weights inst) v.
Proof using Hrepr.
  intros Hsub. destruct (heap_repr_weaken _ _ _ _ Hrepr Hsub).
  destruct repr_weights0 as (rows & Hrows & Hall). by eapply h_row_by_lookup.
Qed.

Lemma succ_row_read (h : heap) (i : Z) :
  h0 ⊆ h → h_row h (self_successors self) i = py_index (successors inst) i.
Proof using Hrepr.
  intros Hsub. destruct (heap_repr_weaken _ _ _ _ Hrepr Hsub).
  destruct repr_successors0 as (rows & Hrows & Hall). by eapply h_row_lookup.
Qed.

Context (task_resources start_times : hval).
Context (Htr : readable h0 task_resources) (Hsts : readable h0 start_times).

(** *** The first loop writes only the new list of finish times *)

Lemma h_finish_time_step_sim (lf : positive) (i : Z) (fts : list Z) (h : heap) :
  h0 !! lf = None →
  h0 ⊆ h ∧ h !! lf = Some (HInt <$> fts) →
  sim (λ fts' (_ : unit) h', h0 ⊆ h' ∧ h' !! lf = Some (HInt <$> fts'))
    (λ h', h0 ⊆ h')
    (finish_time_step inst (view h0 task_resources) (view h0 start_times) i fts)
    (h_finish_time_step self task_resources start_times lf i () h).
Proof using All.
  intros Hfresh [Hsub Hlf].
  unfold finish_time_step, h_finish_time_step, sbind, reading.
  rewrite !(view_weaken h0 h) by done.
  destruct (py_getitem (view h0 task_resources) i) as [r| |]; simpl; [|done..].
  destruct (py_getitem (view h0 start_times) i) as [st| |]; simpl; [|done..].
  destruct (py_lt r 0) as [[]| |]; simpl; [done| |done..].
  rewrite (repr_nb_resources _ _ _ Hrepr).
  destruct (py_ge r (nb_resources inst)) as [[]| |]; simpl; [done| |done..].
  rewrite proc_row_read by done.
  destruct (py_index (task_processing_time_data inst) i) as [row| |]; simpl;
    [|done..].
  destruct (py_index_by row r) as [proc_time| |]; simpl; [|done..].
  rewrite weight_row_read_by by done.
  destruct (py_index_by (weights inst) r) as [wrow| |]; simpl; [|done..].
  destruct (py_index wrow i) as [w| |]; simpl; [|done..].
  destruct ((proc_time =? 0) && (w =? 0)); simpl; [done|].
  destruct (py_add st proc_time) as [ft| |]; simpl; [|done..].
  unfold setitem, contents. rewrite Hlf. simpl. rewrite py_setitem_fmap.
  destruct (py_setitem fts i ft) as [fts'| |]; simpl; [|done..].
  split; [by apply insert_subseteq_r | by rewrite lookup_insert_eq].
Qed.

Lemma h_compute_finish_times_sim :
  sim (λ fts lf h', h0 ⊆ h' ∧ h0 !! lf = None ∧ h' !! lf = Some (HInt <$> fts))
    (λ h', h0 ⊆ h')
    (compute_finish_times inst (view h0 task_resources) (view h0 start_times))
    (h_compute_finish_times self task_resources start_times h0).
Proof using All.
  unfold compute_finish_times, h_compute_finish_times.
  rewrite (repr_nb_tasks _ _ _ Hrepr).
  unfold sbind at 1. unfold alloc.
  set (lf := fresh (dom h0)).
  assert (h0 !! lf = None) as Hfresh.
  { apply not_elem_of_dom. apply is_fresh. }
  set (h1 := <[lf := replicate (Z.to_nat (nb_tasks inst)) (HInt 0)]> h0).
  pose proof (m_for_each_sim
    (λ fts' (_ : unit) h', h0 ⊆ h' ∧ h' !! lf = Some (HInt <$> fts'))
    (λ h', h0 ⊆ h') (range (nb_tasks inst))
    (finish_time_step inst (view h0 task_resources) (view h0 start_times))
    (h_finish_time_step self task_resources start_times lf)) as Hloop.
  specialize (Hloop ltac:(intros; by apply h_finish_time_step_sim)
    (replicate (Z.to_nat (nb_tasks inst)) 0) () h1).
  unfold sbind.
  destruct (for_each _ _ _) as [fts| |],
    (m_for_each _ _ _ _) as [[[]| |] h']; simpl in *;
    try (by apply Hloop; split;
           [apply insert_subseteq | unfold h1; rewrite lookup_insert_eq, fmap_replicate]).
  unfold mret. simpl.
  destruct Hloop as [Hsub Hlf]; [|done].
  split; [by apply insert_subseteq|].
  unfold h1. by rewrite lookup_insert_eq, fmap_replicate.
Qed.
(** *** The precedence loop reads only *)

Lemma h_check_precedence_eq (lf : positive) (fts : list Z) (h : heap) :
  h0 ⊆ h → h !! lf = Some (HInt <$> fts) →
  h_check_precedence self start_times lf h
  = check_precedence inst (view h0 start_times) fts.
Proof using Hrepr Hsts.
  intros Hsub Hlf. unfold h_check_precedence, check_precedence.
  rewrite (repr_nb_tasks _ _ _ Hrepr).
  apply for_each_ext. intros i [] _. rewrite succ_row_read by done.
  destruct (py_index (successors inst) i) as [succs| |]; simpl; [|done..].
  apply for_each_ext. intros j [] _.
  unfold h_precedence_step, precedence_step.
  by rewrite (h_ints_lookup _ _ _ Hlf), (view_weaken h0 h).
Qed.

(** *** The capacity loop writes only its new lists of events *)

Lemma h_collect_step_sim (lf le : positive) (fts : list Z) (r i : Z)
    (evs : list event) (h : heap) :
  h0 !! le = None → le ≠ lf →
  h0 ⊆ h ∧ h !! lf = Some (HInt <$> fts)
  ∧ h !! le = Some (tuple_of_event <$> evs) →
  sim (λ evs' (_ : unit) h',
         h0 ⊆ h' ∧ h' !! lf = Some (HInt <$> fts)
         ∧ h' !! le = Some (tuple_of_event <$> evs'))
    (λ h', h0 ⊆ h')
    (collect_step inst (view h0 task_resources) (view h0 start_times) fts r i evs)
    (h_collect_step self task_resources start_times lf le r i () h).
Proof using All.
  intros Hfresh Hne (Hsub & Hlf & Hle).
  unfold collect_step, h_collect_step, sbind, reading.
  rewrite !(view_weaken h0 h) by done.
  destruct (py_getitem (view h0 task_resources) i) as [tr| |]; simpl; [|done..].
  destruct (py_eq tr r); [|done].
  rewrite (view_weaken h0 h start_times) by done.
  destruct (py_getitem (view h0 start_times) i) as [st| |]; simpl; [|done..].
  rewrite (h_ints_lookup _ _ _ Hlf). simpl.
  destruct (py_index fts i) as [ft| |]; simpl; [|done..].
  rewrite weight_row_read by done.
  destruct (py_index (weights inst) r) as [wrow| |]; simpl; [|done..].
  destruct (py_index wrow i) as [w| |]; simpl; [|done..].
  destruct (as_int st) as [t|]; simpl; [|done].
  unfold contents. rewrite Hle. simpl.
  split; [by apply insert_subseteq_r|].
  split; [by rewrite lookup_insert_ne|].
  by rewrite lookup_insert_eq, fmap_app.
Qed.

Lemma h_check_capacity_sim (lf : positive) (fts : list Z) (h : heap) :
  h0 ⊆ h ∧ h !! lf = Some (HInt <$> fts) →
  sim (λ (_ _ : unit) h', h0 ⊆ h' ∧ h' !! lf = Some (HInt <$> fts))
    (λ h', h0 ⊆ h')
    (check_capacity inst (view h0 task_resources) (view h0 start_times) fts)
    (h_check_capacity self task_resources start_times lf h).
Proof using All.
  intros Hinv. unfold check_capacity, h_check_capacity.
  rewrite (repr_nb_resources _ _ _ Hrepr), (repr_nb_tasks _ _ _ Hrepr).
  apply (m_for_each_sim
    (λ (_ _ : unit) h', h0 ⊆ h' ∧ h' !! lf = Some (HInt <$> fts))); [|done].
  clear h Hinv. intros r [] [] h _ [Hsub Hlf].
  unfold sbind at 1. unfold alloc.
  set (le := fresh (dom h)).
  assert (h !! le = None) as Hle by (apply not_elem_of_dom, is_fresh).
  assert (le ≠ lf) as Hne by congruence.
  assert (h0 !! le = None) as Hfresh by (by eapply lookup_weaken_None).
  apply (sim_bind
    (λ evs' (_ : unit) h',
       h0 ⊆ h' ∧ h' !! lf = Some (HInt <$> fts)
       ∧ h' !! le = Some (tuple_of_event <$> evs'))).
  - apply m_for_each_sim.
    + intros i evs [] h1 _ Hinv. by apply h_collect_step_sim.
    + split; [by apply insert_subseteq_r|].
      split; [by rewrite lookup_insert_ne | by rewrite lookup_insert_eq].
  - intros evs [] h2 (Hsub2 & Hlf2 & Hle2).
    unfold sbind, sort_in_place, reading, mret.
    rewrite (h_events_lookup _ _ _ Hle2).
    rewrite (h_events_lookup _ _ (sort_events evs)) by apply lookup_insert_eq.
    assert (h0 ⊆ <[le := tuple_of_event <$> sort_events evs]> h2) as Hsub3
      by (by apply insert_subseteq_r).
    rewrite (for_each_ext _ (h_sweep_step self _ r) (sweep_step inst r)).
    2:{ intros e u _. unfold h_sweep_step, sweep_step.
        by rewrite capacity_read. }
    destruct (for_each _ _ _) as [u| |]; simpl; [|done..].
    split; [done|]. by rewrite lookup_insert_ne.
Qed.
End refinement.

Lemma h_check_format_sim (self : hinstance) (inst : instance) (h0 : heap)
    (solution : hval) :
  heap_repr h0 self inst → closed_candidate h0 solution →
  match h_check_format self solution h0 with
  | Next (a, b) =>
      check_format inst (candidate_view h0 solution) = Next (view h0 a, view h0 b)
      ∧ readable h0 a ∧ readable h0 b
  | Return s => check_format inst (candidate_view h0 solution) = Return s
  | Raise e => check_format inst (candidate_view h0 solution) = Raise e
  end.
Proof.
  intros Hrepr [_ Hitems]. unfold h_check_format.
  rewrite (repr_nb_tasks _ _ _ Hrepr).
  assert (∀ items mk,
            (mk = PList ∨ mk = PTuple) → Forall (readable h0) items →
            match
              match items with
              | [a; b] =>
                  let! n1 := py_len (view h0 a) in
                  if negb (n1 =? nb_tasks inst) then Return Penalty
                  else
                    let! n2 := py_len (view h0 b) in
                    if negb (n2 =? nb_tasks inst) then Return Penalty
                    else Next (a, b)
              | _ => Return Penalty
              end
            with
            | Next (a, b) =>
                check_format inst (mk (view h0 <$> items))
                = Next (view h0 a, view h0 b)
                ∧ readable h0 a ∧ readable h0 b
            | Return s => check_format inst (mk (view h0 <$> items)) = Return s
            | Raise e => check_format inst (mk (view h0 <$> items)) = Raise e
            end) as Hgen.
  { intros items mk Hmk Hall.
    destruct items as [|a [|b [|c items]]];
      try (by destruct Hmk as [-> | ->]).
    apply Forall_cons in Hall as [Ha Hall]. apply Forall_cons in Hall as [Hb _].
    assert (check_format inst (mk (view h0 <$> [a; b]))
            = let! n1 := py_len (view h0 a) in
              if negb (n1 =? nb_tasks inst) then Return Penalty
              else
                let! n2 := py_len (view h0 b) in
                if negb (n2 =? nb_tasks inst) then Return Penalty
                else Next (view h0 a, view h0 b)) as ->
      by (by destruct Hmk as [-> | ->]).
    destruct (py_len (view h0 a)) as [n1| |]; simpl; [|done..].
    destruct (negb (n1 =? nb_tasks inst)); [done|].
    destruct (py_len (view h0 b)) as [n2| |]; simpl; [|done..].
    by destruct (negb (n2 =? nb_tasks inst)). }
  destruct solution as [| | | |items|l]; simpl; try done.
  - apply (Hgen items PTuple); auto.
  - apply (Hgen (contents h0 l) PList); auto.
Qed.

Lemma h_evaluate_solution_sim (self : hinstance) (inst : instance) (h0 : heap)
    (solution : hval) :
  heap_repr h0 self inst → closed_candidate h0 solution →
  ∃ h1, h_evaluate_solution self solution h0
        = (evaluate_solution inst (candidate_view h0 solution), h1)
        ∧ h0 ⊆ h1.
Proof.
  intros Hrepr Hclosed.
  pose proof (h_check_format_sim _ _ _ _ Hrepr Hclosed) as Hfmt.
  unfold h_evaluate_solution, evaluate_solution.
  unfold sbind at 1. unfold reading at 1.
  destruct (h_check_format self solution h0) as [[a b]| |];
    [destruct Hfmt as (-> & Ha & Hb) | rewrite Hfmt; by exists h0..].
  simpl.
  pose proof (h_compute_finish_times_sim self inst h0 Hrepr a b Ha Hb) as H1.
  unfold sbind at 1.
  destruct (compute_finish_times inst (view h0 a) (view h0 b)) as [fts| |],
    (h_compute_finish_times self a b h0) as [[lf| |] h1]; simpl in H1 |- *;
    try done; try (destruct H1 as [-> ?]; by exists h1).
  destruct H1 as (Hsub1 & Hfresh & Hlf1).
  unfold sbind at 1. unfold reading at 1.
  rewrite (h_check_precedence_eq self inst h0 Hrepr b Hb lf fts h1) by done.
  destruct (check_precedence inst (view h0 b) fts) as [[]| |]; simpl;
    [|by exists h1..].
  pose proof (h_check_capacity_sim self inst h0 Hrepr a b Ha Hb lf fts h1
                (conj Hsub1 Hlf1)) as H2.
  unfold sbind at 1.
  destruct (check_capacity inst (view h0 a) (view h0 b) fts) as [[]| |],
    (h_check_capacity self a b lf h1) as [[[]| |] h2]; simpl in H2 |- *;
    try done; try (destruct H2 as [-> ?]; by exists h2).
  destruct H2 as [Hsub2 Hlf2].
  unfold sbind, reading. rewrite (h_ints_lookup _ _ _ Hlf2).
  exists h2. by destruct (py_max fts).
Qed.

Lemma readable_weaken (h h' : heap) (v : hval) :
  readable h v → h ⊆ h' → readable h' v.
Proof.
  destruct v; simpl; try done. intros [items Hl] Hsub.
  exists items. by eapply lookup_weaken.
Qed.

Lemma closed_candidate_weaken (h h' : heap) (solution : hval) :
  closed_candidate h solution → h ⊆ h' → closed_candidate h' solution.
Proof.
  intros [Hv Hitems] Hsub. split; [by eapply readable_weaken|].
  destruct solution; try done.
  - eapply Forall_impl; [done|]. intros; by eapply readable_weaken.
  - destruct Hv as [items Hl]. unfold contents in *.
    rewrite Hl, (lookup_weaken _ _ _ _ Hl Hsub) in *. simpl in *.
    eapply Forall_impl; [done|]. intros; by eapply readable_weaken.
Qed.

(** ** Purity and determinism *)

(** C9: with the instance's tables and the candidate's lists held in a
    store, a call of the evaluator leaves every list object that existed
    before it with the items it had (it writes only to the lists it
    creates itself), and a second call with the same instance and
    candidate, run in the store the first one left, returns the same
    outcome. *)
Theorem evaluate_solution_is_pure (self : hinstance) (inst : instance)
    (solution : hval) (h h1 h2 : heap) (r1 r2 : outcome Empty_set) :
  heap_repr h self inst → closed_candidate h solution →
  h_evaluate_solution self solution h = (r1, h1) →
  h_evaluate_solution self solution h1 = (r2, h2) →
  r1 = r2 ∧ h ⊆ h1 ∧ h1 ⊆ h2
  ∧ r1 = evaluate_solution inst (candidate_view h solution).
Proof.
  intros Hrepr Hclosed Hrun1 Hrun2.
  destruct (h_evaluate_solution_sim _ _ _ _ Hrepr Hclosed) as (h1' & Heq1 & Hsub1).
  rewrite Hrun1 in Heq1. injection Heq1 as -> <-.
  pose proof (heap_repr_weaken _ _ _ _ Hrepr Hsub1) as Hrepr1.
  pose proof (closed_candidate_weaken _ _ _ Hclosed Hsub1) as Hclosed1.
  destruct (h_evaluate_solution_sim _ _ _ _ Hrepr1 Hclosed1)
    as (h2' & Heq2 & Hsub2).
  rewrite Hrun2 in Heq2. injection Heq2 as -> <-.
  by rewrite (candidate_view_weaken _ _ _ Hclosed Hsub1).
Qed.

Lemma sample_heap_repr : heap_repr sample_heap sample_self scenario_4_instance.
Proof.
  split; try reflexivity.
  - exists [3%positive; 4%positive]. split; [reflexivity|].
    repeat constructor.
  - exists [6%positive]. split; [reflexivity|]. repeat constructor.
  - exists [10%positive; 10%positive]. split; [reflexivity|].
    repeat constructor.
Qed.

Lemma evaluate_solution_is_pure_witness :
  let run1 :=
    h_evaluate_solution sample_self (HTuple [HRef 8; HRef 9]) sample_heap in
  let run2 := h_evaluate_solution sample_self (HTuple [HRef 8; HRef 9]) run1.2 in
  run1.1 = run2.1 ∧ sample_heap ⊆ run1.2 ∧ run1.2 ⊆ run2.2
  ∧ run1.1 = evaluate_solution scenario_4_instance
               (candidate_view sample_heap (HTuple [HRef 8; HRef 9])).
Proof.
  apply (evaluate_solution_is_pure sample_self scenario_4_instance
           (HTuple [HRef 8; HRef 9]) sample_heap).
  - apply sample_heap_repr.
  - split; [done|]. repeat constructor; by eexists.
  - apply surjective_pairing.
  - apply surjective_pairing.
Defined.

(** ** Further properties of the evaluator *)



(** X2: on a well-formed instance the outcome depends only on the
    integers a candidate holds: a list or a tuple as any of the three
    containers, [True] for 1 or [False] for 0, give the same outcome. *)
Theorem outcome_depends_on_integers_only (inst : instance)
    (solution1 solution2 : pyval) (res st : list Z) :
  wf_instance inst →
  schedule_of solution1 = Some (res, st) →
  schedule_of solution2 = Some (res, st) →
  evaluate_solution inst solution1 = evaluate_solution inst solution2.
Proof.
  intros Hwf H1 H2.
  by rewrite (evaluate_solution_schedule _ _ _ _ Hwf H1),
    (evaluate_solution_schedule _ _ _ _ Hwf H2).
Qed.

Lemma outcome_depends_on_integers_only_witness :
  evaluate_solution scenario_4_instance (candidate [0; 0] [0; 3])
  = evaluate_solution scenario_4_instance
      (PList [PTuple [PBool false; PInt 0]; PTuple [PBool false; PInt 3]]).
Proof.
  apply (outcome_depends_on_integers_only scenario_4_instance _ _ [0; 0] [0; 3]).
  - apply scenario_4_wf.
  - reflexivity.
  - reflexivity.
Defined.

Lemma check_capacity_no_task (inst : instance) (tr sts : pyval) (fts : list Z) :
  nb_tasks inst = 0 → check_capacity inst tr sts fts = Next ().
Proof.
  intros Hn. unfold check_capacity. rewrite Hn.
  induction (range (nb_resources inst)) as [|r rs IH]; [done|].
  simpl. apply IH.
Qed.

(** X3: with [nb_tasks = 0] the empty schedule passes every check and
    the evaluator raises [ValueError] at [max(finish_times)] instead of
    returning a score. *)
Theorem no_task_raises_ValueError (inst : instance) (solution : pyval) :
  nb_tasks inst = 0 →
  schedule_of solution = Some ([], []) →
  evaluate_solution inst solution = Raise ValueError.
Proof.
  intros Hn (tr & sts & Hpair & Hres & Hst)%schedule_of_inv.
  unfold evaluate_solution.
  assert (check_format inst solution = Next (tr, sts)) as ->.
  { destruct Hpair as [-> | ->]; simpl;
      rewrite (as_int_seq_len _ _ Hres), (as_int_seq_len _ _ Hst); simpl;
      by rewrite Hn. }
  simpl. unfold compute_finish_times, check_precedence. rewrite Hn. simpl.
  by rewrite check_capacity_no_task.
Qed.

Lemma no_task_raises_ValueError_witness :
  evaluate_solution (mk_instance [5; 7] [] [[]; []] []) (PList [PTuple []; PList []])
  = Raise ValueError.
Proof.
  apply (no_task_raises_ValueError (mk_instance [5; 7] [] [[]; []] [])); reflexivity.
Defined.

Lemma demand_app (l1 l2 : list event) : demand (l1 ++ l2) = demand l1 + demand l2.
Proof.
  unfold demand. induction l1 as [|e l1 IH]; csimpl; [done|]. rewrite IH. lia.
Qed.

(** The positive deltas of a resource's events add up to the absolute
    weights of the tasks assigned to it. *)
Lemma demand_events_of (inst : instance) (res st : list Z) (r : Z) :
  demand (events_of inst res st r) = assigned_weight inst res r.
Proof.
  unfold events_of, assigned_weight.
  induction (seq 0 (length res)) as [|i ks IH]; csimpl; [done|].
  rewrite demand_app, IH. unfold task_events.
  destruct (default 0 (res !! i) =? r); unfold demand; simpl; lia.
Qed.

(** X4: when the absolute weights of the tasks assigned to each resource
    add up to no more than its capacity, the capacity check cannot fail,
    whatever the start times: a schedule of integers is then scored with
    the penalty only for its shape, resources or precedence. *)
Theorem light_load_passes_capacity (inst : instance) (solution : pyval)
    (res st : list Z) :
  wf_instance inst →
  schedule_of solution = Some (res, st) →
  (∀ r cap, capacity inst !! r = Some cap →
            assigned_weight inst res (Z.of_nat r) ≤ cap) →
  capacity_ok inst res st = true
  ∧ evaluate_solution inst solution
    = if well_shaped inst res st && resources_ok inst res
         && precedence_ok inst res st
      then let! makespan := py_max (finish_times_of inst res st) in
           Return (Makespan makespan)
      else Return Penalty.
Proof.
  intros Hwf Hsched Hload.
  assert (capacity_ok inst res st = true) as Hcap.
  { unfold capacity_ok. apply forallb_forall. intros r Hr%list_elem_of_In.
    apply elem_of_seq in Hr. unfold resource_sweep_ok.
    destruct (lookup_lt_is_Some_2 (capacity inst) r) as [cap Hc].
    { destruct Hwf. lia. }
    rewrite Hc. simpl. apply sweep_ok_demand.
    rewrite (demand_perm _ _ (sort_events_perm _)), demand_events_of.
    specialize (Hload r cap Hc). lia. }
  split; [done|].
  rewrite (evaluate_solution_schedule _ _ _ _ Hwf Hsched).
  unfold feasible. rewrite Hcap. by rewrite andb_true_r.
Qed.

Lemma light_load_passes_capacity_witness :
  capacity_ok scenario_4_instance [0; 0] [0; 1] = true
  ∧ evaluate_solution scenario_4_instance (candidate [0; 0] [0; 1])
    = if well_shaped scenario_4_instance [0; 0] [0; 1]
         && resources_ok scenario_4_instance [0; 0]
         && precedence_ok scenario_4_instance [0; 0] [0; 1]
      then let! makespan :=
             py_max (finish_times_of scenario_4_instance [0; 0] [0; 1]) in
           Return (Makespan makespan)
      else Return Penalty.
Proof.
  apply (light_load_passes_capacity scenario_4_instance (candidate [0; 0] [0; 1])
           [0; 0] [0; 1]).
  - apply scenario_4_wf.
  - reflexivity.
  - intros [|r] cap Hcap; simpl in Hcap; [|done].
    injection Hcap as <-. vm_compute. discriminate.
Defined.

(** X5: successor ids are not validated.  With the tables of a
    well-formed instance and a schedule of integers that passes the
    shape and resource checks, a first successor of task 0 outside
    [[-nb_tasks, nb_tasks)] makes the evaluator raise [IndexError] at
    [start_times[succ]]. *)
Theorem successor_out_of_range_raises (inst : instance) (solution : pyval)
    (res st : list Z) (j : Z) (rest : list Z) (others : list (list Z)) :
  wf_instance inst → 0 < nb_tasks inst →
  schedule_of solution = Some (res, st) →
  well_shaped inst res st = true → resources_ok inst res = true →
  ¬ (- nb_tasks inst ≤ j < nb_tasks inst) →
  evaluate_solution (with_successors inst ((j :: rest) :: others)) solution
  = Raise IndexError.
Proof.
  intros Hwf Hpos (tr & sts & Hpair & Hres & Hst)%schedule_of_inv Hshape Hok Hj.
  unfold well_shaped in Hshape. apply andb_true_iff in Hshape as [H1 H2].
  apply Z.eqb_eq in H1, H2.
  unfold evaluate_solution.
  assert (check_format (with_successors inst ((j :: rest) :: others)) solution
          = Next (tr, sts)) as ->.
  { destruct Hpair as [-> | ->]; simpl;
      rewrite (as_int_seq_len _ _ Hres), (as_int_seq_len _ _ Hst); simpl;
      replace (Z.of_nat (length res) =? nb_tasks inst) with true by lia;
      replace (Z.of_nat (length st) =? nb_tasks inst) with true by lia; done. }
  simpl.
  change (compute_finish_times (with_successors inst ((j :: rest) :: others)) tr sts)
    with (compute_finish_times inst tr sts).
  rewrite (compute_finish_times_spec inst Hwf tr sts res st) by (done || lia).
  rewrite Hok. simpl.
  unfold check_precedence. simpl.
  assert (range (nb_tasks inst) = 0 :: (Z.of_nat <$> seq 1 (Z.to_nat (nb_tasks inst) - 1)))
    as ->.
  { unfold range. destruct (Z.to_nat (nb_tasks inst)) as [|n] eqn:E; [lia|].
    simpl. by rewrite Nat.sub_0_r. }
  simpl. unfold precedence_step at 1.
  rewrite (py_index_nat _ 0%nat (finish_time inst res st 0)).
  2:{ unfold finish_times_of. destruct res; simpl in *; [lia|done]. }
  simpl.
  assert (py_getitem sts j = Raise IndexError) as ->; [|done].
  apply as_int_seq_items in Hst as (l & Hsts & Hl).
  apply Forall2_length in Hl.
  assert (py_index l j = Raise IndexError) as Hidx.
  { unfold py_index. destruct (j <? 0) eqn:E.
    - replace ((j + Z.of_nat (length l) <? 0)) with true by lia. done.
    - replace (j <? 0) with false by lia.
      replace (Z.of_nat (length l) <=? j) with true by lia. done. }
  by destruct Hsts as [-> | ->].
Qed.

Lemma successor_out_of_range_raises_witness :
  evaluate_solution (with_successors scenario_4_instance [[2]; []])
    (candidate [0; 0] [0; 3])
  = Raise IndexError.
Proof.
  apply (successor_out_of_range_raises scenario_4_instance
           (candidate [0; 0] [0; 3]) [0; 0] [0; 3] 2 [] [[]]).
  - apply scenario_4_wf.
  - simpl. lia.
  - reflexivity.
  - reflexivity.
  - reflexivity.
  - simpl. lia.
Defined.

(** *** Moving a schedule in time *)

Lemma insert_event_shift (c : Z) (e : event) (l : list event) :
  insert_event (e.1 + c, e.2) ((λ x : event, (x.1 + c, x.2)) <$> l)
  = (λ x : event, (x.1 + c, x.2)) <$> insert_event e l.
Proof.
  induction l as [|e' l IH]; csimpl; [done|].
  replace (e.1 + c <=? e'.1 + c) with (e.1 <=? e'.1) by lia.
  destruct (e.1 <=? e'.1); csimpl; [done|]. by rewrite IH.
Qed.

Lemma sort_events_shift (c : Z) (l : list event) :
  sort_events ((λ x : event, (x.1 + c, x.2)) <$> l)
  = (λ x : event, (x.1 + c, x.2)) <$> sort_events l.
Proof.
  induction l as [|e l IH]; csimpl; [done|].
  fold (sort_events l). fold (sort_events ((λ x : event, (x.1 + c, x.2)) <$> l)).
  rewrite IH. apply insert_event_shift.
Qed.

Lemma sweep_ok_shift (c cap usage : Z) (l : list event) :
  sweep_ok cap usage ((λ x : event, (x.1 + c, x.2)) <$> l) = sweep_ok cap usage l.
Proof.
  revert usage. induction l as [|e l IH]; intros usage; csimpl; [done|].
  by rewrite IH.
Qed.

Lemma foldl_max_shift (c a : Z) (l : list Z) :
  foldl Z.max (a + c) ((λ x, x + c) <$> l) = foldl Z.max a l + c.
Proof.
  revert a. induction l as [|x l IH]; intros a; csimpl; [done|].
  rewrite <- IH. f_equal. lia.
Qed.

Section shift.
Context (inst : instance) (res st : list Z) (c : Z).
Context (Hlen : length res = length st).

Lemma start_shift (i : nat) :
  (i < length st)%nat →
  default 0 (((λ s, s + c) <$> st) !! i) = default 0 (st !! i) + c.
Proof using Type.
  clear Hlen. intros Hi. rewrite list_lookup_fmap.
  destruct (lookup_lt_is_Some_2 st i Hi) as [s ->]. done.
Qed.

Lemma finish_time_shift (i : nat) :
  (i < length st)%nat →
  finish_time inst res ((λ s, s + c) <$> st) i = finish_time inst res st i + c.
Proof using Type.
  clear Hlen. intros Hi. unfold finish_time. rewrite start_shift by done. lia.
Qed.

Lemma finish_times_of_shift :
  finish_times_of inst res ((λ s, s + c) <$> st)
  = (λ x, x + c) <$> finish_times_of inst res st.
Proof using Hlen.
  unfold finish_times_of. rewrite <- list_fmap_compose.
  apply list_fmap_ext. intros k i Hi. simpl.
  apply lookup_seq in Hi as [-> Hi]. apply finish_time_shift. lia.
Qed.

Lemma events_of_shift (r : Z) :
  events_of inst res ((λ s, s + c) <$> st) r
  = (λ x : event, (x.1 + c, x.2)) <$> events_of inst res st r.
Proof using Hlen.
  unfold events_of.
  assert (∀ ks, Forall (λ i, (i < length st)%nat) ks →
            ks ≫= task_events inst res ((λ s, s + c) <$> st) r
            = (λ x : event, (x.1 + c, x.2)) <$> (ks ≫= task_events inst res st r))
    as Hgen.
  { induction 1 as [|i ks Hi Hks IH]; csimpl; [done|].
    rewrite IH, fmap_app. f_equal. unfold task_events.
    rewrite finish_time_shift, start_shift by done.
    by destruct (default 0 (res !! i) =? r). }
  apply Hgen. apply Forall_forall. intros i Hi%elem_of_seq. lia.
Qed.

Lemma capacity_ok_shift :
  capacity_ok inst res ((λ s, s + c) <$> st) = capacity_ok inst res st.
Proof using Hlen.
  unfold capacity_ok. apply forallb_ext_in. intros r _.
  unfold resource_sweep_ok.
  by rewrite events_of_shift, sort_events_shift, sweep_ok_shift.
Qed.

Lemma precedence_ok_shift :
  wf_instance inst → Z.of_nat (length res) = nb_tasks inst →
  precedence_ok inst res ((λ s, s + c) <$> st) = precedence_ok inst res st.
Proof using Hlen.
  intros Hwf Hn. unfold precedence_ok.
  apply forallb_ext_in. intros i Hi%elem_of_seq.
  destruct (successors inst !! i) as [succs|] eqn:Hsuccs; simpl; [|done].
  apply forallb_ext_in. intros j Hj. unfold pair_ok.
  destruct Hwf.
  pose proof (Forall_lookup_1 _ _ _ _ wf_succ_range0 Hsuccs) as Hrange.
  pose proof (proj1 (Forall_forall _ _) Hrange j Hj) as Hjr. simpl in Hjr.
  rewrite finish_time_shift, start_shift by lia.
  destruct (finish_time inst res st i <=? default 0 (st !! Z.to_nat j)) eqn:E; lia.
Qed.
End shift.

(** X6: start times are not required to be non-negative and only their
    differences matter: on a well-formed instance, adding the same
    integer to every start time of a schedule of integers leaves the
    penalty (and an exception) as it is and adds that integer to the
    makespan. *)
Theorem outcome_moves_with_start_times (inst : instance)
    (solution solution' : pyval) (res st : list Z) (c : Z) :
  wf_instance inst →
  schedule_of solution = Some (res, st) →
  schedule_of solution' = Some (res, (λ s, s + c) <$> st) →
  evaluate_solution inst solution'
  = shift_outcome c (evaluate_solution inst solution).
Proof.
  intros Hwf Hsched Hsched'.
  rewrite (evaluate_solution_schedule _ _ _ _ Hwf Hsched),
    (evaluate_solution_schedule _ _ _ _ Hwf Hsched').
  unfold feasible, well_shaped. rewrite length_fmap.
  destruct (Z.of_nat (length res) =? nb_tasks inst) eqn:E1; [|done].
  destruct (Z.of_nat (length st) =? nb_tasks inst) eqn:E2; [|done].
  assert (length res = length st) as Hlen by lia. simpl.
  rewrite (precedence_ok_shift inst res st c Hlen Hwf) by lia.
  rewrite (capacity_ok_shift inst res st c Hlen).
  destruct (resources_ok inst res && precedence_ok inst res st
            && capacity_ok inst res st); [|done].
  rewrite (finish_times_of_shift inst res st c Hlen).
  destruct (finish_times_of inst res st) as [|a l]; csimpl; [done|].
  by rewrite foldl_max_shift.
Qed.

Lemma outcome_moves_with_start_times_witness :
  evaluate_solution scenario_4_instance (candidate [0; 0] [-7; -4])
  = shift_outcome (-7) (evaluate_solution scenario_4_instance
                          (candidate [0; 0] [0; 3])).
Proof.
  apply (outcome_moves_with_start_times scenario_4_instance
           (candidate [0; 0] [0; 3]) (candidate [0; 0] [-7; -4]) [0; 0] [0; 3] (-7)).
  - apply scenario_4_wf.
  - reflexivity.
  - reflexivity.
Defined.

(** ** random_solution *)

(** A loop that cannot fail, with an invariant on what has been
    processed. *)
Lemma for_each_total_inv {A S : Type} (I : list A → S → Prop) (xs : list A)
    (body : A → S → outcome S) (s0 : S) :
  I [] s0 →
  (∀ pre x post s, xs = pre ++ x :: post → I pre s →
     ∃ s', body x s = Next s' ∧ I (pre ++ [x]) s') →
  ∃ s', for_each xs body s0 = Next s' ∧ I xs s'.
Proof.
  intros H0 Hstep.
  assert (∀ ys pre s, xs = pre ++ ys → I pre s →
            ∃ s', for_each ys body s = Next s' ∧ I xs s') as Hgen.
  { induction ys as [|y ys IH]; intros pre s Hxs Hs; simpl.
    - exists s. rewrite app_nil_r in Hxs. by subst.
    - destruct (Hstep pre y ys s Hxs Hs) as (s1 & -> & Hs1). simpl.
      apply (IH (pre ++ [y])); [|done]. by rewrite <- app_assoc. }
  by apply (Hgen xs [] s0).
Qed.

Lemma range_split (n : Z) (pre post : list Z) (x : Z) :
  range n = pre ++ x :: post →
  x = Z.of_nat (length pre) ∧ 0 ≤ x < n.
Proof.
  intros Hsplit.
  assert (range n !! length pre = Some x) as Hx.
  { rewrite Hsplit. by rewrite list_lookup_middle. }
  unfold range in Hx. rewrite list_lookup_fmap in Hx.
  destruct (seq 0 (Z.to_nat n) !! length pre) as [k|] eqn:Hk; [|done].
  apply lookup_seq in Hk as [-> Hlt]. simpl in Hx. injection Hx as <-. lia.
Qed.

Lemma foldl_keep {A : Type} (P : A → bool) (acc : list A) (xs : list A) :
  foldl (λ acc x, if P x then acc ++ [x] else acc) acc xs
  = acc ++ filter (λ x, P x = true) xs.
Proof.
  revert acc. induction xs as [|x xs IH]; intros acc; simpl.
  - by rewrite app_nil_r.
  - rewrite IH. destruct (P x) eqn:E.
    + rewrite filter_cons_True by done. by rewrite <- app_assoc.
    + rewrite filter_cons_False; [done|]. by rewrite E.
Qed.

Lemma compatible_resources_spec (inst : instance) (k : nat) :
  wf_instance inst → Z.of_nat k < nb_tasks inst →
  for_each (range (nb_resources inst)) (compatible_step inst (Z.of_nat k)) []
  = Next (filter (λ r, compatible inst k r = true) (range (nb_resources inst))).
Proof.
  intros Hwf Hk.
  rewrite (for_each_guarded (λ _, True) (λ _, true)
    (λ r acc, if compatible inst k r then acc ++ [r] else acc)).
  - replace (forallb _ _) with true by (symmetry; by apply forallb_forall).
    f_equal. apply (foldl_keep (compatible inst k) []).
  - intros r acc Hr%elem_of_range _. split; [|done].
    destruct (proc_lookup inst k r Hwf Hk Hr) as (prow & Hprow & Hp).
    destruct (weight_lookup inst k r Hwf Hk Hr) as (wrow & Hwrow & Hw).
    unfold compatible_step, compatible.
    rewrite (py_index_nat _ _ _ Hprow). simpl.
    rewrite (py_index_Z _ _ _ (proj1 Hr) Hp). simpl.
    destruct (proc inst k r =? 0); simpl; [|done].
    rewrite (py_index_Z _ _ _ (proj1 Hr) Hwrow). simpl.
    rewrite (py_index_nat _ _ _ Hw). simpl.
    by destruct (weight inst r k =? 0).
  - done.
Qed.

Lemma random_choice_elem {A : Type} (src : rng) (k : nat) (l : list A) :
  l ≠ [] → ∃ x, random_choice src k l = Next x ∧ x ∈ l.
Proof.
  intros Hne. unfold random_choice, randbelow.
  assert (0 < Z.of_nat (length l)) as Hlen by (destruct l; simpl; [done|lia]).
  pose proof (Z.mod_pos_bound (Z.of_nat (src k)) _ Hlen) as Hb.
  destruct (lookup_lt_is_Some_2 l
              (Z.to_nat (Z.of_nat (src k) `mod` Z.of_nat (length l)))) as [x Hx];
    [lia|].
  exists x. split; [|by eapply list_elem_of_lookup_2].
  destruct l; [done|]. apply py_index_Z; [lia | done].
Qed.

Lemma random_randint_range (src : rng) (k : nat) (b : Z) :
  0 ≤ b → ∃ s, random_randint src k 0 b = Next s ∧ 0 ≤ s ≤ b.
Proof.
  intros Hb. unfold random_randint, randbelow.
  replace (b <? 0) with false by lia.
  pose proof (Z.mod_pos_bound (Z.of_nat (src k)) (b - 0 + 1) ltac:(lia)).
  eexists. split; [done|]. lia.
Qed.

(** What the generator assigns to task [i]: a compatible resource, or 0
    when no resource is compatible. *)
Lemma random_solution_step_spec (inst : instance) (src : rng) (k d : nat)
    (trs sts : list Z) :
  wf_instance inst → 0 ≤ horizon inst → Z.of_nat k < nb_tasks inst →
  ∃ d' r s,
    random_solution_step inst src (Z.of_nat k) (d, trs, sts)
    = Next (d', trs ++ [r], sts ++ [s])
    ∧ 0 ≤ s ≤ horizon inst
    ∧ ((0 ≤ r < nb_resources inst ∧ compatible inst k r = true)
       ∨ (r = 0 ∧ ∀ r', 0 ≤ r' < nb_resources inst → compatible inst k r' = false)).
Proof.
  intros Hwf Hh Hk. unfold random_solution_step.
  rewrite compatible_resources_spec by done. simpl.
  destruct (filter _ _) as [|r0 compat] eqn:Hcompat.
  - simpl. destruct (random_randint_range src d (horizon inst) Hh) as (s & -> & Hs).
    simpl. exists (S d), 0, s. split; [done|]. split; [done|]. right.
    split; [done|]. intros r' Hr'. apply not_true_is_false. intros Hc.
    assert (r' ∈ filter (λ r, compatible inst k r = true)
                   (range (nb_resources inst))) as Hin.
    { apply list_elem_of_filter. split; [done|]. by apply elem_of_range. }
    rewrite Hcompat in Hin. by apply not_elem_of_nil in Hin.
  - destruct (random_choice_elem src d (r0 :: compat)) as (r & Hr & Hin); [done|].
    rewrite Hr. simpl.
    destruct (random_randint_range src (S d) (horizon inst) Hh) as (s & -> & Hs).
    simpl. exists (S (S d)), r, s. split; [done|]. split; [done|]. left.
    rewrite <- Hcompat in Hin. apply list_elem_of_filter in Hin as [Hc Hrange].
    by apply elem_of_range in Hrange.
Qed.

Lemma schedule_of_candidate (res st : list Z) :
  schedule_of (candidate res st) = Some (res, st).
Proof.
  unfold schedule_of, candidate, as_int_seq.
  by rewrite !(mapM_fmap_cancel PInt as_int).
Qed.

Lemma random_solution_spec (inst : instance) (src : rng) :
  wf_instance inst → 0 ≤ horizon inst →
  ∃ res st,
    random_solution inst src = Next (candidate res st)
    ∧ Z.of_nat (length res) = nb_tasks inst
    ∧ Z.of_nat (length st) = nb_tasks inst
    ∧ Forall (λ s, 0 ≤ s ≤ horizon inst) st
    ∧ ∀ i r, res !! i = Some r →
        (0 ≤ r < nb_resources inst ∧ compatible inst i r = true)
        ∨ (r = 0 ∧ ∀ r', 0 ≤ r' < nb_resources inst → compatible inst i r' = false).
Proof.
  intros Hwf Hh. unfold random_solution.
  destruct (for_each_total_inv
    (λ pre (s : nat * list Z * list Z),
       length s.1.2 = length pre ∧ length s.2 = length pre
       ∧ Forall (λ x, 0 ≤ x ≤ horizon inst) s.2
       ∧ ∀ i r, s.1.2 !! i = Some r →
           (0 ≤ r < nb_resources inst ∧ compatible inst i r = true)
           ∨ (r = 0 ∧ ∀ r', 0 ≤ r' < nb_resources inst
                        → compatible inst i r' = false))
    (range (nb_tasks inst)) (random_solution_step inst src) (0%nat, [], []))
    as ([[d res] st] & -> & Hlr & Hls & Hst & Hres).
  - simpl. repeat split; done.
  - intros pre x post [[d trs] sts] Hsplit (Hlr & Hls & Hst & Hres).
    apply range_split in Hsplit as [-> Hx]. simpl in *.
    destruct (random_solution_step_spec inst src (length pre) d trs sts)
      as (d' & r & s & Hstep & Hs & Hr); [done..|lia|].
    exists (d', trs ++ [r], sts ++ [s]). split; [done|]. simpl.
    rewrite !length_app. simpl. split; [lia|]. split; [lia|].
    split; [apply Forall_app; split; [done | by constructor]|].
    intros i r' Hi. destruct (decide (i < length trs)%nat) as [Hlt|Hge].
    + rewrite lookup_app_l in Hi by done. by apply Hres.
    + rewrite lookup_app_r in Hi by lia.
      destruct (i - length trs)%nat as [|n] eqn:E; simpl in Hi; [|done].
      injection Hi as <-. replace i with (length pre) by lia. done.
  - simpl in *. exists res, st. split; [done|].
    unfold range in *. rewrite length_fmap, length_seq in *.
    destruct Hwf. repeat split; try done; lia.
Qed.

Lemma chosen_resource_ok (inst : instance) (i : nat) (r : Z) :
  0 ≤ r < nb_resources inst → resource_ok inst i r = compatible inst i r.
Proof.
  intros Hr. unfold resource_ok, compatible.
  replace (0 <=? r) with true by lia.
  by replace (r <? nb_resources inst) with true by lia.
Qed.

(** X7: on a well-formed instance with a non-negative horizon the
    generator does not raise, whatever the random draws; it returns a
    tuple of two lists of [nb_tasks] integers, every start time lies in
    [[0, horizon]], and every task gets a resource that can process it,
    or resource 0 when none can. *)
Theorem random_solution_postcondition (inst : instance) (src : rng) :
  wf_instance inst → 0 ≤ horizon inst →
  ∃ res st,
    random_solution inst src = Next (candidate res st)
    ∧ well_shaped inst res st = true
    ∧ Forall (λ s, 0 ≤ s ≤ horizon inst) st
    ∧ ∀ i r, res !! i = Some r →
        (0 ≤ r < nb_resources inst ∧ compatible inst i r = true)
        ∨ (r = 0 ∧ ∀ r', 0 ≤ r' < nb_resources inst → compatible inst i r' = false).
Proof.
  intros Hwf Hh.
  destruct (random_solution_spec inst src Hwf Hh)
    as (res & st & Hrun & Hlr & Hls & Hst & Hres).
  exists res, st. split; [done|]. split; [|done].
  unfold well_shaped. apply andb_true_iff. split; lia.
Qed.

Lemma random_solution_postcondition_witness :
  ∃ res st,
    random_solution two_resource_instance (λ k, (3 * k + 1)%nat)
    = Next (candidate res st)
    ∧ well_shaped two_resource_instance res st = true
    ∧ Forall (λ s, 0 ≤ s ≤ horizon two_resource_instance) st
    ∧ ∀ i r, res !! i = Some r →
        (0 ≤ r < nb_resources two_resource_instance
         ∧ compatible two_resource_instance i r = true)
        ∨ (r = 0 ∧ ∀ r', 0 ≤ r' < nb_resources two_resource_instance
                     → compatible two_resource_instance i r' = false).
Proof.
  apply (random_solution_postcondition two_resource_instance
           (λ k, (3 * k + 1)%nat)).
  - apply two_resource_wf.
  - simpl. lia.
Defined.

(** X8: when every task has a resource that can process it, what the
    generator returns always passes the shape and resource checks of the
    evaluator, which therefore scores it with the penalty only for a
    precedence or capacity violation. *)
Theorem random_solution_passes_resource_checks (inst : instance) (src : rng) :
  wf_instance inst → 0 ≤ horizon inst →
  (∀ i, Z.of_nat i < nb_tasks inst →
        ∃ r, 0 ≤ r < nb_resources inst ∧ compatible inst i r = true) →
  ∃ res st,
    random_solution inst src = Next (candidate res st)
    ∧ well_shaped inst res st = true
    ∧ resources_ok inst res = true
    ∧ evaluate_solution inst (candidate res st)
      = if precedence_ok inst res st && capacity_ok inst res st
        then let! makespan := py_max (finish_times_of inst res st) in
             Return (Makespan makespan)
        else Return Penalty.
Proof.
  intros Hwf Hh Hall.
  destruct (random_solution_spec inst src Hwf Hh)
    as (res & st & Hrun & Hlr & Hls & Hst & Hres).
  assert (well_shaped inst res st = true) as Hshape.
  { unfold well_shaped. apply andb_true_iff. split; lia. }
  assert (resources_ok inst res = true) as Hok.
  { unfold resources_ok. apply forallb_forall. intros i Hi%list_elem_of_In.
    apply elem_of_seq in Hi.
    destruct (lookup_lt_is_Some_2 res i) as [r Hr]; [lia|].
    rewrite Hr. simpl.
    destruct (Hres i r Hr) as [[Hrange Hc] | [_ Hnone]].
    - by rewrite chosen_resource_ok.
    - destruct (Hall i) as (r' & Hr' & Hc'); [lia|].
      rewrite (Hnone r' Hr') in Hc'. done. }
  exists res, st. split; [done|]. split; [done|]. split; [done|].
  rewrite (evaluate_solution_schedule _ _ _ _ Hwf (schedule_of_candidate res st)).
  unfold feasible. by rewrite Hshape, Hok.
Qed.

Lemma random_solution_passes_resource_checks_witness :
  ∃ res st,
    random_solution two_resource_instance (λ k, (3 * k + 1)%nat)
    = Next (candidate res st)
    ∧ well_shaped two_resource_instance res st = true
    ∧ resources_ok two_resource_instance res = true
    ∧ evaluate_solution two_resource_instance (candidate res st)
      = if precedence_ok two_resource_instance res st
           && capacity_ok two_resource_instance res st
        then let! makespan :=
               py_max (finish_times_of two_resource_instance res st) in
             Return (Makespan makespan)
        else Return Penalty.
Proof.
  apply (random_solution_passes_resource_checks two_resource_instance
           (λ k, (3 * k + 1)%nat)).
  - apply two_resource_wf.
  - simpl. lia.
  - intros i Hi. change (nb_tasks two_resource_instance) with 2 in Hi.
    exists 0. split; [simpl; lia|].
    destruct i as [|[|i]]; [reflexivity | reflexivity | lia].
Defined.



(** X10: with a negative horizon (some processing times are negative)
    and at least one task, the generator raises [ValueError] at
    [random.randint(0, horizon)], whatever the random draws. *)
Theorem random_solution_negative_horizon (inst : instance) (src : rng) :
  wf_instance inst → 0 < nb_tasks inst → horizon inst < 0 →
  random_solution inst src = Raise ValueError.
Proof.
  intros Hwf Hn Hh. unfold random_solution.
  assert (range (nb_tasks inst)
          = Z.of_nat 0 :: (Z.of_nat <$> seq 1 (Z.to_nat (nb_tasks inst) - 1))) as ->.
  { unfold range. destruct (Z.to_nat (nb_tasks inst)) as [|n] eqn:E; [lia|].
    simpl. by rewrite Nat.sub_0_r. }
  cbn [for_each].
  assert (random_solution_step inst src (Z.of_nat 0) (0%nat, [], [])
          = Raise ValueError) as ->; [|done].
  unfold random_solution_step.
  rewrite compatible_resources_spec by (done || lia). simpl.
  assert (∀ k, random_randint src k 0 (horizon inst) = Raise ValueError) as Hrand.
  { intros k. unfold random_randint. by replace (horizon inst <? 0) with true by lia. }
  destruct (filter _ _) as [|r0 compat] eqn:Hcompat.
  - simpl. by rewrite Hrand.
  - destruct (random_choice_elem src 0 (r0 :: compat)) as (r & -> & _); [done|].
    simpl. by rewrite Hrand.
Qed.

Lemma random_solution_negative_horizon_witness :
  random_solution negative_horizon_instance (λ k, k) = Raise ValueError.
Proof.
  apply (random_solution_negative_horizon negative_horizon_instance (λ k, k)).
  - solve_wf.
  - simpl. lia.
  - simpl. lia.
Defined.

(** ** The capacity sweep without coinciding timestamps *)

Lemma sweep_fails_at (cap usage : Z) (l : list event) :
  sweep_ok cap usage l = false →
  ∃ p e q, l = p ++ e :: q ∧ cap < usage + total (p ++ [e]).
Proof.
  revert usage. induction l as [|e l IH]; intros usage Hfail; [done|].
  simpl in Hfail. destruct (usage + e.2 <=? cap) eqn:E.
  - simpl in Hfail. destruct (IH _ Hfail) as (p & e' & q & -> & Hover).
    exists (e :: p), e', q. split; [done|].
    rewrite total_app in Hover. change ((e :: p) ++ [e']) with ([e] ++ (p ++ [e'])).
    rewrite !total_app. unfold total in *. simpl in *. lia.
  - exists [], e, l. split; [done|]. unfold total. simpl. lia.
Qed.

Lemma sorted_around (p q : list event) (e : event) :
  StronglySorted by_time (p ++ e :: q) →
  Forall (λ x : event, x.1 ≤ e.1) p ∧ Forall (λ x : event, e.1 ≤ x.1) q.
Proof.
  induction p as [|x p IH]; simpl; intros Hs.
  - apply StronglySorted_inv in Hs as [_ Hq]. split; [constructor|].
    eapply Forall_impl; [done|]. by unfold by_time.
  - apply StronglySorted_inv in Hs as [Hs Hx].
    destruct (IH Hs) as [Hp Hq]. split; [|done]. constructor; [|done].
    apply Forall_app in Hx as [_ Hx]. apply Forall_cons in Hx as [Hx _].
    by unfold by_time in Hx.
Qed.

(** With distinct timestamps, the events up to the time of an event are
    the events up to that event in sorted order. *)
Lemma prefix_is_filter (p q : list event) (e : event) :
  StronglySorted by_time (p ++ e :: q) → NoDup (fst <$> (p ++ e :: q)) →
  filter (λ x : event, x.1 ≤ e.1) (p ++ e :: q) = p ++ [e].
Proof.
  intros Hs Hnd. destruct (sorted_around _ _ _ Hs) as [Hp Hq].
  rewrite filter_app, filter_cons_True by lia.
  rewrite (filter_all _ p Hp). f_equal. f_equal.
  apply filter_none.
  rewrite fmap_app in Hnd. apply NoDup_app in Hnd as (_ & _ & Hnd).
  rewrite fmap_cons in Hnd. apply NoDup_cons in Hnd as [Hnotin _].
  apply Forall_forall. intros x Hx Hle.
  assert (e.1 ≤ x.1) by (by apply (proj1 (Forall_forall _ _) Hq)).
  apply Hnotin. apply list_elem_of_fmap. exists x. split; [lia|done].
Qed.

(** X11: when the start and finish times of the tasks assigned to a
    resource are pairwise distinct and processing times are
    non-negative, the capacity sweep of that resource is exact: it fails
    only if at some instant the tasks running on the resource weigh more
    than its capacity. *)
Theorem sweep_exact_without_ties (inst : instance) (res st : list Z)
    (r : nat) (cap : Z) :
  Forall (Forall (λ p, 0 ≤ p)) (task_processing_time_data inst) →
  capacity inst !! r = Some cap →
  NoDup (fst <$> events_of inst res st (Z.of_nat r)) →
  resource_sweep_ok inst res st r = false →
  ∃ t, cap < usage_at inst res st (Z.of_nat r) t.
Proof.
  intros Hdur Hcap Hnd Hfail. unfold resource_sweep_ok in Hfail.
  rewrite Hcap in Hfail. simpl in Hfail.
  destruct (sweep_fails_at _ _ _ Hfail) as (p & e & q & Hsplit & Hover).
  exists e.1.
  rewrite <- (events_total inst res st (Z.of_nat r) e.1 Hdur).
  rewrite <- (total_perm _ _
    (filter_Permutation (λ x : event, x.1 ≤ e.1) _ _ (sort_events_perm _))).
  rewrite Hsplit, prefix_is_filter; [lia| |].
  - rewrite <- Hsplit. apply sort_events_sorted.
  - rewrite <- Hsplit. by rewrite sort_events_perm.
Qed.

Lemma sweep_exact_without_ties_witness :
  ∃ t, 4 < usage_at scenario_3_instance [0; 0] [0; 1] (Z.of_nat 0) t.
Proof.
  apply (sweep_exact_without_ties scenario_3_instance [0; 0] [0; 1] 0%nat 4).
  - simpl. repeat constructor; lia.
  - reflexivity.
  - apply (bool_decide_unpack _). vm_compute. exact I.
  - reflexivity.
Defined.

(** ** The reader's text format *)

(** A loop that fell through, with an invariant on what has been
    processed. *)
Lemma for_each_partial_inv {A S : Type} (I : list A → S → Prop) (xs : list A)
    (body : A → S → outcome S) (s0 s' : S) :
  I [] s0 →
  (∀ pre x post s s1, xs = pre ++ x :: post → I pre s → body x s = Next s1 →
     I (pre ++ [x]) s1) →
  for_each xs body s0 = Next s' → I xs s'.
Proof.
  intros H0 Hstep.
  assert (∀ ys pre s, xs = pre ++ ys → I pre s →
            for_each ys body s = Next s' → I xs s') as Hgen.
  { induction ys as [|y ys IH]; intros pre s Hxs Hs; simpl.
    - intros [= <-]. rewrite app_nil_r in Hxs. by subst.
    - destruct (body y s) as [s1| |] eqn:Hy; simpl; [|done..].
      apply (IH (pre ++ [y])); [by rewrite <- app_assoc|].
      by eapply Hstep. }
  by apply (Hgen xs [] s0).
Qed.

Lemma length_range (n : Z) : length (range n) = Z.to_nat n.
Proof. unfold range. by rewrite length_fmap, length_seq. Qed.

Lemma py_setitem_Next {A : Type} (l l' : list A) (i : Z) (x : A) :
  0 ≤ i → py_setitem l i x = Next l' →
  l' = <[Z.to_nat i := x]> l ∧ (Z.to_nat i < length l)%nat.
Proof.
  intros Hi. unfold py_setitem. replace (i <? 0) with false by lia.
  destruct ((i <? 0) || (Z.of_nat (length l) <=? i)) eqn:E; [done|].
  intros [= <-]. split; [done|]. apply orb_false_iff in E as [_ E]. lia.
Qed.

(** X12: whatever the file holds, when the reader returns an instance
    its tables have the shapes the evaluator indexes: [nb_tasks] rows of
    [nb_resources] processing times, [nb_resources] rows of [nb_tasks]
    weights, [nb_tasks] successor lists and successor counts.  The
    number of capacities and the successor ids are not checked; when
    they fit too, the instance is well formed. *)
Theorem parse_instance_shapes (raw : list string) (inst : instance) :
  parse_instance raw = Next inst →
  (length (task_processing_time_data inst) = Z.to_nat (nb_tasks inst)
   ∧ Forall (λ row, length row = Z.to_nat (nb_resources inst))
       (task_processing_time_data inst)
   ∧ length (weights inst) = Z.to_nat (nb_resources inst)
   ∧ Forall (λ row, length row = Z.to_nat (nb_tasks inst)) (weights inst)
   ∧ length (successors inst) = Z.to_nat (nb_tasks inst)
   ∧ length (nb_successors inst) = Z.to_nat (nb_tasks inst))
  ∧ (0 ≤ nb_tasks inst → 0 ≤ nb_resources inst →
     Z.of_nat (length (capacity inst)) = nb_resources inst →
     Forall (Forall (λ j, 0 ≤ j < nb_tasks inst)) (successors inst) →
     wf_instance inst).
Proof.
  unfold parse_instance. fold (stripped_lines raw). intros H.
  destruct (py_index (stripped_lines raw) 0) as [line0| |]; simpl in H; [|done..].
  destruct (py_index (split_ws line0 []) 0) as [tok0| |]; simpl in H; [|done..].
  destruct (py_int tok0) as [n| |]; simpl in H; [|done..].
  destruct (py_index (split_ws line0 []) 1) as [tok1| |]; simpl in H; [|done..].
  destruct (py_int tok1) as [R| |]; simpl in H; [|done..].
  destruct (py_index (stripped_lines raw) 1) as [line1| |]; simpl in H; [|done..].
  destruct (py_ints (split_ws line1 [])) as [cap| |]; simpl in H; [|done..].
  destruct (for_each (range n) _ ([], replicate (Z.to_nat R) []))
    as [[data wts]| |] eqn:Htasks; simpl in H; [|done..].
  destruct (for_each (range n) _ ([], [])) as [[nsucc succs]| |] eqn:Hsuccs;
    simpl in H; [|done..].
  destruct (for_each (range n) _ 0) as [hor| |]; simpl in H; [|done..].
  injection H as <-. simpl.
  (* the loop over the task lines *)
  apply (for_each_partial_inv
    (λ pre (s : list (list Z) * list (list Z)),
       length s.1 = length pre
       ∧ Forall (λ row, length row = Z.to_nat R) s.1
       ∧ length s.2 = Z.to_nat R
       ∧ Forall (λ row, length row = length pre) s.2)) in Htasks.
  2:{ simpl. rewrite length_replicate. repeat split; [constructor|].
      apply Forall_replicate. constructor. }
  2:{ clear. intros pre i post [data wts] [data' wts'] _ (Hd & Hrows & Hw & Hcols) Hstep.
      simpl in *.
      destruct (py_index (stripped_lines raw) (2 + i)) as [line| |];
        simpl in Hstep; [|done..].
      destruct (for_each (range R) _ ([], wts)) as [[durations wts1]| |] eqn:Hinner;
        simpl in Hstep; [|done..].
      injection Hstep as <- <-.
      apply (for_each_partial_inv
        (λ pre' (s : list Z * list (list Z)),
           length s.1 = length pre'
           ∧ length s.2 = Z.to_nat R
           ∧ ∀ j row, s.2 !! j = Some row →
               length row = if decide (j < length pre')%nat
                            then S (length pre) else length pre)) in Hinner.
      - destruct Hinner as (Hdur & Hw1 & Hcols1). rewrite length_range in *.
        simpl in Hdur, Hw1, Hcols1.
        rewrite !length_app. simpl.
        split; [lia|]. split; [apply Forall_app; split; [done | by constructor]|].
        split; [done|]. apply Forall_forall. intros row Hrow.
        apply list_elem_of_lookup in Hrow as [j Hj].
        rewrite (Hcols1 j row Hj). pose proof (lookup_lt_Some _ _ _ Hj).
        rewrite decide_True by lia. lia.
      - split; [done|]. split; [done|]. intros j row Hj.
        destruct (decide (j < length [])%nat) as [Hlt|_]; [simpl in Hlt; lia|].
        by apply (Forall_lookup_1 _ _ _ _ Hcols Hj).
      - clear Hinner. intros pre' r post' [durs w0] [durs' w1] Hsplit
          (Hdur & Hw0 & Hcols0) Hstep. simpl in *.
        apply range_split in Hsplit as [-> Hr].
        destruct (py_index (split_ws line []) _) as [tok| |]; simpl in Hstep; [|done..].
        destruct (py_int tok) as [duration| |]; simpl in Hstep; [|done..].
        destruct (py_index (split_ws line []) _) as [tok'| |]; simpl in Hstep; [|done..].
        destruct (py_int tok') as [wv| |]; simpl in Hstep; [|done..].
        destruct (py_index w0 _) as [wrow| |] eqn:Hwrow; simpl in Hstep; [|done..].
        destruct (py_setitem w0 _ _) as [w2| |] eqn:Hset; simpl in Hstep; [|done..].
        injection Hstep as <- <-.
        apply py_setitem_Next in Hset as [-> Hlt]; [|lia].
        rewrite Nat2Z.id in *. rewrite !length_app, length_insert. simpl.
        split; [lia|]. split; [done|]. intros j row Hj.
        destruct (decide (j = length pre')) as [->|Hne].
        + rewrite list_lookup_insert_eq in Hj by done. injection Hj as <-.
          rewrite decide_True by lia. rewrite length_app. simpl.
          assert (w0 !! length pre' = Some wrow) as Hwr.
          { unfold py_index in Hwrow.
            replace (Z.of_nat (length pre') <? 0) with false in Hwrow by lia.
            destruct (_ || _); [done|]. rewrite Nat2Z.id in Hwrow.
            by destruct (w0 !! length pre'); [injection Hwrow as ->|]. }
          rewrite (Hcols0 _ _ Hwr). rewrite decide_False by lia. lia.
        + rewrite list_lookup_insert_ne in Hj by done.
          rewrite (Hcols0 _ _ Hj). repeat case_decide; lia. }
  (* the loop over the successor lines *)
  apply (for_each_partial_inv
    (λ pre (s : list Z * list (list Z)),
       length s.1 = length pre ∧ length s.2 = length pre)) in Hsuccs.
  2:{ done. }
  2:{ clear. intros pre i post [ns ss] [ns' ss'] _ [Hn Hs] Hstep. simpl in *.
      destruct (py_index (stripped_lines raw) _) as [line| |]; simpl in Hstep; [|done..].
      destruct (py_index (split_ws line []) 0) as [tok| |]; simpl in Hstep; [|done..].
      destruct (py_int tok) as [num| |]; simpl in Hstep; [|done..].
      destruct (if 0 <? num then _ else _) as [sl| |]; simpl in Hstep; [|done..].
      injection Hstep as <- <-. rewrite !length_app. simpl. lia. }
  rewrite length_range in *. simpl in *.
  destruct Htasks as (Hd & Hrows & Hw & Hcols), Hsuccs as [Hns Hss].
  split; [done|].
  intros Hn HR Hcap Hrange. split; simpl; try done; try lia.
  - eapply Forall_impl; [exact Hrows|]. simpl. intros; lia.
  - eapply Forall_impl; [exact Hcols|]. simpl. intros; lia.
Qed.

Lemma parse_instance_shapes_witness :
  (length (task_processing_time_data two_resource_instance)
   = Z.to_nat (nb_tasks two_resource_instance)
   ∧ Forall (λ row, length row = Z.to_nat (nb_resources two_resource_instance))
       (task_processing_time_data two_resource_instance)
   ∧ length (weights two_resource_instance)
     = Z.to_nat (nb_resources two_resource_instance)
   ∧ Forall (λ row, length row = Z.to_nat (nb_tasks two_resource_instance))
       (weights two_resource_instance)
   ∧ length (successors two_resource_instance)
     = Z.to_nat (nb_tasks two_resource_instance)
   ∧ length (nb_successors two_resource_instance)
     = Z.to_nat (nb_tasks two_resource_instance))
  ∧ (0 ≤ nb_tasks two_resource_instance → 0 ≤ nb_resources two_resource_instance →
     Z.of_nat (length (capacity two_resource_instance))
     = nb_resources two_resource_instance →
     Forall (Forall (λ j, 0 ≤ j < nb_tasks two_resource_instance))
       (successors two_resource_instance) →
     wf_instance two_resource_instance).
Proof.
  apply (parse_instance_shapes
           ["2 2"; "4 5"; ""; " 3 2 0 0 "; "2 2 1 1"; "1 1"; "0"]
           two_resource_instance).
  vm_compute. reflexivity.
Defined.

Lemma lstrip_blank (l : list ascii) :
  Forall (λ c, is_space c = true) l → lstrip l = [].
Proof. induction 1 as [|c l Hc Hl IH]; simpl; [done|]. by rewrite Hc. Qed.

Lemma strip_blank (l : list ascii) :
  Forall (λ c, is_space c = true) l → strip l = [].
Proof. intros Hl. unfold strip. by rewrite (lstrip_blank l Hl). Qed.

(** X13: a line of blanks (spaces, tabs, an empty line) anywhere in the
    file changes nothing in what the reader returns or raises. *)
Theorem blank_lines_are_ignored (raw1 raw2 : list string) (blank : string) :
  Forall (λ c, is_space c = true) (String.list_ascii_of_string blank) →
  parse_instance (raw1 ++ blank :: raw2) = parse_instance (raw1 ++ raw2).
Proof.
  intros Hblank.
  assert (stripped_lines (raw1 ++ blank :: raw2) = stripped_lines (raw1 ++ raw2))
    as Hlines.
  { unfold stripped_lines. rewrite !fmap_app, fmap_cons, !filter_app.
    rewrite filter_cons_False; [done|]. rewrite strip_blank by done. by intros []. }
  unfold stripped_lines in Hlines. unfold parse_instance. by rewrite Hlines.
Qed.

Lemma blank_lines_are_ignored_witness :
  parse_instance (["2 2"; "4 5"] ++ "  " :: ["3 2 0 0"; "2 2 1 1"; "1 1"; "0"])
  = parse_instance (["2 2"; "4 5"] ++ ["3 2 0 0"; "2 2 1 1"; "1 1"; "0"]).
Proof.
  apply (blank_lines_are_ignored ["2 2"; "4 5"]
           ["3 2 0 0"; "2 2 1 1"; "1 1"; "0"] "  ").
  repeat constructor.
Defined.

(** X14: a file without a non-blank line makes the reader raise
    [IndexError] at [lines[0]]. *)
Theorem blank_file_raises_IndexError (raw : list string) :
  Forall (λ l, Forall (λ c, is_space c = true) (String.list_ascii_of_string l)) raw →
  parse_instance raw = Raise IndexError.
Proof.
  intros Hraw.
  assert (stripped_lines raw = []) as Hlines.
  { unfold stripped_lines. induction Hraw as [|l raw Hl Hraw IH]; [done|].
    rewrite fmap_cons, filter_cons_False; [exact IH|].
    rewrite strip_blank by done. by intros []. }
  unfold stripped_lines in Hlines. unfold parse_instance. by rewrite Hlines.
Qed.

Lemma blank_file_raises_IndexError_witness :
  parse_instance [""; "   "] = Raise IndexError.
Proof.
  apply (blank_file_raises_IndexError [""; "   "]). repeat constructor.
Defined.

(** ** Relaxing an instance *)

Lemma sweep_ok_mono (cap cap' usage : Z) (l : list event) :
  cap ≤ cap' → sweep_ok cap usage l = true → sweep_ok cap' usage l = true.
Proof.
  intros Hle. revert usage. induction l as [|e l IH]; intros usage; simpl; [done|].
  intros [H1 H2]%andb_true_iff. apply andb_true_iff. split; [lia | by apply IH].
Qed.

(** X15: raising capacities never costs a schedule its score: a
    schedule of integers that is scored with a makespan keeps that
    makespan when some capacities are replaced by larger ones. *)
Theorem more_capacity_keeps_makespan (inst : instance) (caps : list Z)
    (solution : pyval) (res st : list Z) (m : Z) :
  wf_instance inst →
  Forall2 (λ c c', c ≤ c') (capacity inst) caps →
  schedule_of solution = Some (res, st) →
  evaluate_solution inst solution = Return (Makespan m) →
  evaluate_solution (with_capacity inst caps) solution = Return (Makespan m).
Proof.
  intros Hwf Hcaps Hsched Heval.
  assert (wf_instance (with_capacity inst caps)) as Hwf'.
  { destruct Hwf. split; simpl; try done.
    by rewrite <- (Forall2_length _ _ _ Hcaps). }
  rewrite (evaluate_solution_schedule _ _ _ _ Hwf Hsched) in Heval.
  rewrite (evaluate_solution_schedule _ _ _ _ Hwf' Hsched).
  destruct (feasible inst res st) eqn:Hfeas; [|done].
  assert (feasible (with_capacity inst caps) res st = true) as ->; [|done].
  unfold feasible in *.
  apply andb_true_iff in Hfeas as [Hfeas Hcap]. apply andb_true_iff. split; [done|].
  unfold capacity_ok in *. rewrite forallb_forall in Hcap.
  apply forallb_forall. intros r Hr. specialize (Hcap r Hr).
  unfold resource_sweep_ok in *. simpl.
  change (events_of (with_capacity inst caps) res st (Z.of_nat r))
    with (events_of inst res st (Z.of_nat r)).
  destruct (capacity inst !! r) as [c|] eqn:Hc.
  - destruct (Forall2_lookup_l _ _ _ _ _ Hcaps Hc) as (c' & -> & Hle).
    simpl in *. by apply (sweep_ok_mono c).
  - apply list_elem_of_In, elem_of_seq in Hr. simpl in Hr.
    apply lookup_ge_None in Hc. destruct Hwf. lia.
Qed.

Lemma more_capacity_keeps_makespan_witness :
  evaluate_solution (with_capacity scenario_4_instance [9])
    (candidate [0; 0] [0; 3])
  = Return (Makespan 5).
Proof.
  apply (more_capacity_keeps_makespan scenario_4_instance [9]
           (candidate [0; 0] [0; 3]) [0; 0] [0; 3] 5).
  - apply scenario_4_wf.
  - repeat constructor. lia.
  - reflexivity.
  - reflexivity.
Defined.

(** ** A task heavier than its resource *)

Lemma sweep_ok_app (cap usage : Z) (l1 l2 : list event) :
  sweep_ok cap usage (l1 ++ l2)
  = sweep_ok cap usage l1 && sweep_ok cap (usage + total l1) l2.
Proof.
  revert usage. induction l1 as [|e l1 IH]; intros usage; simpl.
  - unfold total. simpl. by rewrite Z.add_0_r.
  - rewrite IH, andb_assoc. unfold total. csimpl. by rewrite Z.add_assoc.
Qed.

Lemma sweep_ok_lower (cap usage usage' : Z) (l : list event) :
  usage ≤ usage' → sweep_ok cap usage' l = true → sweep_ok cap usage l = true.
Proof.
  revert usage usage'. induction l as [|e l IH]; intros usage usage' Hle; simpl;
    [done|].
  intros [H1 H2]%andb_true_iff. apply andb_true_iff. split; [lia|].
  apply (IH _ (usage' + e.2)); [lia | done].
Qed.

Lemma floor_ok_app (usage : Z) (l1 l2 : list event) :
  floor_ok usage (l1 ++ l2) = true ↔
  floor_ok usage l1 = true ∧ floor_ok (usage + total l1) l2 = true.
Proof.
  revert usage. induction l1 as [|e l1 IH]; intros usage.
  - unfold total. simpl. rewrite Z.add_0_r. split.
    + intros H. split; [|done]. destruct l2; simpl in H;
        apply andb_true_iff in H as [H _]; by rewrite H.
    + by intros [_ H].
  - simpl. rewrite !andb_true_iff, IH. unfold total. csimpl.
    rewrite Z.add_assoc. tauto.
Qed.

Lemma floor_ok_raise (usage usage' : Z) (l : list event) :
  usage ≤ usage' → floor_ok usage l = true → floor_ok usage' l = true.
Proof.
  revert usage usage'. induction l as [|e l IH]; intros usage usage' Hle; simpl.
  - rewrite !andb_true_iff. intros [H _]. split; [lia|done].
  - rewrite !andb_true_iff. intros [H1 H2]. split; [lia|].
    apply (IH (usage + e.2)); [lia | done].
Qed.

Lemma floor_ok_start (usage : Z) (l : list event) :
  floor_ok usage l = true → 0 ≤ usage.
Proof. destruct l; simpl; intros [H _]%andb_true_iff; lia. Qed.

(** Where stable insertion puts an event, and a second one that is not
    later than the first. *)
Lemma insert_event_split (e : event) (l : list event) :
  ∃ a b, l = a ++ b ∧ insert_event e l = a ++ e :: b.
Proof.
  induction l as [|x l IH]; simpl.
  - by exists [], [].
  - destruct (e.1 <=? x.1).
    + by exists [], (x :: l).
    + destruct IH as (a & b & -> & ->). by exists (x :: a), b.
Qed.

Lemma insert_event_before (e y : event) (X b : list event) :
  e.1 ≤ y.1 →
  ∃ a m, X = a ++ m ∧ insert_event e (X ++ y :: b) = a ++ e :: m ++ y :: b.
Proof.
  intros Hle. induction X as [|x X IH]; simpl.
  - replace (e.1 <=? y.1) with true by lia. by exists [], [].
  - destruct (e.1 <=? x.1).
    + by exists [], (x :: X).
    + destruct IH as (a & m & -> & ->). by exists (x :: a), m.
Qed.

Lemma insert_pair (s f w : Z) (l : list event) :
  s ≤ f →
  ∃ a m b, l = a ++ m ++ b
           ∧ insert_event (s, w) (insert_event (f, - w) l)
             = a ++ (s, w) :: m ++ (f, - w) :: b.
Proof.
  intros Hle. destruct (insert_event_split (f, - w) l) as (a1 & b & -> & ->).
  destruct (insert_event_before (s, w) (f, - w) a1 b Hle) as (a & m & -> & ->).
  exists a, m, b. by rewrite <- app_assoc.
Qed.

Lemma total_cons (e : event) (l : list event) : total (e :: l) = e.2 + total l.
Proof. done. Qed.

(** Inserting the two events of a task of non-negative weight and
    duration keeps the usage non-negative, keeps a failing sweep failing,
    and makes the sweep fail when the weight alone exceeds the capacity. *)
Lemma total_single (t d : Z) : total [(t, d)] = d.
Proof. unfold total. simpl. lia. Qed.

Lemma insert_pair_floor (s f w : Z) (l : list event) :
  s ≤ f → 0 ≤ w → floor_ok 0 l = true →
  floor_ok 0 (insert_event (s, w) (insert_event (f, - w) l)) = true.
Proof.
  intros Hle Hw Hl. destruct (insert_pair s f w l Hle) as (a & m & b & -> & ->).
  apply floor_ok_app in Hl as [Ha Hmb]. apply floor_ok_app in Hmb as [Hm Hb].
  pose proof (floor_ok_start _ _ Hm) as H0.
  pose proof (floor_ok_start _ _ Hb) as H1.
  change ((s, w) :: m ++ (f, - w) :: b) with ([(s, w)] ++ m ++ [(f, - w)] ++ b).
  rewrite !floor_ok_app, !total_single. repeat split.
  - done.
  - simpl. rewrite !andb_true_iff. repeat split; lia.
  - apply (floor_ok_raise (0 + total a)); [lia | done].
  - simpl. rewrite !andb_true_iff. repeat split; lia.
  - by replace (0 + total a + w + total m + - w) with (0 + total a + total m) by lia.
Qed.

Lemma insert_pair_keeps_failure (cap s f w : Z) (l : list event) :
  s ≤ f → 0 ≤ w → sweep_ok cap 0 l = false →
  sweep_ok cap 0 (insert_event (s, w) (insert_event (f, - w) l)) = false.
Proof.
  intros Hle Hw Hl. apply not_true_is_false. intros Hok.
  destruct (insert_pair s f w l Hle) as (a & m & b & -> & Hins).
  rewrite Hins in Hok.
  change ((s, w) :: m ++ (f, - w) :: b) with ([(s, w)] ++ m ++ [(f, - w)] ++ b)
    in Hok.
  rewrite !sweep_ok_app, !total_single, !andb_true_iff in Hok.
  destruct Hok as (Ha & _ & Hm & _ & Hb).
  rewrite !sweep_ok_app, Ha in Hl. simpl in Hl.
  rewrite (sweep_ok_lower cap (0 + total a) (0 + total a + w) m) in Hl by (lia || done).
  simpl in Hl.
  by replace (0 + total a + w + total m + - w) with (0 + total a + total m)
    in Hb by lia; rewrite Hb in Hl.
Qed.

Lemma insert_pair_overweight (cap s f w : Z) (l : list event) :
  s ≤ f → cap < w → floor_ok 0 l = true →
  sweep_ok cap 0 (insert_event (s, w) (insert_event (f, - w) l)) = false.
Proof.
  intros Hle Hw Hl. destruct (insert_pair s f w l Hle) as (a & m & b & -> & ->).
  apply floor_ok_app in Hl as [Ha Hmb].
  pose proof (floor_ok_start _ _ Hmb) as H0.
  rewrite sweep_ok_app. simpl.
  replace (0 + total a + w <=? cap) with false by lia.
  by rewrite andb_false_r.
Qed.

Section overweight.
Context (inst : instance) (res st : list Z) (r : Z).
Context (Hdur : Forall (Forall (λ p, 0 ≤ p)) (task_processing_time_data inst)).
Context (Hweights : Forall (Forall (λ w, 0 ≤ w)) (weights inst)).

Lemma weight_nonneg (i : nat) : 0 ≤ weight inst r i.
Proof using Hweights.
  unfold weight. destruct (weights inst !! Z.to_nat r) as [row|] eqn:Hrow;
    simpl; [|done].
  destruct (row !! i) as [w|] eqn:Hw; simpl; [|done].
  pose proof (Forall_lookup_1 _ _ _ _ Hweights Hrow) as Hrow'.
  apply (Forall_lookup_1 _ _ _ _ Hrow' Hw).
Qed.

Lemma sort_task_events (i : nat) (ks : list nat) :
  sort_events ((i :: ks) ≫= task_events inst res st r)
  = if default 0 (res !! i) =? r
    then insert_event (default 0 (st !! i), weight inst r i)
           (insert_event (finish_time inst res st i, - weight inst r i)
              (sort_events (ks ≫= task_events inst res st r)))
    else sort_events (ks ≫= task_events inst res st r).
Proof using Type.
  csimpl. unfold task_events at 1. by destruct (default 0 (res !! i) =? r).
Qed.

Lemma events_floor (ks : list nat) :
  floor_ok 0 (sort_events (ks ≫= task_events inst res st r)) = true.
Proof using Hdur Hweights.
  induction ks as [|i ks IH]; [done|]. rewrite sort_task_events.
  destruct (default 0 (res !! i) =? r); [|done].
  apply insert_pair_floor; [|apply weight_nonneg|done].
  unfold finish_time. pose proof (proc_nonneg inst Hdur i (default 0 (res !! i))).
  lia.
Qed.

Lemma overweight_fails (cap : Z) (i : nat) (ks : list nat) :
  i ∈ ks → default 0 (res !! i) = r → cap < weight inst r i →
  sweep_ok cap 0 (sort_events (ks ≫= task_events inst res st r)) = false.
Proof using Hdur Hweights.
  intros Hin Hr Hover. induction ks as [|k ks IH]; [by apply not_elem_of_nil in Hin|].
  rewrite sort_task_events.
  assert (∀ j, default 0 (st !! j) ≤ finish_time inst res st j) as Hfin.
  { intros j. unfold finish_time.
    pose proof (proc_nonneg inst Hdur j (default 0 (res !! j))). lia. }
  destruct (decide (k = i)) as [->|Hne].
  - rewrite Hr, Z.eqb_refl.
    apply insert_pair_overweight; [done..|apply events_floor].
  - apply elem_of_cons in Hin as [->|Hin]; [done|].
    destruct (default 0 (res !! k) =? r); [|by apply IH].
    apply insert_pair_keeps_failure; [done|apply weight_nonneg|by apply IH].
Qed.
End overweight.

(** X16: with non-negative processing times and weights, a task that
    weighs more than the capacity of the resource it is assigned to
    makes the evaluator return the penalty, even when its processing
    time is zero and it is running at no instant. *)
Theorem overweight_task_is_penalised (inst : instance) (solution : pyval)
    (res st : list Z) (i r : nat) (cap : Z) :
  wf_instance inst →
  Forall (Forall (λ p, 0 ≤ p)) (task_processing_time_data inst) →
  Forall (Forall (λ w, 0 ≤ w)) (weights inst) →
  schedule_of solution = Some (res, st) →
  res !! i = Some (Z.of_nat r) →
  capacity inst !! r = Some cap →
  cap < weight inst (Z.of_nat r) i →
  evaluate_solution inst solution = Return Penalty.
Proof.
  intros Hwf Hdur Hweights Hsched Hr Hcap Hover.
  apply (infeasible_penalty _ _ _ _ Hwf Hsched).
  apply (failed_sweep_infeasible _ _ _ r).
  - apply lookup_lt_Some in Hcap. destruct Hwf. lia.
  - unfold resource_sweep_ok, events_of. rewrite Hcap. simpl.
    apply (overweight_fails inst res st (Z.of_nat r) Hdur Hweights cap i);
      [|by rewrite Hr|done].
    apply elem_of_seq. apply lookup_lt_Some in Hr. lia.
Qed.

(** One task of zero duration and weight 5 on a resource of capacity 4. *)
Lemma overweight_task_is_penalised_witness :
  evaluate_solution (mk_instance [4] [[0]] [[5]] [[]]) (candidate [0] [0])
  = Return Penalty.
Proof.
  apply (overweight_task_is_penalised (mk_instance [4] [[0]] [[5]] [[]])
           (candidate [0] [0]) [0] [0] 0%nat 0%nat 4).
  - solve_wf.
  - simpl. repeat constructor; lia.
  - simpl. repeat constructor; lia.
  - reflexivity.
  - reflexivity.
  - reflexivity.
  - vm_compute. reflexivity.
Defined.

(** ** Reading back a written file *)

Example render_two_resource_instance :
  render_instance two_resource_instance
  = ["2 2"; "4 5"; "3 2 0 0"; "2 2 1 1"; "1 1"; "0"].
Proof. vm_compute. reflexivity. Qed.




























Lemma horizon_of_snoc (data : list (list Z)) (row : list Z) :
  horizon_of (data ++ [row]) = horizon_of data + row_max row.
Proof.
  unfold horizon_of. induction data as [|r data IH]; csimpl; [lia|].
  rewrite IH. lia.
Qed.





(** ** Cycles among the successors *)

Section cycles.
Context (inst : instance) (res st : list Z).
Context (Hwf : wf_instance inst).
Context (Hdur : Forall (Forall (λ p, 0 ≤ p)) (task_processing_time_data inst)).
Context (Hfeas : feasible inst res st = true).

Lemma feasible_edge (i j : nat) :
  precedes inst i j →
  finish_time inst res st i ≤ default 0 (st !! j).
Proof using Hwf Hfeas.
  unfold precedes. intros Hj.
  destruct (successors inst !! i) as [succs|] eqn:Hsuccs; simpl in Hj;
    [|by apply elem_of_nil in Hj].
  unfold feasible in Hfeas.
  apply andb_true_iff in Hfeas as [[[Hshape _]%andb_true_iff Hprec]%andb_true_iff _].
  unfold well_shaped in Hshape. apply andb_true_iff in Hshape as [Hlen _].
  apply Z.eqb_eq in Hlen.
  unfold precedence_ok in Hprec. rewrite forallb_forall in Hprec.
  assert (In i (seq 0 (length res))) as Hi.
  { apply list_elem_of_In, elem_of_seq. apply lookup_lt_Some in Hsuccs.
    destruct Hwf. lia. }
  specialize (Hprec i Hi). rewrite Hsuccs in Hprec. simpl in Hprec.
  rewrite forallb_forall in Hprec.
  specialize (Hprec (Z.of_nat j)). unfold pair_ok in Hprec.
  rewrite Nat2Z.id in Hprec. apply Z.leb_le, Hprec. by apply list_elem_of_In.
Qed.

Lemma feasible_chain (path : list nat) (i j : nat) :
  chain inst i path j →
  finish_time inst res st i ≤ default 0 (st !! j).
Proof using Hwf Hfeas Hdur.
  revert i. induction path as [|k path IH]; intros i; simpl.
  - apply feasible_edge.
  - intros [Hk Hchain]. apply feasible_edge in Hk. apply IH in Hchain.
    pose proof (proc_nonneg inst Hdur k (default 0 (res !! k))) as Hp.
    unfold finish_time in *. lia.
Qed.
End cycles.

(** X18: cycles among the successors are not looked for, yet they are
    never scored: with non-negative processing times, a task that lies
    on a cycle and takes time on every resource that can process it
    makes the evaluator return the penalty for every schedule of
    integers. *)
Theorem precedence_cycle_is_penalised (inst : instance) (solution : pyval)
    (res st : list Z) (i : nat) (path : list nat) :
  wf_instance inst →
  Forall (Forall (λ p, 0 ≤ p)) (task_processing_time_data inst) →
  chain inst i path i →
  (∀ r, compatible inst i r = true → proc inst i r ≠ 0) →
  schedule_of solution = Some (res, st) →
  evaluate_solution inst solution = Return Penalty.
Proof.
  intros Hwf Hdur Hcycle Hpos Hsched.
  apply (infeasible_penalty _ _ _ _ Hwf Hsched).
  destruct (feasible inst res st) eqn:Hfeas; [exfalso|done].
  pose proof (feasible_chain inst res st Hwf Hdur Hfeas path i i Hcycle) as Hle.
  pose proof (proc_nonneg inst Hdur i (default 0 (res !! i))) as Hp.
  assert (precedes inst i i ∨ ∃ k, precedes inst i k) as Hedge.
  { destruct path as [|k path]; [by left | right; exists k; apply Hcycle]. }
  assert (i < length res)%nat as Hi.
  { assert (is_Some (successors inst !! i)) as [succs Hsuccs].
    { unfold precedes in Hedge.
      destruct (successors inst !! i); [by eexists|].
      simpl in Hedge. destruct Hedge as [H | [k H]]; by apply elem_of_nil in H. }
    apply lookup_lt_Some in Hsuccs.
    unfold feasible in Hfeas.
    apply andb_true_iff in Hfeas as [[[Hshape _]%andb_true_iff _]%andb_true_iff _].
    unfold well_shaped in Hshape. apply andb_true_iff in Hshape as [Hlen _].
    apply Z.eqb_eq in Hlen. destruct Hwf. lia. }
  assert (compatible inst i (default 0 (res !! i)) = true) as Hcomp.
  { unfold feasible in Hfeas.
    apply andb_true_iff in Hfeas as [[[_ Hres]%andb_true_iff _]%andb_true_iff _].
    unfold resources_ok in Hres. rewrite forallb_forall in Hres.
    specialize (Hres i). unfold resource_ok in Hres.
    apply andb_true_iff in Hres as [_ Hres]; [done|].
    apply list_elem_of_In, elem_of_seq. lia. }
  specialize (Hpos _ Hcomp). unfold finish_time in Hle. lia.
Qed.

(** Two tasks, each a successor of the other. *)
Lemma precedence_cycle_is_penalised_witness :
  evaluate_solution (mk_instance [4] [[1]; [1]] [[1; 1]] [[1]; [0]])
    (candidate [0; 0] [0; 1])
  = Return Penalty.
Proof.
  apply (precedence_cycle_is_penalised
           (mk_instance [4] [[1]; [1]] [[1; 1]] [[1]; [0]])
           (candidate [0; 0] [0; 1]) [0; 0] [0; 1] 0%nat [1%nat]).
  - solve_wf.
  - simpl. repeat constructor; lia.
  - split; unfold precedes; simpl; left.
  - intros r Hc. unfold compatible, proc, weight in *. simpl in *.
    destruct (Z.to_nat r) as [|[|]]; simpl in *; done.
  - reflexivity.
Defined.

(** ** The horizon of a loaded instance *)

Lemma py_index_lookup {A : Type} (l : list A) (i : Z) (x : A) :
  0 ≤ i → py_index l i = Next x → l !! Z.to_nat i = Some x.
Proof.
  intros Hi. unfold py_index. replace (i <? 0) with false by lia.
  destruct ((i <? 0) || (Z.of_nat (length l) <=? i)); [done|].
  destruct (l !! Z.to_nat i); [|done]. by intros [= ->].
Qed.

Lemma row_max_bound (row : list Z) (p : Z) : p ∈ row → p ≤ row_max row.
Proof.
  destruct row as [|a row]; [by intros ?%elem_of_nil|]. simpl.
  destruct (foldl_max_spec row a) as (_ & Hle & Hall).
  intros [->|Hp]%elem_of_cons; [done|].
  rewrite Forall_forall in Hall. by apply Hall.
Qed.

(** What the reader's loops establish about the processing times and
    the horizon. *)
Lemma parse_instance_data (raw : list string) (inst : instance) :
  parse_instance raw = Next inst →
  length (task_processing_time_data inst) = Z.to_nat (nb_tasks inst)
  ∧ Forall (λ row, length row = Z.to_nat (nb_resources inst))
      (task_processing_time_data inst)
  ∧ Forall (λ row, row ≠ []) (task_processing_time_data inst)
  ∧ horizon inst = horizon_of (task_processing_time_data inst).
Proof.
  unfold parse_instance. fold (stripped_lines raw). intros H.
  destruct (py_index (stripped_lines raw) 0) as [line0| |]; simpl in H; [|done..].
  destruct (py_index (split_ws line0 []) 0) as [tok0| |]; simpl in H; [|done..].
  destruct (py_int tok0) as [n| |]; simpl in H; [|done..].
  destruct (py_index (split_ws line0 []) 1) as [tok1| |]; simpl in H; [|done..].
  destruct (py_int tok1) as [R| |]; simpl in H; [|done..].
  destruct (py_index (stripped_lines raw) 1) as [line1| |]; simpl in H; [|done..].
  destruct (py_ints (split_ws line1 [])) as [cap| |]; simpl in H; [|done..].
  destruct (for_each (range n) _ ([], replicate (Z.to_nat R) []))
    as [[data wts]| |] eqn:Htasks; simpl in H; [|done..].
  destruct (for_each (range n) _ ([], [])) as [[nsucc succs]| |] eqn:Hsuccs;
    simpl in H; [|done..].
  destruct (for_each (range n) _ 0) as [hor| |] eqn:Hhor; simpl in H; [|done..].
  injection H as <-. simpl.
  (* the loop over the task lines *)
  apply (for_each_partial_inv
    (λ pre (s : list (list Z) * list (list Z)),
       length s.1 = length pre
       ∧ Forall (λ row, length row = Z.to_nat R) s.1)) in Htasks.
  2:{ simpl. split; [done | constructor]. }
  2:{ clear. intros pre i post [data wts] [data' wts'] _ [Hd Hrows] Hstep.
      simpl in *.
      destruct (py_index (stripped_lines raw) (2 + i)) as [line| |];
        simpl in Hstep; [|done..].
      destruct (for_each (range R) _ ([], wts)) as [[durations wts1]| |] eqn:Hinner;
        simpl in Hstep; [|done..].
      injection Hstep as <- <-.
      apply (for_each_partial_inv
        (λ pre' (s : list Z * list (list Z)), length s.1 = length pre')) in Hinner.
      - rewrite length_range in Hinner. simpl in Hinner.
        rewrite !length_app. simpl. split; [lia|].
        apply Forall_app. split; [done | by constructor].
      - done.
      - clear Hinner. intros pre' r post' [durs w0] [durs' w1] _ Hdur Hstep.
        simpl in *.
        destruct (py_index (split_ws line []) _) as [tok| |]; simpl in Hstep; [|done..].
        destruct (py_int tok) as [duration| |]; simpl in Hstep; [|done..].
        destruct (py_index (split_ws line []) _) as [tok'| |]; simpl in Hstep; [|done..].
        destruct (py_int tok') as [wv| |]; simpl in Hstep; [|done..].
        destruct (py_index w0 _) as [wrow| |]; simpl in Hstep; [|done..].
        destruct (py_setitem w0 _ _) as [w2| |]; simpl in Hstep; [|done..].
        injection Hstep as <- <-. rewrite !length_app. simpl. lia. }
  destruct Htasks as [Hd Hrows]. rewrite length_range in Hd. simpl in Hd, Hrows.
  (* the horizon *)
  apply (for_each_partial_inv
    (λ pre (acc : Z),
       acc = horizon_of (take (length pre) data)
       ∧ Forall (λ row, row ≠ []) (take (length pre) data))) in Hhor.
  2:{ split; [done | constructor]. }
  2:{ clear. intros pre i post acc acc' Hsplit [-> Hne] Hstep.
      apply range_split in Hsplit as [-> Hi].
      destruct (py_index data _) as [row| |] eqn:Hrow; simpl in Hstep; [|done..].
      apply py_index_lookup in Hrow; [|lia]. rewrite Nat2Z.id in Hrow.
      destruct row as [|p row]; [done|]. simpl in Hstep. injection Hstep as <-.
      rewrite length_app. simpl. replace (length pre + 1)%nat with (S (length pre)) by lia.
      rewrite (take_S_r _ _ _ Hrow). split.
      - by rewrite horizon_of_snoc.
      - apply Forall_app. split; [done | by constructor]. }
  rewrite length_range in Hhor. rewrite take_ge in Hhor by lia.
  destruct Hhor as [-> Hne]. done.
Qed.

Lemma serial_time_bound (inst : instance) (res : list Z) (m : nat) :
  Forall (λ row, length row = Z.to_nat (nb_resources inst))
    (task_processing_time_data inst) →
  Forall (λ r, 0 ≤ r < nb_resources inst) res →
  (m ≤ length res)%nat →
  (m ≤ length (task_processing_time_data inst))%nat →
  foldr Z.add 0 ((λ i, proc inst i (default 0 (res !! i))) <$> seq 0 m)
  ≤ horizon_of (take m (task_processing_time_data inst)).
Proof.
  intros Hrows Hres. induction m as [|m IH]; intros Hm Hm'; [done|].
  destruct (lookup_lt_is_Some_2 (task_processing_time_data inst) m) as [row Hrow];
    [lia|].
  destruct (lookup_lt_is_Some_2 res m) as [r Hr]; [lia|].
  pose proof (Forall_lookup_1 _ _ _ _ Hrows Hrow) as Hlen. simpl in Hlen.
  pose proof (Forall_lookup_1 _ _ _ _ Hres Hr) as Hrange. simpl in Hrange.
  destruct (lookup_lt_is_Some_2 row (Z.to_nat r)) as [p Hp]; [lia|].
  rewrite seq_S, fmap_app, foldr_app. simpl.
  rewrite (take_S_r _ _ _ Hrow), horizon_of_snoc.
  assert (proc inst m (default 0 (res !! m)) = p) as ->.
  { unfold proc. rewrite Hr, Hrow. simpl. by rewrite Hp. }
  assert (p ≤ row_max row) as Hmax.
  { apply row_max_bound. by eapply list_elem_of_lookup_2. }
  specialize (IH ltac:(lia) ltac:(lia)).
  revert IH. generalize (horizon_of (take m (task_processing_time_data inst))).
  generalize (λ i, proc inst i (default 0 (res !! i))). intros f.
  generalize (f <$> seq 0 m). clear -Hmax. intros l.
  induction l as [|x l IHl]; simpl; intros h Hh; [lia|].
  specialize (IHl (h - x)). lia.
Qed.

(** X19: the horizon of an instance the reader returns is the sum over
    the tasks of their largest processing time; it is at least the time
    the tasks take one after the other, whatever resources in range
    they are given, and an instance with a task has a resource. *)
Theorem horizon_bounds_serial_time (raw : list string) (inst : instance)
    (res : list Z) :
  parse_instance raw = Next inst →
  Z.of_nat (length res) = nb_tasks inst →
  Forall (λ r, 0 ≤ r < nb_resources inst) res →
  horizon inst = horizon_of (task_processing_time_data inst)
  ∧ serial_time inst res ≤ horizon inst
  ∧ (0 < nb_tasks inst → 0 < nb_resources inst).
Proof.
  intros (Hlen & Hrows & Hne & Hhor)%parse_instance_data Hres Hrange.
  split; [done|]. split.
  - rewrite Hhor. unfold serial_time.
    assert (length res ≤ length (task_processing_time_data inst))%nat as Hle by lia.
    pose proof (serial_time_bound inst res (length res) Hrows Hrange
                  (Nat.le_refl _) Hle) as Hbound.
    rewrite take_ge in Hbound by lia. exact Hbound.
  - intros Hn.
    destruct (task_processing_time_data inst) as [|row data] eqn:Hdata;
      [simpl in Hlen; lia|].
    apply Forall_cons in Hrows as [Hrow _]. apply Forall_cons in Hne as [Hne _].
    destruct row; [done|]. simpl in Hrow. lia.
Qed.

Lemma horizon_bounds_serial_time_witness :
  horizon two_resource_instance
  = horizon_of (task_processing_time_data two_resource_instance)
  ∧ serial_time two_resource_instance [0; 1] ≤ horizon two_resource_instance
  ∧ (0 < nb_tasks two_resource_instance → 0 < nb_resources two_resource_instance).
Proof.
  apply (horizon_bounds_serial_time
           ["2 2"; "4 5"; "3 2 0 0"; "2 2 1 1"; "1 1"; "0"]%string
           two_resource_instance [0; 1]).
  - vm_compute. reflexivity.
  - reflexivity.
  - repeat constructor; simpl; lia.
Defined.

(** ** Lines after the last successor line *)

Lemma carries_over_refl {A : Type} (o : outcome A) : carries_over o o.
Proof. by intros a. Qed.

Lemma carries_over_bind {A B : Type} (o1 o2 : outcome A) (k1 k2 : A → outcome B) :
  carries_over o1 o2 → (∀ a, carries_over (k1 a) (k2 a)) →
  carries_over (obind o1 k1) (obind o2 k2).
Proof.
  intros Ho Hk b. destruct o1 as [a| |]; simpl; [|done..].
  intros Hb. rewrite (Ho a eq_refl). simpl. by apply Hk.
Qed.

Lemma carries_over_for_each {A S : Type} (xs : list A)
    (body1 body2 : A → S → outcome S) (s : S) :
  (∀ x s, x ∈ xs → carries_over (body1 x s) (body2 x s)) →
  carries_over (for_each xs body1 s) (for_each xs body2 s).
Proof.
  revert s. induction xs as [|x xs IH]; intros s Hbody; simpl.
  - apply carries_over_refl.
  - apply carries_over_bind; [apply Hbody; left|].
    intros s'. apply IH. intros y s'' Hy. apply Hbody. by right.
Qed.

Lemma carries_over_index {A : Type} (l more : list A) (i : Z) :
  0 ≤ i → carries_over (py_index l i) (py_index (l ++ more) i).
Proof.
  intros Hi x Hx. apply py_index_lookup in Hx; [|done].
  apply py_index_Z; [done|]. by apply lookup_app_l_Some.
Qed.

Lemma stripped_lines_app (raw extra : list string) :
  stripped_lines (raw ++ extra) = stripped_lines raw ++ stripped_lines extra.
Proof. unfold stripped_lines. by rewrite fmap_app, filter_app, fmap_app. Qed.

Lemma elem_of_range_nonneg (n i : Z) : i ∈ range n → 0 ≤ i.
Proof. unfold range. intros (k & -> & _)%list_elem_of_fmap. lia. Qed.

(** X20: what follows the last successor line is not read: when the
    parsing of a file returns an instance, it returns the same instance
    for the file with any lines added at its end. *)
Theorem trailing_lines_are_ignored (raw extra : list string) (inst : instance) :
  parse_instance raw = Next inst →
  parse_instance (raw ++ extra) = Next inst.
Proof.
  revert inst. change (carries_over (parse_instance raw) (parse_instance (raw ++ extra))).
  unfold parse_instance.
  fold (stripped_lines raw). fold (stripped_lines (raw ++ extra)).
  rewrite stripped_lines_app.
  generalize (stripped_lines raw) (stripped_lines extra). intros lines more.
  apply carries_over_bind; [by apply carries_over_index|]. intros line0.
  apply carries_over_bind; [apply carries_over_refl|]. intros tok0.
  apply carries_over_bind; [apply carries_over_refl|]. intros n.
  apply carries_over_bind; [apply carries_over_refl|]. intros tok1.
  apply carries_over_bind; [apply carries_over_refl|]. intros R.
  apply carries_over_bind; [by apply carries_over_index|]. intros line1.
  apply carries_over_bind; [apply carries_over_refl|]. intros cap.
  apply carries_over_bind.
  { apply carries_over_for_each. intros i [data wts] Hi%elem_of_range_nonneg.
    apply carries_over_bind; [apply carries_over_index; lia|]. intros line.
    apply carries_over_refl. }
  intros [data wts].
  apply carries_over_bind.
  { apply carries_over_for_each. intros i [ns ss] Hi.
    assert (0 < n) as Hn.
    { unfold range in Hi. apply list_elem_of_fmap in Hi as (k & _ & Hk).
      apply elem_of_seq in Hk. lia. }
    apply elem_of_range_nonneg in Hi.
    apply carries_over_bind; [apply carries_over_index; lia|]. intros line.
    apply carries_over_refl. }
  intros [ns ss]. apply carries_over_refl.
Qed.

Lemma trailing_lines_are_ignored_witness :
  parse_instance (["1 1"; "5"; "3 2"; "0"]%string ++ ["end of file"; "7"]%string)
  = Next scenario_1_instance.
Proof.
  apply (trailing_lines_are_ignored ["1 1"; "5"; "3 2"; "0"]%string
           ["end of file"; "7"]%string scenario_1_instance).
  vm_compute. reflexivity.
Defined.
